(** * Sefaria schema trees: titles, address types and citation patterns

    A shallow embedding of [sefaria/model/schema.py]: the title groups, the
    titled tree and its title dictionary, the address types with their
    numeral codecs and pattern fragments, the assembly of citation patterns
    by numbered nodes, and the array-map lookup.

    Conventions of the embedding.
    - Python text is a [string] holding its UTF-8 encoding; on ASCII text a
      byte is a character.  Where the source indexes text that may hold
      Hebrew letters the model indexes code points ([codepoints]).
    - Python integers are [Z]; [/] of Python 2 on integers is [Z.div].
    - A call that may raise returns a [result]; the exception classes are
      the constructors of [exn].
    - Objects mutated in place (a [TitleGroup]) are passed in and handed
      back together with the outcome of the call. *)

From Stdlib Require Import ZArith Lia Ascii String.
From stdpp Require Import base gmap strings list.
From Equations Require Import Equations.

Open Scope Z_scope.

(** ** Python values, exceptions and builtins *)

Module Py.

Inductive exn : Set :=
| InputError
| IndexSchemaError
| IndexError
| ValueError
| TypeError
| Exception
| RegexError.

Inductive result (A : Type) : Type :=
| Ok (a : A)
| Raise (e : exn).

Arguments Ok {A} a.
Arguments Raise {A} e.

Definition bind {A B : Type} (r : result A) (k : A -> result B) : result B :=
  match r with
  | Ok a => k a
  | Raise e => Raise e
  end.

#[global] Instance result_bind : MBind result := fun A B k r => bind r k.
#[global] Instance result_ret : MRet result := fun A a => Ok a.

(** The values the modelled methods hand back: text, integers, [None] and
    (nested) lists. *)
#[warnings="-register-all"]
Inductive pyval : Type :=
| PStr (s : string)
| PInt (z : Z)
| PNone
| PList (l : list pyval).

(** [l[i]] on a sequence: a negative index counts from the end, anything
    outside [-len, len) raises IndexError. *)
Definition index {A : Type} (l : list A) (i : Z) : result A :=
  let n := Z.of_nat (List.length l) in
  let j := if i <? 0 then i + n else i in
  if (0 <=? j) && (j <? n)
  then match nth_error l (Z.to_nat j) with
       | Some x => Ok x
       | None => Raise IndexError
       end
  else Raise IndexError.

(** [\uXXXX] of a unicode literal, as UTF-8 (code points of the basic plane). *)
Definition byte_of (n : Z) : ascii := ascii_of_nat (Z.to_nat n).

Definition uni (cp : Z) : string :=
  if cp <? 128 then String (byte_of cp) EmptyString
  else if cp <? 2048 then
    String (byte_of (192 + cp / 64)) (String (byte_of (128 + cp mod 64)) EmptyString)
  else
    String (byte_of (224 + cp / 4096))
      (String (byte_of (128 + (cp / 64) mod 64))
         (String (byte_of (128 + cp mod 64)) EmptyString)).

(** The double quote, line feed and tab characters as one-character texts. *)
Definition dq : string := uni 34.
Definition nl : string := uni 10.
Definition tab : string := uni 9.

Fixpoint tabs (n : nat) : string :=
  match n with
  | O => EmptyString
  | S n' => tab +:+ tabs n'
  end.

Definition code (c : ascii) : Z := Z.of_nat (nat_of_ascii c).

(** Text as the list of its bytes, and back. *)
Definition chars (s : string) : list ascii := list_ascii_of_string s.
Definition text (l : list ascii) : string := string_of_list_ascii l.

Definition is_continuation (c : ascii) : bool :=
  (128 <=? code c) && (code c <? 192).

(** The code points of a text: a byte that is not a continuation byte
    opens a new one. *)
Fixpoint codepoints_from (cur : list ascii) (l : list ascii) : list (list ascii) :=
  match l with
  | [] => match cur with [] => [] | _ => [cur] end
  | c :: l' =>
      if is_continuation c then codepoints_from (cur ++ [c]) l'
      else match cur with
           | [] => codepoints_from [c] l'
           | _ => cur :: codepoints_from [c] l'
           end
  end.

Definition codepoints (s : string) : list (list ascii) := codepoints_from [] (chars s).

(** [len(s)]. *)
Definition len (s : string) : Z := Z.of_nat (List.length (codepoints s)).

(** [s[i]] on text. *)
Definition str_index (s : string) (i : Z) : result string :=
  c ← index (codepoints s) i; Ok (text c).

(** [s[:-1]]: all but the last character; the empty text stays empty. *)
Definition drop_last (s : string) : string :=
  text (List.concat (removelast (codepoints s))).

Definition is_digit (c : ascii) : bool := (48 <=? code c) && (code c <=? 57).

(** Whitespace of [str.strip] and of [\s]: space, \t, \n, \v, \f, \r. *)
Definition is_space (c : ascii) : bool :=
  (code c =? 32) || ((9 <=? code c) && (code c <=? 13)).

Fixpoint lstrip (l : list ascii) : list ascii :=
  match l with
  | c :: l' => if is_space c then lstrip l' else l
  | [] => []
  end.

Definition strip (l : list ascii) : list ascii :=
  List.rev (lstrip (List.rev (lstrip l))).

Fixpoint digits_value (acc : Z) (l : list ascii) : option Z :=
  match l with
  | [] => Some acc
  | c :: l' =>
      if is_digit c then digits_value (10 * acc + (code c - 48)) l' else None
  end.

(** [int(s)] on text: a decimal numeral, possibly signed, possibly embedded
    in whitespace; anything else raises ValueError.  (ASCII digits only.) *)
Definition int (s : string) : result Z :=
  let t := strip (chars s) in
  let '(neg, body) :=
    match t with
    | c :: r =>
        if Ascii.eqb c "-" then (true, r)
        else if Ascii.eqb c "+" then (false, r)
        else (false, t)
    | [] => (false, t)
    end in
  match body with
  | [] => Raise ValueError
  | _ => match digits_value 0 body with
         | Some n => Ok (if neg then - n else n)
         | None => Raise ValueError
         end
  end.

Definition digit_char (d : Z) : ascii := byte_of (48 + d).

(** The decimal digits of a natural number, most significant first. *)
Equations digits_of (n : Z) : list ascii by wf (Z.to_nat n) lt :=
  digits_of n with Z_lt_dec n 10 := {
    | left _ => [digit_char n]
    | right _ => digits_of (n / 10) ++ [digit_char (n mod 10)] }.
Next Obligation.
  intros. apply Z2Nat.inj_lt; try lia.
  - apply Z.div_pos; lia.
  - apply Z.div_lt; lia.
Qed.

(** [str(n)] and ["%d" % n]. *)
Definition str (n : Z) : string :=
  text (if n <? 0 then "-"%char :: digits_of (- n) else digits_of n).

End Py.

Import Py.

(** ** Address types

    [sefaria.utils.hebrew] is not part of this file: its two numeral
    functions are parameters of the development. *)

Class HebrewNumerals : Type := {
  encode_hebrew_numeral : Z -> string;
  decode_hebrew_numeral : string -> Z
}.

(** Keyword arguments read by the pattern builders ([kwargs.get]). *)
Record kwargs : Set := { strict : bool; for_js : bool }.

Definition no_kwargs : kwargs := {| strict := false; for_js := false |}.

Module AddressType.

(** The classes [globals()["Address" + atype]] resolves to: the five
    address classes and, for the type [Type], the class [AddressType]
    they derive from, here [Base]. *)
Inductive klass : Set := Base | Integer | Talmud | Perek | Mishnah | Aliyah.

(** An instance: its class and the two fields set by [__init__]. *)
Record t : Set := init_ { cls : klass; order : Z; length : option Z }.

Definition hebrew_number_regex : string :=
  "                                    # 1 of 3 styles:" +:+ nl +:+
  "        ((?=[" +:+ uni 0x05d0 +:+ "-" +:+ uni 0x05ea +:+ "]+(?:" +:+ dq +:+ "|" +:+ uni 0x05f4 +:+ "|'')[" +:+ uni 0x05d0 +:+ "-" +:+ uni 0x05ea +:+ "])    # (1: " +:+ dq +:+ ") Lookahead:  At least one letter, followed by double-quote, two single quotes, or gershayim, followed by  one letter" +:+ nl +:+
  "                " +:+ uni 0x05ea +:+ "*(?:" +:+ dq +:+ "|" +:+ uni 0x05f4 +:+ "|'')?" +:+ tabs 4 +:+ "    # Many Tavs (400), maybe dbl quote" +:+ nl +:+
  "                [" +:+ uni 0x05e7 +:+ "-" +:+ uni 0x05ea +:+ "]?(?:" +:+ dq +:+ "|" +:+ uni 0x05f4 +:+ "|'')?" +:+ tabs 1 +:+ "    # One or zero kuf-tav (100-400), maybe dbl quote" +:+ nl +:+
  "                [" +:+ uni 0x05d8 +:+ "-" +:+ uni 0x05e6 +:+ "]?(?:" +:+ dq +:+ "|" +:+ uni 0x05f4 +:+ "|'')?" +:+ tabs 1 +:+ "    # One or zero tet-tzaddi (9-90), maybe dbl quote" +:+ nl +:+
  "                [" +:+ uni 0x05d0 +:+ "-" +:+ uni 0x05d8 +:+ "]?" +:+ tabs 5 +:+ "    # One or zero alef-tet (1-9)" +:+ tabs 15 +:+ "#" +:+ nl +:+
  "            |(?=[" +:+ uni 0x05d0 +:+ "-" +:+ uni 0x05ea +:+ "])" +:+ tabs 6 +:+ "    # (2: no punc) Lookahead: at least one Hebrew letter" +:+ nl +:+
  "                " +:+ uni 0x05ea +:+ "*" +:+ tabs 8 +:+ "    # Many Tavs (400)" +:+ nl +:+
  "                [" +:+ uni 0x05e7 +:+ "-" +:+ uni 0x05ea +:+ "]?" +:+ tabs 5 +:+ "    # One or zero kuf-tav (100-400)" +:+ nl +:+
  "                [" +:+ uni 0x05d8 +:+ "-" +:+ uni 0x05e6 +:+ "]?" +:+ tabs 5 +:+ "    # One or zero tet-tzaddi (9-90)" +:+ nl +:+
  "                [" +:+ uni 0x05d0 +:+ "-" +:+ uni 0x05d8 +:+ "]?" +:+ tabs 5 +:+ "    # One or zero alef-tet (1-9)" +:+ nl +:+
  "            |[" +:+ uni 0x05d0 +:+ "-" +:+ uni 0x05ea +:+ "]['" +:+ uni 0x05f3 +:+ "]" +:+ tabs 5 +:+ "    # (3: ') single letter, followed by a single quote or geresh" +:+ nl +:+
  "        )".

(** The base class declares no section pattern in either language. *)
Definition section_patterns (lang : string) : result (option string) :=
  if String.eqb lang "he" then Ok None
  else if String.eqb lang "en" then Ok None
  else Raise Exception.

(** The body of the base class is [pass]: the method hands back [None]. *)
Definition _core_regex (lang : string) (group_id : option string) : option string :=
  None.

Definition stop_parsing (lang : string) : bool := false.

(** [pass] again. *)
Definition toNumber (lang : string) (s : string) : pyval := PNone.

Definition toStr `{HebrewNumerals} (lang : string) (i : Z) : pyval :=
  if String.eqb lang "en" then PStr (Py.str i)
  else if String.eqb lang "he" then PStr (encode_hebrew_numeral i)
  else PNone.

End AddressType.

Module AddressTalmud.

Definition section_patterns (lang : string) : result (option string) :=
  if String.eqb lang "en" then Ok None
  else if String.eqb lang "he" then
    Ok (Some ("(" +:+ uni 0x05d3 +:+ "[" +:+ uni 0x05e3 +:+ uni 0x05e4 +:+ uni 0x05f3 +:+ "']\s+)"))
  else Raise Exception.

Definition _core_regex (lang : string) (group_id : option string) : string :=
  let reg :=
    match group_id with
    | Some g => if String.eqb g "" then "(" else "(?P<" +:+ g +:+ ">"
    | None => "("
    end in
  if String.eqb lang "en" then reg +:+ "\d+[ab]?)"
  else if String.eqb lang "he" then
    reg +:+ AddressType.hebrew_number_regex +:+
    "([.:]|[,\s]+(?:" +:+ uni 0x05e2 +:+ "(?:" +:+ dq +:+ "|" +:+ uni 0x05f4 +:+ "|''))?[" +:+ uni 0x05d0 +:+ uni 0x05d1 +:+ "])?)"
  else reg.

Definition stop_parsing (lang : string) : bool :=
  if String.eqb lang "he" then true else false.

(** [re.split("[.:,\s]", s)[0]]: the text before the first separator. *)
Fixpoint before_separator (s : string) : string :=
  match s with
  | EmptyString => EmptyString
  | String c s' =>
      if Ascii.eqb c "." || Ascii.eqb c ":" || Ascii.eqb c "," || Py.is_space c
      then EmptyString
      else String c (before_separator s')
  end.

(** [n > k and s[-j] == c]: the index is read only under its guard. *)
Definition guarded_at (s : string) (k : Z) (j : Z) (c : string) : bool :=
  (k <? Py.len s) &&
  match Py.str_index s (- j) with
  | Ok x => String.eqb x c
  | Raise _ => false
  end.

Definition toNumber `{HebrewNumerals} (self : AddressType.t) (lang : string) (s : string)
  : result pyval :=
  if String.eqb lang "en" then
    last ← Py.str_index s (-1);
    let '(amud, daf_text) :=
      if String.eqb last "a" || String.eqb last "b"
      then (last, Py.drop_last s)
      else ("a"%string, s) in
    daf ← match Py.int daf_text with
          | Ok d => Ok d
          | Raise ValueError => Raise InputError
          | Raise e => Raise e
          end;
    let too_long :=
      match AddressType.length self with
      | Some l => negb (l =? 0) && (l <? daf)
      | None => false
      end in
    if too_long then Raise InputError
    else
      let indx := daf * 2 in
      Ok (PInt (if String.eqb amud "a" then indx - 1 else indx))
  else if String.eqb lang "he" then
    let num := before_separator s in
    let daf := decode_hebrew_numeral num * 2 in
    last ← Py.str_index s (-1);
    if String.eqb last ":"
       || (String.eqb last (uni 0x05d1)
           && (((2 <? Py.len s) &&
                match Py.str_index s (-2) with
                | Ok x => String.eqb x "," || String.eqb x " "
                | Raise _ => false
                end)
               || guarded_at s 4 3 (uni 0x05e2)
               || guarded_at s 5 4 (uni 0x05e2)))
    then Ok (PInt daf)
    else Ok (PInt (daf - 1))
  else Ok PNone.

Definition toStr `{HebrewNumerals} (lang : string) (i : Z) : pyval :=
  let i := i + 1 in
  let daf := i / 2 in
  if String.eqb lang "en" then
    if daf * 2 <? i then PStr (Py.str daf +:+ "b") else PStr (Py.str daf +:+ "a")
  else if String.eqb lang "he" then
    if daf * 2 <? i
    then PStr ((encode_hebrew_numeral daf +:+ " ") +:+ uni 0x05D1)
    else PStr ((encode_hebrew_numeral daf +:+ " ") +:+ uni 0x05D0)
  else PInt daf.

End AddressTalmud.

Module AddressInteger.

Definition _core_regex (lang : string) (group_id : option string) : string :=
  let reg :=
    match group_id with
    | Some g => if String.eqb g "" then "(" else "(?P<" +:+ g +:+ ">"
    | None => "("
    end in
  if String.eqb lang "en" then reg +:+ "\d+)"
  else if String.eqb lang "he" then reg +:+ AddressType.hebrew_number_regex +:+ ")"
  else reg.

Definition toNumber `{HebrewNumerals} (lang : string) (s : string) : result pyval :=
  if String.eqb lang "en" then d ← Py.int s; Ok (PInt d)
  else if String.eqb lang "he" then Ok (PInt (decode_hebrew_numeral s))
  else Ok PNone.

Definition toStr `{HebrewNumerals} (lang : string) (i : Z) : pyval :=
  if String.eqb lang "en" then PStr (Py.str i)
  else if String.eqb lang "he" then PStr (encode_hebrew_numeral i)
  else PNone.

End AddressInteger.

Module AddressAliyah.

Definition en_map : list string :=
  ["First"; "Second"; "Third"; "Fourth"; "Fifth"; "Sixth"; "Seventh"]%string.

Definition he_map : list string :=
  [ uni 0x05e8 +:+ uni 0x05d0 +:+ uni 0x05e9 +:+ uni 0x05d5 +:+ uni 0x05df;
    uni 0x05e9 +:+ uni 0x05e0 +:+ uni 0x05d9;
    uni 0x05e9 +:+ uni 0x05dc +:+ uni 0x05d9 +:+ uni 0x05e9 +:+ uni 0x05d9;
    uni 0x05e8 +:+ uni 0x05d1 +:+ uni 0x05d9 +:+ uni 0x05e2 +:+ uni 0x05d9;
    uni 0x05d7 +:+ uni 0x05de +:+ uni 0x05d9 +:+ uni 0x05e9 +:+ uni 0x05d9;
    uni 0x05e9 +:+ uni 0x05d9 +:+ uni 0x05e9 +:+ uni 0x05d9;
    uni 0x05e9 +:+ uni 0x05d1 +:+ uni 0x05d9 +:+ uni 0x05e2 +:+ uni 0x05d9 ].

Definition toStr (lang : string) (i : Z) : result pyval :=
  if String.eqb lang "en" then w ← Py.index en_map (i - 1); Ok (PStr w)
  else if String.eqb lang "he" then w ← Py.index he_map (i - 1); Ok (PStr w)
  else Ok PNone.

End AddressAliyah.

Module AddressPerek.

Definition section_patterns (lang : string) : result (option string) :=
  if String.eqb lang "en" then Ok (Some "(?:(?:Chapter|chapter|Perek|perek)\s*)"%string)
  else if String.eqb lang "he" then
    Ok (Some (
      "(?:" +:+ nl +:+
      "            " +:+ uni 0x05e4 +:+ "(?:" +:+ dq +:+ "|" +:+ uni 0x05f4 +:+ "|'')?                  # Peh (for 'perek') maybe followed by a quote of some sort" +:+ nl +:+
      "            |" +:+ uni 0x05e4 +:+ uni 0x05e8 +:+ uni 0x05e7 +:+ "\s*                  # or 'perek' spelled out, followed by space" +:+ nl +:+
      "        )"))
  else Raise Exception.

End AddressPerek.

Module AddressMishnah.

Definition section_patterns (lang : string) : result (option string) :=
  if String.eqb lang "en" then Ok None
  else if String.eqb lang "he" then
    Ok (Some (
      "(?:" +:+ nl +:+
      "            (?:" +:+ uni 0x05de +:+ uni 0x05e9 +:+ uni 0x05e0 +:+ uni 0x05d4 +:+ "\s)" +:+ tabs 3 +:+ "# Mishna spelled out, with a space after" +:+ nl +:+
      "            |(?:" +:+ uni 0x05de +:+ "(?:" +:+ dq +:+ "|" +:+ uni 0x05f4 +:+ "|'')?)" +:+ tabs 4 +:+ "# or Mem (for 'mishna') maybe followed by a quote of some sort" +:+ nl +:+
      "        )"))
  else Raise Exception.

End AddressMishnah.

(** Method resolution: each class with the method it defines or inherits. *)
Module Address.

Import AddressType.

Definition section_patterns (self : t) (lang : string) : result (option string) :=
  match cls self with
  | Talmud => AddressTalmud.section_patterns lang
  | Perek => AddressPerek.section_patterns lang
  | Mishnah => AddressMishnah.section_patterns lang
  | Base | Integer | Aliyah => AddressType.section_patterns lang
  end.

(** The text of the class, or the [None] of the base class. *)
Definition _core_regex (self : t) (lang : string) (group_id : option string)
  : option string :=
  match cls self with
  | Base => AddressType._core_regex lang group_id
  | Talmud => Some (AddressTalmud._core_regex lang group_id)
  | Integer | Perek | Mishnah | Aliyah => Some (AddressInteger._core_regex lang group_id)
  end.

(** [AddressType.regex]: a lookup of [section_patterns] with an unknown
    language is the KeyError the method turns into an Exception.  The
    answer is a text, or [None] when [_core_regex] gives [None]; a
    section pattern cannot be joined to [None], which is a TypeError. *)
Definition regex (self : t) (lang : string) (group_id : option string) (kw : kwargs)
  : result (option string) :=
  pat ← section_patterns self lang;
  match pat with
  | Some p =>
      if String.eqb p "" then Ok (_core_regex self lang group_id)
      else
        let reg := if strict kw then p else p +:+ "?" in
        match _core_regex self lang group_id with
        | Some core => Ok (Some (reg +:+ core))
        | None => Raise TypeError
        end
  | None => Ok (_core_regex self lang group_id)
  end.

Definition stop_parsing (self : t) (lang : string) : bool :=
  match cls self with
  | Talmud => AddressTalmud.stop_parsing lang
  | Base | Integer | Perek | Mishnah | Aliyah => AddressType.stop_parsing lang
  end.

Definition toNumber `{HebrewNumerals} (self : t) (lang : string) (s : string) : result pyval :=
  match cls self with
  | Base => Ok (AddressType.toNumber lang s)
  | Talmud => AddressTalmud.toNumber self lang s
  | Integer | Perek | Mishnah | Aliyah => AddressInteger.toNumber lang s
  end.

Definition toStr `{HebrewNumerals} (self : t) (lang : string) (i : Z) : result pyval :=
  match cls self with
  | Base => Ok (AddressType.toStr lang i)
  | Talmud => Ok (AddressTalmud.toStr lang i)
  | Aliyah => AddressAliyah.toStr lang i
  | Integer | Perek | Mishnah => Ok (AddressInteger.toStr lang i)
  end.

End Address.

(** ** Titles *)

(** One title record: the keys [text] and [lang], the truth value of
    [primary], and [presentation] when the key is there. *)
Module Title.

Record t : Set := mk {
  text : string;
  lang : string;
  primary : bool;
  presentation : option string
}.

(** [{"text": text, "lang": lang}]. *)
Definition plain (text lang : string) : t :=
  {| text := text; lang := lang; primary := false; presentation := None |}.

End Title.

Module TitleGroup.

(** [titles] and the cache [_primary_title].  The class reads the cache
    through [.get] only, so a language bound to [None] and a language not
    bound are one state: no entry. *)
Record t : Type := mk {
  titles : list Title.t;
  _primary_title : gmap string string
}.

(** [TitleGroup()] and [TitleGroup(serial)]. *)
Definition init (serial : list Title.t) : t :=
  {| titles := serial; _primary_title := ∅ |}.

(** What a call that returns hands back: [None] or the group itself. *)
Inductive returned : Set := RNone | RSelf.

Definition primary_title (self : t) (lang : string) : string * t :=
  let cache1 :=
    match _primary_title self !! lang with
    | None =>
        match List.find (fun t => String.eqb (Title.lang t) lang && Title.primary t)
                        (titles self) with
        | Some t => <[lang := Title.text t]> (_primary_title self)
        | None => _primary_title self
        end
    | Some _ => _primary_title self
    end in
  let cache2 :=
    match cache1 !! lang with
    | None => <[lang := ""%string]> cache1
    | Some p => if String.eqb p "" then <[lang := ""%string]> cache1 else cache1
    end in
  (match cache2 !! lang with Some p => p | None => ""%string end,
   {| titles := titles self; _primary_title := cache2 |}).

Definition all_titles (self : t) (lang : option string) : list string :=
  match lang with
  | None => List.map Title.text (titles self)
  | Some l =>
      List.map Title.text
        (List.filter (fun t => String.eqb (Title.lang t) l) (titles self))
  end.

Definition remove_title (self : t) (text lang : string) : t :=
  {| titles :=
       List.filter
         (fun t => negb (String.eqb (Title.lang t) lang && String.eqb (Title.text t) text))
         (titles self);
     _primary_title := _primary_title self |}.

(** The outcome of the call and the group as the call leaves it. *)
Definition add_title (self : t) (text lang : string)
    (primary replace_primary : bool) (presentation : string)
  : result returned * t :=
  let there :=
    List.existsb
      (fun t => String.eqb (Title.text t) text && String.eqb (Title.lang t) lang)
      (titles self) in
  if there && negb replace_primary then (Ok RNone, self)
  else
    let self := if there then remove_title self text lang else self in
    let d :=
      {| Title.text := text;
         Title.lang := lang;
         Title.primary := primary;
         Title.presentation :=
           if String.eqb presentation "alone" || String.eqb presentation "both"
           then Some presentation else None |} in
    let has_primary :=
      List.existsb (fun x => String.eqb (Title.lang x) lang && Title.primary x)
                   (titles self) in
    if has_primary && primary then
      if negb replace_primary then
        let '(_, self) := primary_title self "en" in
        (Raise IndexSchemaError, self)
      else
        let '(old_primary, self) := primary_title self lang in
        let kept :=
          List.filter
            (fun t => negb (String.eqb (Title.lang t) lang) || negb (Title.primary t))
            (titles self) in
        (Ok RSelf,
         {| titles := (kept ++ [Title.plain old_primary lang]) ++ [d];
            _primary_title := delete lang (_primary_title self) |})
    else
      (Ok RSelf,
       {| titles := titles self ++ [d]; _primary_title := _primary_title self |}).

(** A call to [add_title] by its arguments, and a run of such calls on one
    group; a call that raises leaves the group as it then is and the run
    goes on (the caller caught the exception). *)
Record call : Set := {
  c_text : string;
  c_lang : string;
  c_primary : bool;
  c_replace_primary : bool;
  c_presentation : string
}.

Definition step (self : t) (c : call) : t :=
  snd (add_title self (c_text c) (c_lang c) (c_primary c) (c_replace_primary c)
         (c_presentation c)).

Definition run (self : t) (cs : list call) : t := fold_left step cs self.

End TitleGroup.

(** ** Titled tree nodes *)

Module TitledTreeNode.

(** A node: its title group, the [default] flag and its children. *)
Inductive t : Type :=
| Node (title_group : TitleGroup.t) (default : bool) (children : list t).

Definition title_group (n : t) : TitleGroup.t := let 'Node g _ _ := n in g.
Definition default (n : t) : bool := let 'Node _ d _ := n in d.
Definition children (n : t) : list t := let 'Node _ _ c := n in c.

Definition after_title_delimiter_re : string := "[,.: \r\n]+".
Definition title_separators : list string := [" "; ", "]%string.

Definition is_default (n : t) : bool := default n.
Definition get_titles (n : t) : list Title.t := TitleGroup.titles (title_group n).
Definition has_children (n : t) : bool :=
  match children n with [] => false | _ => true end.

(** A node of the tree is named by the child positions that lead to it
    from the node [title_dict] was first called on. *)
Definition node_ref : Set := list nat.

Definition this_node_titles (n : t) (lang : string) : list string :=
  List.map Title.text
    (List.filter
       (fun title =>
          String.eqb (Title.lang title) lang
          && negb (match Title.presentation title with
                   | Some p => String.eqb p "alone"
                   | None => false
                   end))
       (get_titles n)).

Definition alone_node_titles (n : t) (lang : string) : list string :=
  List.map Title.text
    (List.filter
       (fun title =>
          (String.eqb (Title.lang title) lang
           && match Title.presentation title with
              | Some p => String.eqb p "alone"
              | None => false
              end)
          || match Title.presentation title with
             | Some p => String.eqb p "both"
             | None => false
             end)
       (get_titles n)).

Definition node_title_list (n : t) (lang : string) (baselist : list string)
  : list string :=
  (match baselist with
   | [] => this_node_titles n lang
   | _ =>
       List.flat_map
         (fun baseName =>
            List.flat_map
              (fun sep =>
                 List.map (fun title => (baseName +:+ sep) +:+ title)
                          (this_node_titles n lang))
              title_separators)
         baselist
   end) ++ alone_node_titles n lang.

(** The loop over the children: the position of the child at hand, the
    node the titles will point at, and the dictionary so far. *)
Definition loop_state : Type := nat * node_ref * gmap string node_ref.

(** One round of the loop; [child_dict] is the recursive call on a child
    at a position. *)
Definition visit_child (child_dict : t -> node_ref -> gmap string node_ref)
    (here : node_ref) (st : loop_state) (child : t) : loop_state :=
  let '(k, thisnode, title_dict) := st in
  if is_default child
  then (S k, here ++ [k], title_dict)
  else (S k, thisnode, child_dict child (here ++ [k]) ∪ title_dict).

Fixpoint title_dict (self : t) (here : node_ref) (lang : string)
    (baselist : list string) : gmap string node_ref :=
  let titles := node_title_list self lang baselist in
  let '(_, thisnode, title_dict0) :=
    fold_left
      (visit_child (fun child there => title_dict child there lang titles) here)
      (children self)
      (O, here, ∅) in
  fold_left (fun d title => <[title := thisnode]> d) titles title_dict0.

End TitledTreeNode.

(** ** Regular expressions

    [regex.compile] and [match] belong to the regex library, not to this
    repository.  They are modelled for the syntax the English patterns of
    this file use: literals, escapes, character sets, groups (capturing,
    named, non-capturing), lookahead, alternation, the anchors and the
    greedy quantifiers, with the backtracking order of the library.  A
    pattern outside this fragment does not compile here.  Subjects are
    ASCII text. *)

Module Regex.

Inductive item : Set :=
| IChar (c : ascii)
| IRange (lo hi : ascii)
| IDigit (positive : bool)
| ISpace (positive : bool)
| IWord (positive : bool).

(** A capture is read by name, or for an unnamed group by its rank among
    the unnamed groups of the pattern. *)
Inductive gid : Set :=
| Named (name : string)
| Unnamed (rank : nat).

Inductive re : Set :=
| Empty
| Chr (c : ascii)
| Any
| Cset (negated : bool) (items : list item)
| Bol
| Eol
| Seq (r1 r2 : re)
| Alt (r1 r2 : re)
| Repeat (min : nat) (max : option nat) (r : re)
| Group (g : gid) (r : re)
| Look (r : re).

Definition is_alnum (c : ascii) : bool :=
  is_digit c
  || ((65 <=? code c) && (code c <=? 90))
  || ((97 <=? code c) && (code c <=? 122)).

Definition is_word (c : ascii) : bool := is_alnum c || Ascii.eqb c "_".

Definition item_matches (i : item) (c : ascii) : bool :=
  match i with
  | IChar x => Ascii.eqb x c
  | IRange lo hi => (code lo <=? code c) && (code c <=? code hi)
  | IDigit b => Bool.eqb b (Py.is_digit c)
  | ISpace b => Bool.eqb b (Py.is_space c)
  | IWord b => Bool.eqb b (is_word c)
  end.

Definition cset_matches (negated : bool) (items : list item) (c : ascii) : bool :=
  xorb negated (List.existsb (fun i => item_matches i c) items).

(** *** Parsing a pattern *)

Definition escape_item (c : ascii) : option item :=
  if Ascii.eqb c "d" then Some (IDigit true)
  else if Ascii.eqb c "D" then Some (IDigit false)
  else if Ascii.eqb c "s" then Some (ISpace true)
  else if Ascii.eqb c "S" then Some (ISpace false)
  else if Ascii.eqb c "w" then Some (IWord true)
  else if Ascii.eqb c "W" then Some (IWord false)
  else if Ascii.eqb c "r" then Some (IChar (byte_of 13))
  else if Ascii.eqb c "n" then Some (IChar (byte_of 10))
  else if Ascii.eqb c "t" then Some (IChar (byte_of 9))
  else if Ascii.eqb c "f" then Some (IChar (byte_of 12))
  else if Ascii.eqb c "v" then Some (IChar (byte_of 11))
  else if is_alnum c then None
  else Some (IChar c).

(** The items of a set up to its closing bracket; a bracket in first
    position is a literal. *)
Fixpoint parse_items (first : bool) (s : list ascii) : option (list item * list ascii) :=
  let cons_item (i : item) (r : option (list item * list ascii)) :=
    match r with
    | Some (items, rest) => Some (i :: items, rest)
    | None => None
    end in
  match s with
  | [] => None
  | c :: s1 =>
      if Ascii.eqb c "]" && negb first then Some ([], s1)
      else if Ascii.eqb c "\" then
        match s1 with
        | x :: s2 =>
            match escape_item x with
            | Some i => cons_item i (parse_items false s2)
            | None => None
            end
        | [] => None
        end
      else
        match s1 with
        | d :: hi :: s3 =>
            if Ascii.eqb d "-" && negb (Ascii.eqb hi "]") then
              if Ascii.eqb hi "\" then None
              else cons_item (IRange c hi) (parse_items false s3)
            else cons_item (IChar c) (parse_items false s1)
        | _ => cons_item (IChar c) (parse_items false s1)
        end
  end.

Definition parse_set (s : list ascii) : option (re * list ascii) :=
  let '(negated, s1) :=
    match s with
    | c :: s' => if Ascii.eqb c "^" then (true, s') else (false, s)
    | [] => (false, s)
    end in
  match parse_items true s1 with
  | Some (items, rest) => Some (Cset negated items, rest)
  | None => None
  end.

(** The name of a named group, up to its closing angle bracket. *)
Fixpoint parse_name (s : list ascii) : option (string * list ascii) :=
  match s with
  | [] => None
  | c :: s' =>
      if Ascii.eqb c ">" then Some (EmptyString, s')
      else if is_word c then
        match parse_name s' with
        | Some (n, rest) => Some (String c n, rest)
        | None => None
        end
      else None
  end.

Definition is_quantifier (c : ascii) : bool :=
  Ascii.eqb c "*" || Ascii.eqb c "+" || Ascii.eqb c "?" || Ascii.eqb c "{".

Definition quantified (c : ascii) (a : re) : option re :=
  if Ascii.eqb c "*" then Some (Repeat 0 None a)
  else if Ascii.eqb c "+" then Some (Repeat 1 None a)
  else if Ascii.eqb c "?" then Some (Repeat 0 (Some 1%nat) a)
  else None.

(** A quantifier after an atom.  A quantifier that is followed by a second
    one (the lazy and possessive forms) is outside the fragment, and so
    are counted repetitions. *)
Definition parse_quantifier (a : re) (s : list ascii) : option (re * list ascii) :=
  match s with
  | c :: s1 =>
      if is_quantifier c then
        match s1 with
        | c2 :: _ =>
            if is_quantifier c2 then None
            else match quantified c a with
                 | Some r => Some (r, s1)
                 | None => None
                 end
        | [] =>
            match quantified c a with
            | Some r => Some (r, s1)
            | None => None
            end
        end
      else Some (a, s)
  | [] => Some (a, s)
  end.

Inductive level : Set := LAlt | LSeq | LAtom.

Definition expect_close (r : option (re * nat * list ascii)) (wrap : re -> re)
  : option (re * nat * list ascii) :=
  match r with
  | Some (r, n, c :: rest) =>
      if Ascii.eqb c ")" then Some (wrap r, n, rest) else None
  | _ => None
  end.

(** Recursive descent: alternatives, sequences, quantified atoms.  [n]
    counts the unnamed groups opened so far. *)
Fixpoint parse (fuel : nat) (lv : level) (n : nat) (s : list ascii)
  : option (re * nat * list ascii) :=
  match fuel with
  | O => None
  | S fuel =>
      match lv with
      | LAlt =>
          match parse fuel LSeq n s with
          | Some (r1, n1, c :: s1) =>
              if Ascii.eqb c "|" then
                match parse fuel LAlt n1 s1 with
                | Some (r2, n2, s2) => Some (Alt r1 r2, n2, s2)
                | None => None
                end
              else Some (r1, n1, c :: s1)
          | other => other
          end
      | LSeq =>
          match s with
          | [] => Some (Empty, n, s)
          | c :: _ =>
              if Ascii.eqb c ")" || Ascii.eqb c "|" then Some (Empty, n, s)
              else
                match parse fuel LAtom n s with
                | Some (r1, n1, s1) =>
                    match parse fuel LSeq n1 s1 with
                    | Some (Empty, n2, s2) => Some (r1, n2, s2)
                    | Some (r2, n2, s2) => Some (Seq r1 r2, n2, s2)
                    | None => None
                    end
                | None => None
                end
          end
      | LAtom =>
          let atom : option (re * nat * list ascii) :=
            match s with
            | [] => None
            | c :: s1 =>
                if Ascii.eqb c "(" then
                  match s1 with
                  | q :: k :: s2 =>
                      if Ascii.eqb q "?" then
                        if Ascii.eqb k ":" then
                          expect_close (parse fuel LAlt n s2) (fun r => r)
                        else if Ascii.eqb k "=" then
                          expect_close (parse fuel LAlt n s2) Look
                        else if Ascii.eqb k "P" then
                          match s2 with
                          | lt :: s3 =>
                              if Ascii.eqb lt "<" then
                                match parse_name s3 with
                                | Some (name, s4) =>
                                    expect_close (parse fuel LAlt n s4)
                                                 (Group (Named name))
                                | None => None
                                end
                              else None
                          | [] => None
                          end
                        else None
                      else
                        expect_close (parse fuel LAlt (S n) s1) (Group (Unnamed n))
                  | _ => expect_close (parse fuel LAlt (S n) s1) (Group (Unnamed n))
                  end
                else if Ascii.eqb c "[" then
                  match parse_set s1 with
                  | Some (r, rest) => Some (r, n, rest)
                  | None => None
                  end
                else if Ascii.eqb c "\" then
                  match s1 with
                  | x :: s2 =>
                      match escape_item x with
                      | Some (IChar y) => Some (Chr y, n, s2)
                      | Some i => Some (Cset false [i], n, s2)
                      | None => None
                      end
                  | [] => None
                  end
                else if Ascii.eqb c "^" then Some (Bol, n, s1)
                else if Ascii.eqb c "$" then Some (Eol, n, s1)
                else if Ascii.eqb c "." then Some (Any, n, s1)
                else if is_quantifier c || Ascii.eqb c "}" then None
                else Some (Chr c, n, s1)
            end in
          match atom with
          | Some (a, n1, s1) =>
              match parse_quantifier a s1 with
              | Some (r, s2) => Some (r, n1, s2)
              | None => None
              end
          | None => None
          end
      end
  end.

(** [regex.compile(reg)]. *)
Definition compile (reg : string) : result re :=
  let s := list_ascii_of_string reg in
  match parse (4 * S (List.length s)) LAlt 0 s with
  | Some (r, _, []) => Ok r
  | _ => Raise RegexError
  end.

(** [regex.escape(title)] as the library had it when this code was
    written: every character but the ASCII letters, the digits and the
    underscore gets a backslash. *)
Fixpoint escape (pattern : string) : string :=
  match pattern with
  | EmptyString => EmptyString
  | String c rest =>
      if is_word c then String c (escape rest)
      else if Ascii.eqb c (byte_of 0) then "\000" +:+ escape rest
      else String "\" (String c (escape rest))
  end.

(** *** Matching *)

Definition captures : Set := list (gid * (nat * nat)).

Record match_object : Set := { m_end : nat; m_groups : captures }.

Definition gid_eqb (a b : gid) : bool :=
  match a, b with
  | Named x, Named y => String.eqb x y
  | Unnamed x, Unnamed y => Nat.eqb x y
  | _, _ => false
  end.

Definition set_group (g : gid) (span : nat * nat) (c : captures) : captures :=
  (g, span) :: List.filter (fun e => negb (gid_eqb (fst e) g)) c.

Definition get_group (g : gid) (c : captures) : option (nat * nat) :=
  match List.find (fun e => gid_eqb (fst e) g) c with
  | Some e => Some (snd e)
  | None => None
  end.

Definition cont : Set := list ascii -> nat -> captures -> option match_object.

(** Backtracking matcher in continuation-passing style: [s] is the rest of
    the subject, [pos] the position reached, [k] what must match after.
    A repetition tries one more round first (greedy), and a round must
    advance. *)
Fixpoint run (r : re) (s : list ascii) (pos : nat) (c : captures) (k : cont)
  : option match_object :=
  match r with
  | Empty => k s pos c
  | Chr x =>
      match s with
      | y :: s' => if Ascii.eqb x y then k s' (S pos) c else None
      | [] => None
      end
  | Any =>
      match s with
      | y :: s' => if Ascii.eqb y (byte_of 10) then None else k s' (S pos) c
      | [] => None
      end
  | Cset negated items =>
      match s with
      | y :: s' => if cset_matches negated items y then k s' (S pos) c else None
      | [] => None
      end
  | Bol => if Nat.eqb pos 0 then k s pos c else None
  | Eol =>
      match s with
      | [] => k s pos c
      | [y] => if Ascii.eqb y (byte_of 10) then k s pos c else None
      | _ => None
      end
  | Seq r1 r2 => run r1 s pos c (fun s' pos' c' => run r2 s' pos' c' k)
  | Alt r1 r2 =>
      match run r1 s pos c k with
      | Some m => Some m
      | None => run r2 s pos c k
      end
  | Repeat min max r1 =>
      (fix rounds (fuel : nat) (done : nat) (s : list ascii) (pos : nat)
           (c : captures) {struct fuel} : option match_object :=
         let stop := if Nat.leb min done then k s pos c else None in
         match fuel with
         | O => stop
         | S fuel' =>
             let more :=
               match max with
               | Some m => Nat.ltb done m
               | None => true
               end in
             if more then
               match run r1 s pos c
                       (fun s' pos' c' =>
                          if Nat.ltb pos pos' then rounds fuel' (S done) s' pos' c'
                          else None) with
               | Some m => Some m
               | None => stop
               end
             else stop
         end) (S (List.length s)) O s pos c
  | Group g r1 =>
      run r1 s pos c (fun s' pos' c' => k s' pos' (set_group g (pos, pos') c'))
  | Look r1 =>
      match run r1 s pos c (fun _ pos' c' => Some {| m_end := pos'; m_groups := c' |}) with
      | Some m => k s pos (m_groups m)
      | None => None
      end
  end.

(** [pattern.match(subject)]: a match that starts at position 0. *)
Definition match_ (pattern : re) (subject : string) : option match_object :=
  run pattern (list_ascii_of_string subject) 0 []
      (fun _ pos c => Some {| m_end := pos; m_groups := c |}).

(** [m.group(0)] and [m.group(name)]; [None] for a group that took no part. *)
Definition group0 (subject : string) (m : match_object) : string :=
  String.substring 0 (m_end m) subject.

Definition group (subject : string) (m : match_object) (name : string) : option string :=
  match get_group (Named name) (m_groups m) with
  | Some (b, e) => Some (String.substring b (e - b) subject)
  | None => None
  end.

End Regex.


(** ** Numbered nodes *)

Module NumberedTitledTreeNode.

(** The parameters of a numbered node and the address classes built from
    them by [_init_address_classes]. *)
Record t : Set := mk {
  depth : Z;
  addressTypes : list string;
  sectionNames : list string;
  lengths : option (list Z);
  _addressTypes : list AddressType.t
}.

(** [globals()["Address" + atype]]: the names of the file that begin with
    [Address] are the six classes, [AddressType] among them. *)
Definition address_klass (atype : string) : result AddressType.klass :=
  if String.eqb atype "Type" then Ok AddressType.Base
  else if String.eqb atype "Integer" then Ok AddressType.Integer
  else if String.eqb atype "Talmud" then Ok AddressType.Talmud
  else if String.eqb atype "Perek" then Ok AddressType.Perek
  else if String.eqb atype "Mishnah" then Ok AddressType.Mishnah
  else if String.eqb atype "Aliyah" then Ok AddressType.Aliyah
  else Raise IndexSchemaError.

Fixpoint _init_address_classes_from (i : Z) (atypes : list string)
    (lengths : option (list Z)) : result (list AddressType.t) :=
  match atypes with
  | [] => Ok []
  | atype :: rest =>
      klass ← address_klass atype;
      a ← (match lengths with
           | Some (l :: ls) =>
               if i =? 0
               then len_i ← Py.index (l :: ls) i;
                    Ok (AddressType.init_ klass i (Some len_i))
               else Ok (AddressType.init_ klass i None)
           | _ => Ok (AddressType.init_ klass i None)
           end);
      more ← _init_address_classes_from (i + 1) rest lengths;
      Ok (a :: more)
  end.

Definition _init_address_classes (atypes : list string) (lengths : option (list Z))
  : result (list AddressType.t) :=
  _init_address_classes_from 0 atypes lengths.

(** The constructor, for the parameters of the serial form. *)
Definition init (depth : Z) (addressTypes sectionNames : list string)
    (lengths : option (list Z)) : result t :=
  ats ← _init_address_classes addressTypes lengths;
  Ok (mk depth addressTypes sectionNames lengths ats).

Definition address_class (self : t) (depth : Z) : result AddressType.t :=
  Py.index (_addressTypes self) depth.

(** [range(1, depth)]. *)
Definition range1 (depth : Z) : list Z :=
  List.map Z.of_nat (List.seq 1 (Z.to_nat depth - 1)).

Definition group_name (kw : kwargs) (i : Z) : option string :=
  if for_js kw then None else Some ("a" +:+ Py.str i).

(** One round of the loop over the deeper levels.  The right-hand side of
    [reg += ...] is evaluated first, and joining a text to the [None] of
    an address class is a TypeError; so is [reg += ...] on a [reg] that is
    [None]. *)
Definition append_level (self : t) (lang : string) (kw : kwargs)
    (reg : result (option string)) (i : Z) : result (option string) :=
  reg ← reg;
  a ← Py.index (_addressTypes self) i;
  r ← Address.regex a lang (group_name kw i) kw;
  match r, reg with
  | Some r, Some reg =>
      let reg := reg +:+ (("(" +:+ TitledTreeNode.after_title_delimiter_re) +:+ r) +:+ ")" in
      Ok (Some (if strict kw then reg else reg +:+ "?"))
  | _, _ => Raise TypeError
  end.

(** The pattern of the address, or [None] when level 0 is of the base
    class and no deeper level is added. *)
Definition address_regex (self : t) (lang : string) (kw : kwargs)
  : result (option string) :=
  a0 ← Py.index (_addressTypes self) 0;
  reg ← Address.regex a0 lang (group_name kw 0) kw;
  if negb (Address.stop_parsing a0 lang)
  then fold_left (append_level self lang kw) (range1 (depth self)) (Ok reg)
  else Ok reg.

(** The text [reg] that [full_regex] assembles. *)
Definition full_regex_source (self : t) (title lang : string) (anchored : bool)
    (kw : kwargs) : result string :=
  let reg := if anchored then "^"%string else ""%string in
  let reg := reg +:+ (Regex.escape title +:+ TitledTreeNode.after_title_delimiter_re) in
  inner1 ← address_regex self lang kw;
  match inner1 with
  | None => Raise TypeError
  | Some inner1 =>
      inner2 ← address_regex self lang kw;
      match inner2 with
      | None => Raise TypeError
      | Some inner2 =>
          let reg :=
            reg +:+ (((("(?:(?:" +:+ inner1) +:+ ")|(?:[\[({]") +:+ inner2)
                       +:+ "[\])}]))") in
          Ok (reg +:+ (if for_js kw then "(?=[.,;?! })<]|$)" else "(?=\W|$)"))
      end
  end.

(** What [full_regex] returns: a compiled pattern, or with [for_js] the text. *)
Inductive regex_or_text : Set :=
| Compiled (pattern : Regex.re)
| Text (reg : string).

Definition full_regex (self : t) (title lang : string) (anchored : bool)
    (kw : kwargs) : result regex_or_text :=
  reg ← full_regex_source self title lang anchored kw;
  if for_js kw then Ok (Text reg)
  else pattern ← Regex.compile reg; Ok (Compiled pattern).

End NumberedTitledTreeNode.

(** ** Array maps *)

Module ArrayMapNode.

Record t : Type := mk {
  node : NumberedTitledTreeNode.t;
  wholeRef : string;
  refs : pyval
}.

(** [a[i]] on a value: a list or a text can be indexed, nothing else. *)
Definition getitem (a : pyval) (i : Z) : result pyval :=
  match a with
  | PList l => Py.index l i
  | PStr s => c ← Py.str_index s i; Ok (PStr c)
  | PInt _ | PNone => Raise TypeError
  end.

(** [reduce(f, xs, init)] for an [f] that may raise. *)
Definition reduce {A B : Type} (f : A -> B -> result A) (xs : list B) (init : A)
  : result A :=
  fold_left (fun acc x => a ← acc; f a x) xs (Ok init).

Definition get_ref_from_sections (self : t) (sections : list Z) : result pyval :=
  match sections with
  | [] => Ok (PStr (wholeRef self))
  | _ => reduce getitem (List.map (fun s => s - 1) sections) (refs self)
  end.

End ArrayMapNode.

(** ** Notions and sample values of the statements *)

(** The value a vector of 1-based coordinates designates inside a nested
    sequence, when every coordinate is within the list it indexes. *)
Fixpoint designated (a : pyval) (sections : list Z) : option pyval :=
  match sections with
  | [] => Some a
  | s :: rest =>
      match a with
      | PList l =>
          if (1 <=? s) && (s <=? Z.of_nat (List.length l))
          then match nth_error l (Z.to_nat (s - 1)) with
               | Some x => designated x rest
               | None => None
               end
          else None
      | _ => None
      end
  end.

(** The number of places of a value that can be indexed: the entries of a
    list, the characters of a text. *)
Definition places (a : pyval) : option Z :=
  match a with
  | PList l => Some (Z.of_nat (List.length l))
  | PStr s => Some (Py.len s)
  | PInt _ | PNone => None
  end.

(** The entry at a 0-based place. *)
Definition entry (a : pyval) (i : nat) : option pyval :=
  match a with
  | PList l => nth_error l i
  | PStr s => option_map (fun c => PStr (Py.text c)) (nth_error (Py.codepoints s) i)
  | PInt _ | PNone => None
  end.

(** The value a vector of coordinates leads to when a coordinate [s] on
    [n] places may be any of 1..n, read at place [s - 1], or any of
    [1 - n]..0, read from the end at place [s - 1 + n]. *)
Fixpoint located (a : pyval) (sections : list Z) : option pyval :=
  match sections with
  | [] => Some a
  | s :: rest =>
      match places a with
      | Some n =>
          if (1 - n <=? s) && (s <=? n)
          then match entry a (Z.to_nat (if 1 <=? s then s - 1 else s - 1 + n)) with
               | Some x => located x rest
               | None => None
               end
          else None
      | None => None
      end
  end.

(** A node of depth 2: two references under the first entry, three under
    the second. *)
Definition nested_refs : ArrayMapNode.t :=
  ArrayMapNode.mk
    (NumberedTitledTreeNode.mk 2 ["Integer"; "Integer"]%string
       ["Chapter"; "Verse"]%string None
       [AddressType.init_ AddressType.Integer 0 None;
        AddressType.init_ AddressType.Integer 1 None])
    "Genesis 1-2"
    (PList [PList [PStr "Genesis 1:1"; PStr "Genesis 1:2"];
            PList [PStr "Genesis 2:1"; PStr "Genesis 2:2"; PStr "Genesis 2:3"]]).

(** A node of depth 1 over five references. *)
Definition five_refs : ArrayMapNode.t :=
  ArrayMapNode.mk
    (NumberedTitledTreeNode.mk 1 ["Integer"%string] ["Aliyah"%string] None
       [AddressType.init_ AddressType.Integer 0 None])
    "Genesis 1:1-6:8"
    (PList [PStr "Genesis 1:1-2:3"; PStr "Genesis 2:4-2:19"; PStr "Genesis 2:20-3:21";
            PStr "Genesis 3:22-4:18"; PStr "Genesis 4:19-6:8"]).

(** A numbered node of depth 3 whose middle level is Talmud. *)
Definition talmud_in_the_middle : NumberedTitledTreeNode.t :=
  NumberedTitledTreeNode.mk 3
    ["Integer"; "Talmud"; "Integer"]%string ["Chapter"; "Daf"; "Line"]%string None
    [AddressType.init_ AddressType.Integer 0 None;
     AddressType.init_ AddressType.Talmud 1 None;
     AddressType.init_ AddressType.Integer 2 None].

(** [needle in text]. *)
Definition contains (needle text : string) : bool :=
  match String.index 0 needle text with
  | Some _ => true
  | None => false
  end.

(** A numbered node of depth 2 with Integer addresses at both levels. *)
Definition chapter_verse : NumberedTitledTreeNode.t :=
  NumberedTitledTreeNode.mk 2
    ["Integer"; "Integer"]%string ["Chapter"; "Verse"]%string None
    [AddressType.init_ AddressType.Integer 0 None;
     AddressType.init_ AddressType.Integer 1 None].

(** A match with its whole text and the texts of the groups [a0], [a1]. *)
Definition matches (pattern : Regex.re) (subject whole : string)
    (a0 a1 : option string) : Prop :=
  exists m : Regex.match_object,
    Regex.match_ pattern subject = Some m
    /\ Regex.group0 subject m = whole
    /\ Regex.group subject m "a0" = a0
    /\ Regex.group subject m "a1" = a1.

(** The records of a title list that are primary in a language. *)
Definition is_primary_in (lang : string) (t : Title.t) : bool :=
  String.eqb (Title.lang t) lang && Title.primary t.

Definition primaries (g : TitleGroup.t) (lang : string) : list Title.t :=
  List.filter (is_primary_in lang) (TitleGroup.titles g).

(** At most one primary title per language. *)
Definition single_primary (g : TitleGroup.t) : Prop :=
  forall lang : string, (List.length (primaries g lang) <= 1)%nat.

(** The pair (text, lang) is among the titles. *)
Definition present (g : TitleGroup.t) (text lang : string) : bool :=
  List.existsb
    (fun t => String.eqb (Title.text t) text && String.eqb (Title.lang t) lang)
    (TitleGroup.titles g).

(** The cache holds nothing for the language, or the text of the record [p]. *)
Definition cache_fresh (g : TitleGroup.t) (lang : string) (p : Title.t) : Prop :=
  TitleGroup._primary_title g !! lang = None
  \/ TitleGroup._primary_title g !! lang = Some (Title.text p).

(** A group whose one title is the primary English title "Genesis". *)
Definition genesis_group : TitleGroup.t :=
  TitleGroup.init [Title.mk "Genesis" "en" true None].

(** A node titled "Genesis" whose only child is a default node, which has
    a child of its own titled "Prologue". *)
Definition genesis_tree : TitledTreeNode.t :=
  TitledTreeNode.Node genesis_group false
    [ TitledTreeNode.Node (TitleGroup.init []) true
        [ TitledTreeNode.Node
            (TitleGroup.init [Title.mk "Prologue" "en" true None]) false [] ] ].

(** A node titled "Genesis" with two default children. *)
Definition two_defaults : TitledTreeNode.t :=
  TitledTreeNode.Node genesis_group false
    [ TitledTreeNode.Node (TitleGroup.init []) true [];
      TitledTreeNode.Node (TitleGroup.init []) true [] ].

(** Two lists of children that differ at most inside default children. *)
Definition same_but_defaults (cs cs' : list TitledTreeNode.t) : Prop :=
  Forall2
    (fun c c' =>
       c = c' \/ (TitledTreeNode.is_default c = true /\ TitledTreeNode.is_default c' = true))
    cs cs'.

(** A decimal numeral: a non-empty run of digits and the number it reads. *)
Definition numeral (ds : list ascii) (n : Z) : Prop :=
  ds <> [] /\ Forall (fun c => Py.is_digit c = true) ds /\ Py.digits_value 0 ds = Some n.

(** The daf [d] does not exceed the length the address was built with: no
    length was given, or a length of 0 (which the check takes for none),
    or a length of at least [d]. *)
Definition within_length (self : AddressType.t) (d : Z) : Prop :=
  match AddressType.length self with
  | Some m => m = 0 \/ d <= m
  | None => True
  end.

(** The daf [d] exceeds a length other than 0. *)
Definition exceeds_length (self : AddressType.t) (d : Z) : Prop :=
  exists m : Z, AddressType.length self = Some m /\ m <> 0 /\ m < d.

(** Numerals are not read from Hebrew in the statements on English text. *)
Definition no_hebrew : HebrewNumerals :=
  {| encode_hebrew_numeral := fun _ => ""%string;
     decode_hebrew_numeral := fun _ => 0 |}.

(** The node a list of child positions leads to. *)
Fixpoint node_at (root : TitledTreeNode.t) (path : TitledTreeNode.node_ref)
  : option TitledTreeNode.t :=
  match path with
  | [] => Some root
  | k :: rest =>
      match TitledTreeNode.children root !! k with
      | Some child => node_at child rest
      | None => None
      end
  end.

(** The reference [v] names a node of the tree [self], whose own reference
    is [here]. *)
Definition points_into (self : TitledTreeNode.t) (here v : TitledTreeNode.node_ref)
  : Prop :=
  exists (path : TitledTreeNode.node_ref) (n : TitledTreeNode.t),
    v = here ++ path /\ node_at self path = Some n.

(** A node titled "Genesis" in English, with a Hebrew title whose
    presentation is "both", and one plain child "Prologue". *)
Definition genesis_with_child : TitledTreeNode.t :=
  TitledTreeNode.Node
    (TitleGroup.init
       [Title.mk "Genesis" "en" true None;
        Title.mk (uni 0x05d0) "he" true (Some "both"%string)])
    false
    [ TitledTreeNode.Node
        (TitleGroup.init [Title.mk "Prologue" "en" true None]) false [] ].

(** ** Walking the tree

    The methods of [TreeNode] that walk a tree, on the nodes above.  A
    node is named by its reference from the root: the reference stands
    for the identity of the object, which [is] compares, and a node has
    a parent when its reference is not the empty one. *)

Module TreeNode.

Definition has_children (self : TitledTreeNode.t) : bool :=
  match TitledTreeNode.children self with
  | [] => false
  | _ => true
  end.

Definition is_leaf (self : TitledTreeNode.t) : bool := negb (has_children self).

(** [not self.parent], for the node with reference [here]. *)
Definition is_root (here : TitledTreeNode.node_ref) : bool :=
  match here with
  | [] => true
  | _ => false
  end.

Fixpoint first_leaf (self : TitledTreeNode.t) (here : TitledTreeNode.node_ref)
  : TitledTreeNode.node_ref :=
  match TitledTreeNode.children self with
  | [] => here
  | child :: _ => first_leaf child (here ++ [O])
  end.

(** [last_leaf] goes down the last child; the walk over the children
    keeps the answer of the child it saw last. *)
Fixpoint last_leaf (self : TitledTreeNode.t) (here : TitledTreeNode.node_ref)
  : TitledTreeNode.node_ref :=
  snd (fold_left
         (fun (st : nat * TitledTreeNode.node_ref) child =>
            (S (fst st), last_leaf child (here ++ [fst st])))
         (TitledTreeNode.children self)
         (O, here)).

Fixpoint get_leaf_nodes (self : TitledTreeNode.t) (here : TitledTreeNode.node_ref)
  : list TitledTreeNode.node_ref :=
  match TitledTreeNode.children self with
  | [] => [here]
  | children =>
      snd (fold_left
             (fun (st : nat * list TitledTreeNode.node_ref) node =>
                (S (fst st), snd st ++ get_leaf_nodes node (here ++ [fst st])))
             children
             (O, []))
  end.

(** The loop of [_prev_in_list]: [prev] is the element seen last. *)
Fixpoint prev_scan (self : TitledTreeNode.node_ref)
    (prev : option TitledTreeNode.node_ref) (l : list TitledTreeNode.node_ref)
  : option TitledTreeNode.node_ref :=
  match l with
  | [] => None
  | x :: l' => if decide (x = self) then prev else prev_scan self (Some x) l'
  end.

Definition _prev_in_list (self : TitledTreeNode.node_ref)
    (l : list TitledTreeNode.node_ref) : option TitledTreeNode.node_ref :=
  if is_root self then None else prev_scan self None l.

Fixpoint _next_in_list (self : TitledTreeNode.node_ref)
    (l : list TitledTreeNode.node_ref) : option TitledTreeNode.node_ref :=
  match l with
  | [] => None
  | x :: l' =>
      if decide (x = self)
      then match l' with
           | [] => None
           | y :: _ => Some y
           end
      else _next_in_list self l'
  end.

(** [next_leaf] and [prev_leaf] of the node [self] in the tree [root]. *)
Definition next_leaf (root : TitledTreeNode.t) (self : TitledTreeNode.node_ref)
  : option TitledTreeNode.node_ref :=
  _next_in_list self (get_leaf_nodes root []).

Definition prev_leaf (root : TitledTreeNode.t) (self : TitledTreeNode.node_ref)
  : option TitledTreeNode.node_ref :=
  _prev_in_list self (get_leaf_nodes root []).

End TreeNode.

(** A tree with the leaves [0; 0], [0; 1] and [1]. *)
Definition three_leaves : TitledTreeNode.t :=
  TitledTreeNode.Node genesis_group false
    [ TitledTreeNode.Node (TitleGroup.init []) false
        [ TitledTreeNode.Node (TitleGroup.init []) false [];
          TitledTreeNode.Node (TitleGroup.init []) false [] ];
      TitledTreeNode.Node (TitleGroup.init []) false [] ].

(** ** Titled nodes and their caches

    [full_title] and [full_titles] of a titled node read and fill caches
    on the node and on its ancestors.  What they touch of the tree is the
    chain from the node up to the root: the node is given with the list
    of its ancestors, the parent first and the root last, and the two
    are handed back as the call leaves them.  Every node of the chain
    has a title group of its own (no shared title). *)

Module TitledNode.

Record t : Type := mk {
  title_group : TitleGroup.t;
  _full_title : gmap string string;
  _full_titles : gmap string (list string)
}.

Definition primary_title (self : t) (lang : string) : string * t :=
  let '(p, g) := TitleGroup.primary_title (title_group self) lang in
  (p, mk g (_full_title self) (_full_titles self)).

Definition all_node_titles (self : t) (lang : string) : list string :=
  TitleGroup.all_titles (title_group self) (Some lang).

Fixpoint full_title (self : t) (ancestors : list t) (lang : string)
  : string * (t * list t) :=
  match _full_title self !! lang with
  | Some (String c s) => (String c s, (self, ancestors))
  | _ =>
      match ancestors with
      | parent :: rest =>
          let '(above, (parent, rest)) := full_title parent rest lang in
          let '(own, self) := primary_title self lang in
          let v := (above +:+ ", ") +:+ own in
          (v, (mk (title_group self) (<[lang := v]> (_full_title self))
                  (_full_titles self),
               parent :: rest))
      | [] =>
          let '(own, self) := primary_title self lang in
          (own, (mk (title_group self) (<[lang := own]> (_full_title self))
                    (_full_titles self),
                 []))
      end
  end.

Fixpoint full_titles (self : t) (ancestors : list t) (lang : string)
  : list string * (t * list t) :=
  match _full_titles self !! lang with
  | Some (x :: xs) => (x :: xs, (self, ancestors))
  | _ =>
      match ancestors with
      | parent :: rest =>
          let '(above, (parent, rest)) := full_titles parent rest lang in
          let v :=
            List.flat_map
              (fun parent_title =>
                 List.flat_map
                   (fun sep =>
                      List.map (fun local => (parent_title +:+ sep) +:+ local)
                               (all_node_titles self lang))
                   TitledTreeNode.title_separators)
              above in
          (v, (mk (title_group self) (_full_title self)
                  (<[lang := v]> (_full_titles self)),
               parent :: rest))
      | [] =>
          let v := all_node_titles self lang in
          (v, (mk (title_group self) (_full_title self)
                  (<[lang := v]> (_full_titles self)),
               []))
      end
  end.

End TitledNode.

(** The text of the first title that is primary in the language, the
    empty text when there is none. *)
Definition primary_text (n : TitledNode.t) (lang : string) : string :=
  match List.find (is_primary_in lang)
          (TitleGroup.titles (TitledNode.title_group n)) with
  | Some p => Title.text p
  | None => ""%string
  end.

(** The primary titles from the root down to the node, with a comma and a
    space between them. *)
Fixpoint joined_titles (self : TitledNode.t) (ancestors : list TitledNode.t)
    (lang : string) : string :=
  match ancestors with
  | [] => primary_text self lang
  | parent :: rest => (joined_titles parent rest lang +:+ ", ") +:+ primary_text self lang
  end.

(** Nothing is cached for the language on the node. *)
Definition uncached (lang : string) (n : TitledNode.t) : Prop :=
  TitledNode._full_title n !! lang = None
  /\ TitledNode._full_titles n !! lang = None
  /\ TitleGroup._primary_title (TitledNode.title_group n) !! lang = None.

(** A node built from its titles, with empty caches. *)
Definition titled (titles : list Title.t) : TitledNode.t :=
  TitledNode.mk (TitleGroup.init titles) ∅ ∅.

(** ** Schema nodes and content trees

    [create_content] and [visit_content] of [SchemaNode] use of a node its
    key and its children.  A content tree is a dict from the keys of the
    children to content trees, or the value that stands at a content
    node.  The callback is a function of the node and of the positional
    arguments; it may raise. *)

Module SchemaNode.

#[warnings="-register-all"]
Inductive t : Type := Node (key : string) (children : list t).

Definition key (self : t) : string := let 'Node k _ := self in k.
Definition children (self : t) : list t := let 'Node _ cs := self in cs.

#[warnings="-register-all"]
Inductive content : Type :=
| Value (v : Py.pyval)
| Dict (d : gmap string content).

(** What these methods raise: KeyError of a dict, or another exception. *)
Inductive error : Type :=
| KeyError (k : string)
| Raised (e : Py.exn).

Inductive outcome (A : Type) : Type :=
| Done (a : A)
| Fails (e : error).
Arguments Done {A} a.
Arguments Fails {A} e.

Definition bind {A B : Type} (r : outcome A) (k : A -> outcome B) : outcome B :=
  match r with
  | Done a => k a
  | Fails e => Fails e
  end.

#[global] Instance outcome_bind : MBind outcome := fun A B k r => bind r k.
#[global] Instance outcome_ret : MRet outcome := fun A a => Done a.

Definition callback : Type := t -> list content -> outcome content.

(** [tree[key]]: the values other than dicts are texts, integers, [None]
    and lists, which a text key does not index. *)
Definition getitem (k : string) (tree : content) : outcome content :=
  match tree with
  | Dict d =>
      match d !! k with
      | Some c => Done c
      | None => Fails (KeyError k)
      end
  | Value _ => Fails (Raised TypeError)
  end.

Fixpoint create_content (callback : option callback) (args : list content) (self : t)
  : outcome content :=
  match self with
  | Node _ [] =>
      match callback with
      | None => Done (Value PNone)
      | Some f => f self args
      end
  | Node _ children =>
      d ← fold_left
            (fun acc node =>
               d ← acc;
               c ← create_content callback args node;
               Done (<[key node := c]> d))
            children (Done ∅);
      Done (Dict d)
  end.

Definition create_skeleton (self : t) : outcome content :=
  create_content (Some (fun _ _ => Done (Value (PList [])))) [] self.

Fixpoint visit_content (callback : option callback) (contents : list content) (self : t)
  : outcome content :=
  match self with
  | Node _ [] => create_content callback contents self
  | Node _ children =>
      dict ← fold_left
               (fun acc node =>
                  dict ← acc;
                  v ← (c ← mapM (getitem (key node)) contents;
                       visit_content callback c node);
                  Done (<[key node := v]> dict))
               children (Done ∅);
      Done (Dict dict)
  end.

End SchemaNode.

(** The last of the nodes that has the key. *)
Fixpoint last_with_key (k : string) (nodes : list SchemaNode.t) : option SchemaNode.t :=
  match nodes with
  | [] => None
  | n :: nodes =>
      match last_with_key k nodes with
      | Some m => Some m
      | None => if decide (SchemaNode.key n = k) then Some n else None
      end
  end.

(** No two children of a node have the same key, anywhere in the tree. *)
Fixpoint unique_keys (n : SchemaNode.t) : bool :=
  match n with
  | SchemaNode.Node _ cs =>
      bool_decide (NoDup (List.map SchemaNode.key cs)) && forallb unique_keys cs
  end.

(** What has been made of a node, if it was made. *)
Definition made (r : SchemaNode.outcome SchemaNode.content) : option SchemaNode.content :=
  match r with
  | SchemaNode.Done c => Some c
  | SchemaNode.Fails _ => None
  end.

(** The callback that hands the result of [f] to [g]. *)
Definition then_visit (f : SchemaNode.callback) (args : list SchemaNode.content)
    (g : SchemaNode.callback) : SchemaNode.callback :=
  fun n _ => v ← f n args; g n [v].

(** A schema with two content nodes under the keys [Introduction] and
    [Text]. *)
Definition two_parts : SchemaNode.t :=
  SchemaNode.Node "Book"
    [SchemaNode.Node "Introduction" []; SchemaNode.Node "Text" []].

(** A callback that counts nothing yet, and one that wraps what it is
    given in a list. *)
Definition zero_count : SchemaNode.callback :=
  fun _ _ => SchemaNode.Done (SchemaNode.Value (PInt 0)).

Definition first_given : SchemaNode.callback :=
  fun _ given =>
    match given with
    | c :: _ => SchemaNode.Done c
    | [] => SchemaNode.Fails (SchemaNode.Raised TypeError)
    end.

(** The loop that fills the dict, for any way [G] of making the entry of a
    child. *)
Definition fill (G : SchemaNode.t -> SchemaNode.outcome SchemaNode.content)
    (cs : list SchemaNode.t)
    (start : SchemaNode.outcome (gmap string SchemaNode.content))
  : SchemaNode.outcome (gmap string SchemaNode.content) :=
  fold_left
    (fun acc node =>
       d ← acc;
       c ← G node;
       SchemaNode.Done (<[SchemaNode.key node := c]> d))
    cs start.

(** Reduction of the fields of a titled node, and of pairs. *)
Ltac node_simpl :=
  cbn [TitledNode._full_title TitledNode.title_group TitledNode._full_titles fst snd].

(** The address types that name a class of the file: [Address] followed
    by one of them is a global name. *)
Definition known_address_types : list string :=
  ["Type"; "Integer"; "Talmud"; "Perek"; "Mishnah"; "Aliyah"]%string.

(** The class an address type names, by the names of the classes. *)
Definition class_named (atype : string) : option AddressType.klass :=
  if decide (atype = "Type"%string) then Some AddressType.Base
  else if decide (atype = "Integer"%string) then Some AddressType.Integer
  else if decide (atype = "Talmud"%string) then Some AddressType.Talmud
  else if decide (atype = "Perek"%string) then Some AddressType.Perek
  else if decide (atype = "Mishnah"%string) then Some AddressType.Mishnah
  else if decide (atype = "Aliyah"%string) then Some AddressType.Aliyah
  else None.

(** * Properties *)

(** ** Aliyah ordinals *)

Lemma index_ge {A : Type} (l : list A) (i : Z) :
  Z.of_nat (List.length l) <= i -> Py.index l i = Raise IndexError.
Proof.
  intros Hi. unfold Py.index.
  destruct (Z.ltb_spec i 0) as [Hneg | _]; [lia |].
  destruct (Z.ltb_spec i (Z.of_nat (List.length l))) as [Hlt | _]; [lia |].
  by rewrite andb_false_r.
Qed.

Lemma index_in_range {A : Type} (l : list A) (i : Z) :
  0 <= i < Z.of_nat (List.length l) ->
  exists x, nth_error l (Z.to_nat i) = Some x /\ Py.index l i = Ok x.
Proof.
  intros Hi. unfold Py.index.
  destruct (Z.ltb_spec i 0) as [Hneg | _]; [lia |].
  destruct (Z.leb_spec 0 i) as [_ | Hneg]; [| lia].
  destruct (Z.ltb_spec i (Z.of_nat (List.length l))) as [_ | Hge]; [| lia].
  simpl. destruct (nth_error l (Z.to_nat i)) as [x |] eqn:Hx; [eauto |].
  apply nth_error_None in Hx. lia.
Qed.

(** C10: [AddressAliyah.toStr] is partial over its tables of seven ordinal
    words.  Input 0 gives the seventh word in both languages (the index -1
    counts from the end), every input above 7 raises IndexError, and the
    inputs that give the word of their own rank are exactly 1 to 7. *)
Theorem aliyah_toStr_partial :
  AddressAliyah.toStr "en" 0 = Ok (PStr "Seventh")
  /\ AddressAliyah.toStr "he" 0
     = Ok (PStr (uni 0x05e9 +:+ uni 0x05d1 +:+ uni 0x05d9 +:+ uni 0x05e2 +:+ uni 0x05d9))
  /\ (forall i : Z, 7 < i ->
        AddressAliyah.toStr "en" i = Raise IndexError
        /\ AddressAliyah.toStr "he" i = Raise IndexError)
  /\ (forall i : Z,
        ((exists w, 1 <= i /\ nth_error AddressAliyah.en_map (Z.to_nat (i - 1)) = Some w
                    /\ AddressAliyah.toStr "en" i = Ok (PStr w))
         <-> 1 <= i <= 7)
        /\ ((exists w, 1 <= i /\ nth_error AddressAliyah.he_map (Z.to_nat (i - 1)) = Some w
                       /\ AddressAliyah.toStr "he" i = Ok (PStr w))
            <-> 1 <= i <= 7)).
Proof.
  split; [reflexivity |]. split; [reflexivity |]. split.
  - intros i Hi. unfold AddressAliyah.toStr. simpl.
    rewrite !index_ge by (simpl; lia). done.
  - intros i. split; split.
    + intros (w & H1 & Hn & _). split; [done |].
      assert (Hlt : (Z.to_nat (i - 1) < 7)%nat)
        by (apply (nth_error_Some AddressAliyah.en_map); congruence).
      lia.
    + intros Hi. unfold AddressAliyah.toStr. simpl.
      destruct (index_in_range AddressAliyah.en_map (i - 1)) as (w & Hn & Hw);
        [simpl; lia |].
      exists w. rewrite Hw. repeat split; [lia | done].
    + intros (w & H1 & Hn & _). split; [done |].
      assert (Hlt : (Z.to_nat (i - 1) < 7)%nat)
        by (apply (nth_error_Some AddressAliyah.he_map); congruence).
      lia.
    + intros Hi. unfold AddressAliyah.toStr. simpl.
      destruct (index_in_range AddressAliyah.he_map (i - 1)) as (w & Hn & Hw);
        [simpl; lia |].
      exists w. rewrite Hw. repeat split; [lia | done].
Qed.

Lemma aliyah_toStr_partial_witness :
  AddressAliyah.toStr "en" 8 = Raise IndexError
  /\ AddressAliyah.toStr "en" 3 = Ok (PStr "Third").
Proof.
  destruct aliyah_toStr_partial as (_ & _ & Hhigh & Hmid).
  split.
  - apply (Hhigh 8). lia.
  - destruct (Hmid 3) as [[_ Hen] _].
    destruct Hen as (w & _ & Hn & Hw); [lia |].
    simpl in Hn. injection Hn as <-. exact Hw.
Defined.

(** ** Array-map lookup *)

Lemma reduce_raise {A B : Type} (f : A -> B -> result A) (xs : list B) (e : exn) :
  fold_left (fun acc x => a ← acc; f a x) xs (Raise e) = Raise e.
Proof. induction xs as [| x xs IH]; [reflexivity | exact IH]. Qed.

Lemma reduce_cons {A B : Type} (f : A -> B -> result A) (x : B) (xs : list B) (a : A) :
  ArrayMapNode.reduce f (x :: xs) a
  = match f a x with
    | Ok a' => ArrayMapNode.reduce f xs a'
    | Raise e => Raise e
    end.
Proof.
  unfold ArrayMapNode.reduce. simpl.
  destruct (f a x) as [a' | e]; [reflexivity | apply reduce_raise].
Qed.

Lemma reduce_app {A B : Type} (f : A -> B -> result A) (xs ys : list B) (a : A) :
  ArrayMapNode.reduce f (xs ++ ys) a
  = match ArrayMapNode.reduce f xs a with
    | Ok a' => ArrayMapNode.reduce f ys a'
    | Raise e => Raise e
    end.
Proof.
  unfold ArrayMapNode.reduce. rewrite List.fold_left_app.
  destruct (fold_left _ xs (Ok a)) as [a' | e]; [reflexivity | apply reduce_raise].
Qed.

Lemma reduce_designated (a v : pyval) (sections : list Z) :
  designated a sections = Some v ->
  ArrayMapNode.reduce ArrayMapNode.getitem (List.map (fun s => s - 1) sections) a = Ok v.
Proof.
  revert a. induction sections as [| s rest IH]; intros a Hd.
  - simpl in Hd. injection Hd as <-. reflexivity.
  - simpl in Hd. destruct a as [| | | l]; try discriminate.
    destruct ((1 <=? s) && (s <=? Z.of_nat (List.length l))) eqn:Hb; [| discriminate].
    apply andb_true_iff in Hb as [H1 H2].
    apply Z.leb_le in H1. apply Z.leb_le in H2.
    destruct (nth_error l (Z.to_nat (s - 1))) as [x |] eqn:Hx; [| discriminate].
    simpl List.map. rewrite reduce_cons. simpl ArrayMapNode.getitem.
    destruct (index_in_range l (s - 1)) as (y & Hy & Hi); [lia |].
    rewrite Hi. rewrite Hx in Hy. injection Hy as <-. by apply IH.
Qed.

Lemma index_below {A : Type} (l : list A) (i : Z) :
  i < - Z.of_nat (List.length l) -> Py.index l i = Raise IndexError.
Proof.
  intros Hi. unfold Py.index.
  destruct (Z.ltb_spec i 0) as [_ | Hpos]; [| lia].
  destruct (Z.leb_spec 0 (i + Z.of_nat (List.length l))) as [Hge | _]; [lia |].
  reflexivity.
Qed.

Lemma reduce_out_of_bounds (a : pyval) (pre post : list Z) (s : Z) (l : list pyval) :
  designated a pre = Some (PList l) ->
  Z.of_nat (List.length l) < s \/ s <= - Z.of_nat (List.length l) ->
  ArrayMapNode.reduce ArrayMapNode.getitem
    (List.map (fun s => s - 1) (pre ++ s :: post)) a = Raise IndexError.
Proof.
  revert a. induction pre as [| p pre IH]; intros a Hd Hs.
  - simpl in Hd. injection Hd as ->. simpl List.map. rewrite reduce_cons.
    simpl ArrayMapNode.getitem.
    destruct Hs as [Hs | Hs];
      [rewrite index_ge by lia | rewrite index_below by lia]; reflexivity.
  - simpl in Hd. destruct a as [| | | l0]; try discriminate.
    destruct ((1 <=? p) && (p <=? Z.of_nat (List.length l0))) eqn:Hb; [| discriminate].
    apply andb_true_iff in Hb as [H1 H2].
    apply Z.leb_le in H1. apply Z.leb_le in H2.
    destruct (nth_error l0 (Z.to_nat (p - 1))) as [x |] eqn:Hx; [| discriminate].
    simpl List.map. rewrite reduce_cons. simpl ArrayMapNode.getitem.
    destruct (index_in_range l0 (p - 1)) as (y & Hy & Hi); [lia |].
    rewrite Hi. rewrite Hx in Hy. injection Hy as <-. by apply IH.
Qed.

Lemma index_negative {A : Type} (l : list A) (i : Z) :
  - Z.of_nat (List.length l) <= i < 0 ->
  Py.index l i = Py.index l (i + Z.of_nat (List.length l)).
Proof.
  intros Hi. unfold Py.index.
  destruct (Z.ltb_spec i 0) as [_ | ?]; [| lia].
  destruct (Z.ltb_spec (i + Z.of_nat (List.length l)) 0) as [? | _]; [lia |].
  reflexivity.
Qed.

(** Indexing a list with a coordinate of either kind. *)
Lemma index_coordinate {A : Type} (l : list A) (s : Z) :
  1 - Z.of_nat (List.length l) <= s <= Z.of_nat (List.length l) ->
  exists x : A,
    nth_error l (Z.to_nat (if 1 <=? s then s - 1 else s - 1 + Z.of_nat (List.length l)))
    = Some x
    /\ Py.index l (s - 1) = Ok x.
Proof.
  intros Hs. destruct (Z.leb_spec 1 s) as [Hpos | Hneg].
  - apply index_in_range. lia.
  - rewrite index_negative by lia. apply index_in_range. lia.
Qed.

Lemma getitem_located (a x : pyval) (n s : Z) :
  places a = Some n ->
  1 - n <= s <= n ->
  entry a (Z.to_nat (if 1 <=? s then s - 1 else s - 1 + n)) = Some x ->
  ArrayMapNode.getitem a (s - 1) = Ok x.
Proof.
  intros Hn Hs Hx. destruct a as [r | | | l]; try discriminate.
  - simpl in Hn. injection Hn as <-. unfold Py.len in *.
    destruct (index_coordinate (Py.codepoints r) s Hs) as (c & Hc & Hi).
    simpl in Hx. rewrite Hc in Hx. simpl in Hx. injection Hx as <-.
    simpl. unfold Py.str_index. by rewrite Hi.
  - simpl in Hn. injection Hn as <-.
    destruct (index_coordinate l s Hs) as (y & Hy & Hi).
    simpl in Hx. rewrite Hy in Hx. injection Hx as <-. exact Hi.
Qed.

Lemma getitem_out_of_bounds (a : pyval) (n s : Z) :
  places a = Some n ->
  n < s \/ s <= - n ->
  ArrayMapNode.getitem a (s - 1) = Raise IndexError.
Proof.
  intros Hn Hs. destruct a as [r | | | l]; try discriminate.
  - simpl in Hn. injection Hn as <-. unfold Py.len in Hs.
    simpl. unfold Py.str_index.
    destruct Hs as [Hs | Hs];
      [rewrite index_ge by lia | rewrite index_below by lia]; reflexivity.
  - simpl in Hn. injection Hn as <-. simpl.
    destruct Hs as [Hs | Hs];
      [rewrite index_ge by lia | rewrite index_below by lia]; reflexivity.
Qed.

Lemma reduce_located (a v : pyval) (sections : list Z) :
  located a sections = Some v ->
  ArrayMapNode.reduce ArrayMapNode.getitem (List.map (fun s => s - 1) sections) a = Ok v.
Proof.
  revert a. induction sections as [| s rest IH]; intros a Hl.
  - simpl in Hl. injection Hl as <-. reflexivity.
  - simpl in Hl. destruct (places a) as [n |] eqn:Hn; [| discriminate].
    destruct ((1 - n <=? s) && (s <=? n)) eqn:Hb; [| discriminate].
    apply andb_true_iff in Hb as [H1 H2].
    apply Z.leb_le in H1. apply Z.leb_le in H2.
    destruct (entry a (Z.to_nat (if 1 <=? s then s - 1 else s - 1 + n)))
      as [x |] eqn:Hx; [| discriminate].
    simpl List.map. rewrite reduce_cons.
    rewrite (getitem_located a x n s Hn (conj H1 H2) Hx). by apply IH.
Qed.

(** The coordinates that are all within 1..n lead where they designate. *)
Lemma designated_located (a v : pyval) (sections : list Z) :
  designated a sections = Some v -> located a sections = Some v.
Proof.
  revert a. induction sections as [| s rest IH]; intros a Hd; [exact Hd |].
  simpl in Hd. destruct a as [| | | l]; try discriminate.
  destruct ((1 <=? s) && (s <=? Z.of_nat (List.length l))) eqn:Hb; [| discriminate].
  apply andb_true_iff in Hb as [H1 H2].
  destruct (nth_error l (Z.to_nat (s - 1))) as [x |] eqn:Hx; [| discriminate].
  simpl. rewrite H1, H2.
  replace (1 - Z.of_nat (List.length l) <=? s) with true
    by (symmetry; apply Z.leb_le; apply Z.leb_le in H1; lia).
  simpl. rewrite Hx. by apply IH.
Qed.

(** C9, as the code has it: with no sections [get_ref_from_sections]
    returns [wholeRef]; with coordinates that are all within the lists
    they index it returns the entry they designate, reading each 1-based
    coordinate [s] at the 0-based index [s - 1]; wherever a coordinate
    stands in the vector and however the coordinates before it were read,
    it raises IndexError when the coordinate is above the number [n] of
    places of the list (or of the text of a reference) it indexes, or at
    most [- n]; and the coordinates in between, from [1 - n] to 0, are not
    rejected: they are read from the end, [s] as [s + n]. *)
Theorem get_ref_from_sections_bounds (self : ArrayMapNode.t) :
  ArrayMapNode.get_ref_from_sections self [] = Ok (PStr (ArrayMapNode.wholeRef self))
  /\ (forall (sections : list Z) (v : pyval),
        sections <> [] ->
        designated (ArrayMapNode.refs self) sections = Some v ->
        ArrayMapNode.get_ref_from_sections self sections = Ok v)
  /\ (forall (pre post : list Z) (s n : Z) (a : pyval),
        located (ArrayMapNode.refs self) pre = Some a ->
        places a = Some n ->
        n < s \/ s <= - n ->
        ArrayMapNode.get_ref_from_sections self (pre ++ s :: post) = Raise IndexError)
  /\ (forall (sections : list Z) (v : pyval),
        sections <> [] ->
        located (ArrayMapNode.refs self) sections = Some v ->
        ArrayMapNode.get_ref_from_sections self sections = Ok v)
  /\ (forall (pre post : list Z) (s n : Z) (a : pyval),
        located (ArrayMapNode.refs self) pre = Some a ->
        places a = Some n ->
        1 - n <= s <= 0 ->
        ArrayMapNode.get_ref_from_sections self (pre ++ s :: post)
        = ArrayMapNode.get_ref_from_sections self (pre ++ (s + n) :: post)).
Proof.
  split; [reflexivity |]. split; [| split; [| split]].
  - intros sections v Hne Hd. destruct sections as [| s rest]; [done |].
    unfold ArrayMapNode.get_ref_from_sections. by apply reduce_designated.
  - intros pre post s n a Hl Hn Hs.
    unfold ArrayMapNode.get_ref_from_sections.
    destruct (pre ++ s :: post) as [| x xs] eqn:Happ; [by destruct pre |].
    rewrite <- Happ. rewrite List.map_app, reduce_app.
    rewrite (reduce_located _ _ _ Hl). simpl List.map. rewrite reduce_cons.
    by rewrite (getitem_out_of_bounds a n s Hn Hs).
  - intros sections v Hne Hl. destruct sections as [| s rest]; [done |].
    unfold ArrayMapNode.get_ref_from_sections. by apply reduce_located.
  - intros pre post s n a Hl Hn Hs.
    unfold ArrayMapNode.get_ref_from_sections.
    destruct (pre ++ s :: post) as [| x xs] eqn:Happ; [by destruct pre |].
    rewrite <- Happ. clear Happ x xs.
    destruct (pre ++ (s + n) :: post) as [| x xs] eqn:Happ; [by destruct pre |].
    rewrite <- Happ. clear Happ x xs.
    rewrite !List.map_app, !reduce_app.
    rewrite (reduce_located _ _ _ Hl). simpl List.map. rewrite !reduce_cons.
    replace (ArrayMapNode.getitem a (s + n - 1)) with (ArrayMapNode.getitem a (s - 1));
      [reflexivity |].
    destruct a as [r | | | l]; try discriminate; simpl in Hn; injection Hn as <-; simpl.
    + unfold Py.str_index, Py.len in *.
      rewrite (index_negative (Py.codepoints r) (s - 1)) by lia.
      by replace (s - 1 + Z.of_nat (List.length (Py.codepoints r)))
        with (s + Z.of_nat (List.length (Py.codepoints r)) - 1) by lia.
    + rewrite (index_negative l (s - 1)) by lia.
      by replace (s - 1 + Z.of_nat (List.length l))
        with (s + Z.of_nat (List.length l) - 1) by lia.
Qed.

Lemma get_ref_from_sections_bounds_witness :
  ArrayMapNode.get_ref_from_sections five_refs [2] = Ok (PStr "Genesis 2:4-2:19")
  /\ ArrayMapNode.get_ref_from_sections five_refs [99] = Raise IndexError
  /\ ArrayMapNode.get_ref_from_sections nested_refs [0; 99] = Raise IndexError
  /\ ArrayMapNode.get_ref_from_sections nested_refs [0; -3] = Raise IndexError
  /\ ArrayMapNode.get_ref_from_sections nested_refs [0; -2] = Ok (PStr "Genesis 2:1")
  /\ ArrayMapNode.get_ref_from_sections nested_refs [0; -2]
     = ArrayMapNode.get_ref_from_sections nested_refs [0; 1].
Proof.
  destruct (get_ref_from_sections_bounds five_refs) as (_ & Hin & Hout & _).
  destruct (get_ref_from_sections_bounds nested_refs) as (_ & _ & Hout2 & Hloc & Hwrap).
  split; [| split; [| split; [| split; [| split]]]].
  - apply Hin; [discriminate | reflexivity].
  - apply (Hout [] [] 99 5 _ eq_refl eq_refl). lia.
  - apply (Hout2 [0] [] 99 3 _ eq_refl eq_refl). lia.
  - apply (Hout2 [0] [] (-3) 3 _ eq_refl eq_refl). lia.
  - apply Hloc; [discriminate | reflexivity].
  - apply (Hwrap [0] [] (-2) 3 _ eq_refl eq_refl). lia.
Defined.

(** Coordinate 0 lies outside the 1-based range 1..5 of the five
    references, and the lookup returns the last of them. *)
Lemma get_ref_from_sections_zero_wraps :
  ~ (1 <= 0 <= 5)
  /\ ArrayMapNode.get_ref_from_sections five_refs [0] = Ok (PStr "Genesis 4:19-6:8").
Proof. split; [lia | reflexivity]. Qed.

(** ** Assembly of the address pattern *)

Lemma address_regex_level0_stop (self : NumberedTitledTreeNode.t) (lang : string)
    (kw : kwargs) (a0 : AddressType.t) (r0 : option string) :
  Py.index (NumberedTitledTreeNode._addressTypes self) 0 = Ok a0 ->
  Address.regex a0 lang (NumberedTitledTreeNode.group_name kw 0) kw = Ok r0 ->
  Address.stop_parsing a0 lang = true ->
  NumberedTitledTreeNode.address_regex self lang kw = Ok r0.
Proof.
  intros Hi Hr Hs. unfold NumberedTitledTreeNode.address_regex.
  rewrite Hi. simpl. rewrite Hr. simpl. by rewrite Hs.
Qed.

(** C3, where the code departs from it: [address_regex] asks level 0 alone
    whether to stop.  When level 0 stops (Talmud in Hebrew) the pattern is
    the level-0 fragment and nothing else; but on a node whose level 1 is
    Talmud, which stops parsing in Hebrew, the Hebrew pattern still ends
    with the optional group of level 2 and holds its capture group [a2]. *)
Theorem address_regex_asks_level0_only :
  (forall (self : NumberedTitledTreeNode.t) (a0 : AddressType.t) (kw : kwargs),
      Py.index (NumberedTitledTreeNode._addressTypes self) 0 = Ok a0 ->
      AddressType.cls a0 = AddressType.Talmud ->
      exists r0 : string,
        Address.regex a0 "he" (NumberedTitledTreeNode.group_name kw 0) kw = Ok (Some r0)
        /\ NumberedTitledTreeNode.address_regex self "he" kw = Ok (Some r0))
  /\ NumberedTitledTreeNode.init 3 ["Integer"; "Talmud"; "Integer"]%string
       ["Chapter"; "Daf"; "Line"]%string None = Ok talmud_in_the_middle
  /\ (exists (a1 a2 : AddressType.t) (r0 r1 r2 : string),
        Py.index (NumberedTitledTreeNode._addressTypes talmud_in_the_middle) 1 = Ok a1
        /\ Address.stop_parsing a1 "he" = true
        /\ Address.regex a1 "he" (Some "a1"%string) no_kwargs = Ok (Some r1)
        /\ Py.index (NumberedTitledTreeNode._addressTypes talmud_in_the_middle) 2 = Ok a2
        /\ Address.regex a2 "he" (Some "a2"%string) no_kwargs = Ok (Some r2)
        /\ NumberedTitledTreeNode.address_regex talmud_in_the_middle "he" no_kwargs
           = Ok (Some
                   (((r0 +:+ ((("(" +:+ TitledTreeNode.after_title_delimiter_re) +:+ r1)
                                +:+ ")")
                        +:+ "?")
                       +:+ ((("(" +:+ TitledTreeNode.after_title_delimiter_re) +:+ r2)
                              +:+ ")"))
                      +:+ "?"))
        /\ contains "(?P<a2>" r2 = true).
Proof.
  split; [| split].
  - intros self a0 kw Hi Hc.
    assert (Hr : exists r0 : string,
               Address.regex a0 "he" (NumberedTitledTreeNode.group_name kw 0) kw
               = Ok (Some r0)).
    { unfold Address.regex, Address.section_patterns, Address._core_regex.
      rewrite Hc. simpl. destruct (strict kw); eauto. }
    destruct Hr as [r0 Hr]. exists r0. split; [exact Hr |].
    apply (address_regex_level0_stop self "he" kw a0 (Some r0) Hi Hr).
    unfold Address.stop_parsing. by rewrite Hc.
  - reflexivity.
  - eexists (AddressType.init_ AddressType.Talmud 1 None),
            (AddressType.init_ AddressType.Integer 2 None),
           (AddressInteger._core_regex "he" (Some "a0"%string)),
           _,
           (AddressInteger._core_regex "he" (Some "a2"%string)).
    repeat split; vm_compute; reflexivity.
Qed.

Lemma address_regex_asks_level0_only_witness :
  exists r0 : string,
    NumberedTitledTreeNode.address_regex
      (NumberedTitledTreeNode.mk 2 ["Talmud"; "Integer"]%string ["Daf"; "Line"]%string None
         [AddressType.init_ AddressType.Talmud 0 None;
          AddressType.init_ AddressType.Integer 1 None]) "he" no_kwargs = Ok (Some r0)
    /\ contains "(?P<a1>" r0 = false.
Proof.
  destruct address_regex_asks_level0_only as (Hstop & _).
  destruct (Hstop
              (NumberedTitledTreeNode.mk 2 ["Talmud"; "Integer"]%string
                 ["Daf"; "Line"]%string None
                 [AddressType.init_ AddressType.Talmud 0 None;
                  AddressType.init_ AddressType.Integer 1 None])
              (AddressType.init_ AddressType.Talmud 0 None) no_kwargs
              eq_refl eq_refl) as (r0 & Hr & Ha).
  exists r0. split; [exact Ha |].
  vm_compute in Hr. injection Hr as <-. vm_compute. reflexivity.
Defined.

(** ** The full citation pattern *)

Lemma init_integer_depth2 (names : list string) (lens : option (list Z))
    (n : NumberedTitledTreeNode.t) :
  NumberedTitledTreeNode.init 2 ["Integer"; "Integer"]%string names lens = Ok n ->
  NumberedTitledTreeNode.full_regex n "Genesis" "en" true no_kwargs
  = NumberedTitledTreeNode.full_regex chapter_verse "Genesis" "en" true no_kwargs.
Proof.
  intros Hn. destruct lens as [[| l ls] |]; vm_compute in Hn;
    injection Hn as <-; vm_compute; reflexivity.
Qed.

(** C4, as the code has it: for a node of depth 2 with Integer addresses,
    the pattern compiled by [full_regex("Genesis", "en")] matches
    "Genesis 1:1" and the bracketed "Genesis (1:1)" with the groups [a0]
    and [a1] holding 1 and 1, and does not match "Genesis1:1".  On
    "Genesis 1:1x" it does not match the citation 1:1, and it does match
    the shorter "Genesis 1" with [a0] holding 1 and [a1] unset: the colon
    after it is a non-word character, which the lookahead accepts.  A
    number directly followed by a letter, "Genesis 1x", is not matched. *)
Theorem full_regex_genesis `{HebrewNumerals} (names : list string)
    (lens : option (list Z)) (n : NumberedTitledTreeNode.t) :
  NumberedTitledTreeNode.init 2 ["Integer"; "Integer"]%string names lens = Ok n ->
  exists p : Regex.re,
    NumberedTitledTreeNode.full_regex n "Genesis" "en" true no_kwargs
    = Ok (NumberedTitledTreeNode.Compiled p)
    /\ matches p "Genesis 1:1" "Genesis 1:1" (Some "1"%string) (Some "1"%string)
    /\ matches p "Genesis (1:1)" "Genesis (1:1)" (Some "1"%string) (Some "1"%string)
    /\ AddressInteger.toNumber "en" "1" = Ok (PInt 1)
    /\ Regex.match_ p "Genesis1:1" = None
    /\ matches p "Genesis 1:1x" "Genesis 1" (Some "1"%string) None
    /\ Regex.match_ p "Genesis 1x" = None.
Proof.
  intros Hn. rewrite (init_integer_depth2 names lens n Hn).
  eexists. split; [vm_compute; reflexivity |].
  assert (Hm : forall (p : Regex.re) (subject whole : string) (a0 a1 : option string)
                      (m : Regex.match_object),
             Regex.match_ p subject = Some m ->
             Regex.group0 subject m = whole ->
             Regex.group subject m "a0" = a0 ->
             Regex.group subject m "a1" = a1 ->
             matches p subject whole a0 a1).
  { intros p subject whole a0 a1 m H1 H2 H3 H4. exists m. auto. }
  split; [eapply Hm; vm_compute; reflexivity |].
  split; [eapply Hm; vm_compute; reflexivity |].
  split; [vm_compute; reflexivity |].
  split; [vm_compute; reflexivity |].
  split; [eapply Hm; vm_compute; reflexivity |].
  vm_compute; reflexivity.
Qed.

Lemma full_regex_genesis_witness :
  exists p : Regex.re,
    NumberedTitledTreeNode.full_regex chapter_verse "Genesis" "en" true no_kwargs
    = Ok (NumberedTitledTreeNode.Compiled p)
    /\ matches p "Genesis 1:1" "Genesis 1:1" (Some "1"%string) (Some "1"%string)
    /\ Regex.match_ p "Genesis1:1" = None.
Proof.
  destruct (@full_regex_genesis
              {| encode_hebrew_numeral := fun _ => ""%string;
                 decode_hebrew_numeral := fun _ => 0 |}
              ["Chapter"; "Verse"]%string None chapter_verse eq_refl)
    as (p & Hp & H1 & _ & _ & H3 & _).
  exists p. split; [exact Hp |]. split; [exact H1 | exact H3].
Defined.

(** The compiled pattern does match at the start of "Genesis 1:1x". *)
Lemma full_regex_genesis_matches_before_x :
  NumberedTitledTreeNode.init 2 ["Integer"; "Integer"]%string
    ["Chapter"; "Verse"]%string None = Ok chapter_verse
  /\ exists (p : Regex.re) (m : Regex.match_object),
       NumberedTitledTreeNode.full_regex chapter_verse "Genesis" "en" true no_kwargs
       = Ok (NumberedTitledTreeNode.Compiled p)
       /\ Regex.match_ p "Genesis 1:1x" = Some m.
Proof.
  split; [reflexivity |].
  eexists _, _. split; [vm_compute; reflexivity |]. vm_compute; reflexivity.
Qed.

(** ** Title groups *)

Arguments TitleGroup.primary_title : simpl never.

Lemma primary_title_spec (g : TitleGroup.t) (lang : string) :
  TitleGroup.titles (snd (TitleGroup.primary_title g lang)) = TitleGroup.titles g
  /\ TitleGroup._primary_title (snd (TitleGroup.primary_title g lang)) !! lang
     = Some (fst (TitleGroup.primary_title g lang)).
Proof.
  unfold TitleGroup.primary_title. simpl. split; [reflexivity |].
  destruct (TitleGroup._primary_title g !! lang) as [c |] eqn:Hc.
  - rewrite Hc. destruct (String.eqb c "") eqn:He.
    + by rewrite lookup_insert_eq.
    + by rewrite Hc.
  - destruct (List.find _ (TitleGroup.titles g)) as [t |].
    + rewrite lookup_insert_eq.
      destruct (String.eqb (Title.text t) "") eqn:He; by rewrite lookup_insert_eq.
    + rewrite Hc. by rewrite lookup_insert_eq.
Qed.

Lemma primary_title_cached (g : TitleGroup.t) (lang c : string) :
  TitleGroup._primary_title g !! lang = Some c ->
  fst (TitleGroup.primary_title g lang) = c.
Proof.
  intros Hc. unfold TitleGroup.primary_title. simpl. rewrite Hc. rewrite Hc.
  destruct (String.eqb c "") eqn:He.
  - rewrite lookup_insert_eq. symmetry. by apply String.eqb_eq.
  - by rewrite Hc.
Qed.

Lemma primary_title_scans (g : TitleGroup.t) (lang : string) (p : Title.t) :
  TitleGroup._primary_title g !! lang = None ->
  List.find (is_primary_in lang) (TitleGroup.titles g) = Some p ->
  fst (TitleGroup.primary_title g lang) = Title.text p.
Proof.
  intros Hc Hp. unfold TitleGroup.primary_title. simpl. rewrite Hc.
  change (fun t : Title.t => String.eqb (Title.lang t) lang && Title.primary t)
    with (is_primary_in lang).
  rewrite Hp. rewrite lookup_insert_eq.
  destruct (String.eqb (Title.text p) "") eqn:He.
  - rewrite lookup_insert_eq. symmetry. by apply String.eqb_eq.
  - by rewrite lookup_insert_eq.
Qed.

Lemma existsb_filter_nil {A : Type} (f : A -> bool) (l : list A) :
  List.existsb f l = false <-> List.filter f l = [].
Proof.
  induction l as [| x l IH]; simpl; [done |].
  destruct (f x); simpl; [split; discriminate | exact IH].
Qed.

Lemma filter_filter_length {A : Type} (f g : A -> bool) (l : list A) :
  (List.length (List.filter f (List.filter g l)) <= List.length (List.filter f l))%nat.
Proof.
  induction l as [| x l IH]; simpl; [lia |].
  destruct (g x), (f x) eqn:Hf; simpl; rewrite ?Hf; simpl; lia.
Qed.

Lemma filter_disjoint_nil {A : Type} (f g : A -> bool) (l : list A) :
  (forall x, g x = true -> f x = false) ->
  List.filter f (List.filter g l) = [].
Proof.
  intros Hfg. induction l as [| x l IH]; simpl; [done |].
  destruct (g x) eqn:Hg; [| exact IH].
  simpl. by rewrite (Hfg x Hg).
Qed.

(** The titles and the primaries after one call, case by case. *)
Lemma add_title_step_preserves (g : TitleGroup.t) (text lang : string)
    (primary replace_primary : bool) (presentation : string) :
  single_primary g ->
  single_primary (snd (TitleGroup.add_title g text lang primary replace_primary presentation)).
Proof.
  intros Hg. unfold TitleGroup.add_title.
  destruct (List.existsb _ (TitleGroup.titles g) && negb replace_primary) eqn:Hearly;
    [exact Hg |].
  set (g1 := if List.existsb _ (TitleGroup.titles g)
             then TitleGroup.remove_title g text lang else g).
  assert (Hg1 : single_primary g1).
  { subst g1. destruct (List.existsb _ (TitleGroup.titles g)); [| exact Hg].
    intros l. unfold primaries, TitleGroup.remove_title. simpl.
    etransitivity; [apply filter_filter_length | apply Hg]. }
  clearbody g1. clear Hearly.
  set (d := {| Title.text := text; Title.lang := lang; Title.primary := primary;
               Title.presentation := _ |}).
  change (fun x : Title.t => String.eqb (Title.lang x) lang && Title.primary x)
    with (is_primary_in lang).
  destruct (List.existsb (is_primary_in lang) (TitleGroup.titles g1)) eqn:Hhas;
    destruct primary eqn:Hprim; simpl andb; cbv iota.
  - destruct replace_primary; simpl negb; cbv iota.
    + destruct (TitleGroup.primary_title g1 lang) as [old g2] eqn:Hpt.
      assert (Ht : TitleGroup.titles g2 = TitleGroup.titles g1).
      { pose proof (primary_title_spec g1 lang) as [Ht _]. by rewrite Hpt in Ht. }
      simpl. intros l. unfold primaries. simpl.
      rewrite !List.filter_app. rewrite !List.length_app. simpl.
      destruct (String.eqb lang l) eqn:Hl.
      * apply String.eqb_eq in Hl. subst l.
        rewrite filter_disjoint_nil.
        { unfold is_primary_in at 1. simpl. rewrite andb_false_r. simpl.
          destruct (is_primary_in lang d); simpl; lia. }
        intros x Hx. unfold is_primary_in.
        destruct (String.eqb (Title.lang x) lang), (Title.primary x); done.
      * assert (Hd : is_primary_in l d = false).
        { unfold is_primary_in. simpl. by rewrite Hl. }
        rewrite Hd. unfold is_primary_in at 2. simpl. rewrite andb_false_r. simpl.
        rewrite Ht. pose proof (Hg1 l) as Hl1. unfold primaries in Hl1.
        pose proof (filter_filter_length (is_primary_in l)
                      (fun t => negb (String.eqb (Title.lang t) lang)
                                || negb (Title.primary t))
                      (TitleGroup.titles g1)).
        lia.
    + destruct (TitleGroup.primary_title g1 "en") as [old g2] eqn:Hpt.
      assert (Ht : TitleGroup.titles g2 = TitleGroup.titles g1).
      { pose proof (primary_title_spec g1 "en") as [Ht _]. by rewrite Hpt in Ht. }
      simpl. intros l. unfold primaries. rewrite Ht. apply Hg1.
  - simpl. intros l. unfold primaries. simpl.
    rewrite List.filter_app, List.length_app. simpl.
    assert (Hd : is_primary_in l d = false).
    { unfold is_primary_in. simpl. apply andb_false_r. }
    rewrite Hd. simpl. pose proof (Hg1 l) as Hl1. unfold primaries in Hl1. lia.
  - simpl. intros l. unfold primaries. simpl.
    rewrite List.filter_app, List.length_app. simpl.
    destruct (is_primary_in l d) eqn:Hd.
    + unfold is_primary_in in Hd. simpl in Hd.
      apply andb_true_iff in Hd as [Hl _]. apply String.eqb_eq in Hl. subst l.
      apply existsb_filter_nil in Hhas. rewrite Hhas. simpl. lia.
    + simpl. pose proof (Hg1 l) as Hl1. unfold primaries in Hl1. lia.
  - simpl. intros l. unfold primaries. simpl.
    rewrite List.filter_app, List.length_app. simpl.
    assert (Hd : is_primary_in l d = false).
    { unfold is_primary_in. simpl. apply andb_false_r. }
    rewrite Hd. simpl. pose proof (Hg1 l) as Hl1. unfold primaries in Hl1. lia.
Qed.

(** A call with [primary] and [replace_primary] always returns, and leaves
    the new title as the one primary title of its language, whatever the
    group held before. *)
Lemma add_title_replacing_primary (g : TitleGroup.t) (text lang presentation : string) :
  exists (g' : TitleGroup.t) (d : Title.t),
    TitleGroup.add_title g text lang true true presentation = (Ok TitleGroup.RSelf, g')
    /\ Title.text d = text
    /\ primaries g' lang = [d].
Proof.
  unfold TitleGroup.add_title. rewrite andb_false_r.
  set (g1 := if List.existsb _ (TitleGroup.titles g)
             then TitleGroup.remove_title g text lang else g).
  clearbody g1.
  change (fun x : Title.t => String.eqb (Title.lang x) lang && Title.primary x)
    with (is_primary_in lang).
  destruct (List.existsb (is_primary_in lang) (TitleGroup.titles g1)) eqn:Hhas;
    cbn [andb negb].
  - destruct (TitleGroup.primary_title g1 lang) as [old g2].
    eexists _,
      (Title.mk text lang true
         (if String.eqb presentation "alone" || String.eqb presentation "both"
          then Some presentation else None)).
    split; [reflexivity |]. split; [reflexivity |].
    unfold primaries. simpl. rewrite !List.filter_app.
    rewrite filter_disjoint_nil.
    + simpl. unfold is_primary_in at 1. simpl. rewrite andb_false_r.
      unfold is_primary_in. simpl. by rewrite String.eqb_refl.
    + intros x Hx. unfold is_primary_in.
      destruct (String.eqb (Title.lang x) lang), (Title.primary x); done.
  - eexists _,
      (Title.mk text lang true
         (if String.eqb presentation "alone" || String.eqb presentation "both"
          then Some presentation else None)).
    split; [reflexivity |]. split; [reflexivity |].
    unfold primaries. simpl. rewrite List.filter_app.
    apply existsb_filter_nil in Hhas. rewrite Hhas. simpl.
    unfold is_primary_in. simpl. by rewrite String.eqb_refl.
Qed.

(** C6: at most one title of a language is primary, whatever calls of
    [add_title] are made: the property holds of the empty group and every
    call keeps it, whether the call returns or raises; a call with
    [primary] and [replace_primary] leaves exactly one primary title in
    its language even on a group that was loaded with several; and adding
    a pair (text, lang) that is already there, without [replace_primary],
    changes nothing. *)
Theorem add_title_single_primary :
  single_primary (TitleGroup.init [])
  /\ (forall (g : TitleGroup.t) (calls : list TitleGroup.call),
        single_primary g -> single_primary (TitleGroup.run g calls))
  /\ (forall (g : TitleGroup.t) (text lang presentation : string),
        exists (g' : TitleGroup.t) (d : Title.t),
          TitleGroup.add_title g text lang true true presentation
          = (Ok TitleGroup.RSelf, g')
          /\ Title.text d = text
          /\ primaries g' lang = [d])
  /\ (forall (g : TitleGroup.t) (text lang : string) (primary : bool)
             (presentation : string),
        present g text lang = true ->
        TitleGroup.add_title g text lang primary false presentation
        = (Ok TitleGroup.RNone, g)).
Proof.
  split; [| split; [| split]].
  - intros l. simpl. lia.
  - intros g calls. revert g.
    induction calls as [| c calls IH]; intros g Hg; [exact Hg |].
    simpl. apply IH. unfold TitleGroup.step. by apply add_title_step_preserves.
  - intros g text lang presentation. apply add_title_replacing_primary.
  - intros g text lang primary presentation Hp.
    unfold TitleGroup.add_title. unfold present in Hp. by rewrite Hp.
Qed.

Lemma add_title_single_primary_witness :
  single_primary
    (TitleGroup.run genesis_group
       [ {| TitleGroup.c_text := "Bereshit"; TitleGroup.c_lang := "en";
            TitleGroup.c_primary := true; TitleGroup.c_replace_primary := true;
            TitleGroup.c_presentation := "combined" |} ])
  /\ TitleGroup.add_title genesis_group "Genesis" "en" false false "combined"
     = (Ok TitleGroup.RNone, genesis_group).
Proof.
  destruct add_title_single_primary as (_ & Hrun & _ & Hnoop).
  split.
  - apply Hrun. intros l. unfold primaries, genesis_group. simpl.
    destruct (is_primary_in l _); simpl; lia.
  - apply Hnoop. reflexivity.
Defined.

Lemma find_filter_keeps {A : Type} (f g : A -> bool) (l : list A) (p : A) :
  List.find f l = Some p -> g p = true -> List.find f (List.filter g l) = Some p.
Proof.
  intros Hf Hg. induction l as [| x l IH]; [discriminate |].
  simpl in Hf. destruct (f x) eqn:Hfx.
  - injection Hf as ->. simpl. rewrite Hg. simpl. by rewrite Hfx.
  - simpl. destruct (g x); [| by apply IH].
    simpl. rewrite Hfx. by apply IH.
Qed.

Lemma find_existsb {A : Type} (f : A -> bool) (l : list A) (p : A) :
  List.find f l = Some p -> List.existsb f l = true.
Proof.
  intros Hf. apply List.existsb_exists. exists p.
  apply List.find_some in Hf. exact Hf.
Qed.

(** C5, as the code has it.  Let a group hold a primary title for [lang].
    A call of [add_title] with [primary] and without [replace_primary],
    for a pair (text, lang) that is not yet among the titles, raises
    IndexSchemaError and leaves the titles as they are.  A call with
    [primary] and [replace_primary], for a text other than that of the
    primary title and with the cache of the language unset or in step with
    the titles, returns; afterwards the text of the old primary title is
    in the list as a plain record, not primary, and the only primary
    title of the language is the new one. *)
Theorem add_title_second_primary :
  (forall (g : TitleGroup.t) (text lang presentation : string) (p : Title.t),
      List.find (is_primary_in lang) (TitleGroup.titles g) = Some p ->
      present g text lang = false ->
      exists g' : TitleGroup.t,
        TitleGroup.add_title g text lang true false presentation
        = (Raise IndexSchemaError, g')
        /\ TitleGroup.titles g' = TitleGroup.titles g)
  /\ (forall (g : TitleGroup.t) (text lang presentation : string) (p : Title.t),
        List.find (is_primary_in lang) (TitleGroup.titles g) = Some p ->
        cache_fresh g lang p ->
        text <> Title.text p ->
        exists (g' : TitleGroup.t) (d : Title.t),
          TitleGroup.add_title g text lang true true presentation
          = (Ok TitleGroup.RSelf, g')
          /\ In (Title.plain (Title.text p) lang) (TitleGroup.titles g')
          /\ Title.text d = text
          /\ primaries g' lang = [d]).
Proof.
  split.
  - intros g text lang presentation p Hp Hnew.
    unfold TitleGroup.add_title. unfold present in Hnew. rewrite Hnew.
    cbn [andb negb].
    change (fun x : Title.t => String.eqb (Title.lang x) lang && Title.primary x)
      with (is_primary_in lang).
    rewrite (find_existsb _ _ _ Hp). cbn [andb negb].
    destruct (TitleGroup.primary_title g "en") as [old g'] eqn:Hpt.
    exists g'. split; [reflexivity |].
    pose proof (primary_title_spec g "en") as [Ht _]. by rewrite Hpt in Ht.
  - intros g text lang presentation p Hp Hfresh Hne.
    unfold TitleGroup.add_title. rewrite andb_false_r.
    set (g1 := if List.existsb _ (TitleGroup.titles g)
               then TitleGroup.remove_title g text lang else g).
    assert (Hp1 : List.find (is_primary_in lang) (TitleGroup.titles g1) = Some p).
    { subst g1. destruct (List.existsb _ (TitleGroup.titles g)); [| exact Hp].
      unfold TitleGroup.remove_title. simpl. apply find_filter_keeps; [exact Hp |].
      apply negb_true_iff, andb_false_iff. right.
      apply String.eqb_neq. congruence. }
    assert (Hc1 : TitleGroup._primary_title g1 = TitleGroup._primary_title g).
    { subst g1. by destruct (List.existsb _ (TitleGroup.titles g)). }
    clearbody g1.
    change (fun x : Title.t => String.eqb (Title.lang x) lang && Title.primary x)
      with (is_primary_in lang).
    rewrite (find_existsb _ _ _ Hp1). cbn [andb negb].
    assert (Hold : fst (TitleGroup.primary_title g1 lang) = Title.text p).
    { destruct Hfresh as [Hnone | Hsome].
      - apply primary_title_scans; [by rewrite Hc1 | exact Hp1].
      - apply primary_title_cached. by rewrite Hc1. }
    pose proof (primary_title_spec g1 lang) as [Ht _].
    destruct (TitleGroup.primary_title g1 lang) as [old g2] eqn:Hpt.
    simpl in Hold, Ht. subst old.
    eexists _,
      (Title.mk text lang true
         (if String.eqb presentation "alone" || String.eqb presentation "both"
          then Some presentation else None)).
    split; [reflexivity |]. simpl. split; [| split].
    + apply List.in_or_app. left. apply List.in_or_app. right. by left.
    + reflexivity.
    + unfold primaries. simpl. rewrite !List.filter_app.
      rewrite filter_disjoint_nil.
      * simpl. unfold is_primary_in at 1. simpl. rewrite andb_false_r.
        unfold is_primary_in. simpl. by rewrite String.eqb_refl.
      * intros x Hx. unfold is_primary_in.
        destruct (String.eqb (Title.lang x) lang), (Title.primary x); done.
Qed.

Lemma add_title_second_primary_witness :
  (exists g' : TitleGroup.t,
      TitleGroup.add_title genesis_group "Bereshit" "en" true false "combined"
      = (Raise IndexSchemaError, g')
      /\ TitleGroup.titles g' = TitleGroup.titles genesis_group)
  /\ (exists (g' : TitleGroup.t) (d : Title.t),
        TitleGroup.add_title genesis_group "Bereshit" "en" true true "combined"
        = (Ok TitleGroup.RSelf, g')
        /\ In (Title.plain "Genesis" "en") (TitleGroup.titles g')
        /\ Title.text d = "Bereshit"%string
        /\ primaries g' "en" = [d]).
Proof.
  destruct add_title_second_primary as (Hraise & Hreplace).
  split.
  - apply (Hraise genesis_group "Bereshit" "en" "combined"
             (Title.mk "Genesis" "en" true None)); reflexivity.
  - apply (Hreplace genesis_group "Bereshit" "en" "combined"
             (Title.mk "Genesis" "en" true None)).
    + reflexivity.
    + left. reflexivity.
    + discriminate.
Defined.

(** A group that holds a primary English title: adding that same title
    again with [primary] and without [replace_primary] returns [None], it
    does not raise. *)
Lemma add_title_same_primary_returns :
  List.find (is_primary_in "en") (TitleGroup.titles genesis_group)
  = Some (Title.mk "Genesis" "en" true None)
  /\ TitleGroup.add_title genesis_group "Genesis" "en" true false "combined"
     = (Ok TitleGroup.RNone, genesis_group).
Proof. split; reflexivity. Qed.

(** C7, where the code departs from it: [add_title] resets the cached
    primary title only on the path that replaces a primary title.  When
    [primary_title(lang)] has answered the empty text for a group with no
    primary title in [lang], a following [add_title(text, lang,
    primary=True)] returns and the next [primary_title(lang)] still
    answers the empty text; so for the empty group and "Genesis". *)
Theorem add_title_keeps_cached_primary :
  (forall (g : TitleGroup.t) (text lang presentation : string),
      primaries g lang = [] ->
      fst (TitleGroup.primary_title g lang) = ""%string ->
      exists (r : TitleGroup.returned) (g2 : TitleGroup.t),
        TitleGroup.add_title (snd (TitleGroup.primary_title g lang))
          text lang true false presentation = (Ok r, g2)
        /\ fst (TitleGroup.primary_title g2 lang) = ""%string)
  /\ (let g1 := snd (TitleGroup.primary_title (TitleGroup.init []) "en") in
      let g2 := snd (TitleGroup.add_title g1 "Genesis" "en" true false "combined") in
      fst (TitleGroup.primary_title (TitleGroup.init []) "en") = ""%string
      /\ fst (TitleGroup.add_title g1 "Genesis" "en" true false "combined")
         = Ok TitleGroup.RSelf
      /\ TitleGroup.titles g2 = [Title.mk "Genesis" "en" true None]
      /\ fst (TitleGroup.primary_title g2 "en") = ""%string).
Proof.
  split.
  - intros g text lang presentation Hnone Hempty.
    pose proof (primary_title_spec g lang) as [Ht Hc].
    rewrite Hempty in Hc.
    set (g1 := snd (TitleGroup.primary_title g lang)) in *. clearbody g1.
    unfold TitleGroup.add_title.
    destruct (List.existsb _ (TitleGroup.titles g1)) eqn:Hthere; simpl.
    + eexists _, _. split; [reflexivity |]. by apply primary_title_cached.
    + change (fun x : Title.t => String.eqb (Title.lang x) lang && Title.primary x)
        with (is_primary_in lang).
      assert (Hhas : List.existsb (is_primary_in lang) (TitleGroup.titles g1) = false).
      { apply existsb_filter_nil. rewrite Ht. exact Hnone. }
      rewrite Hhas. simpl.
      eexists _, _. split; [reflexivity |]. by apply primary_title_cached.
  - vm_compute. repeat split.
Qed.

Lemma add_title_keeps_cached_primary_witness :
  exists (r : TitleGroup.returned) (g2 : TitleGroup.t),
    TitleGroup.add_title (snd (TitleGroup.primary_title (TitleGroup.init []) "en"))
      "Genesis" "en" true false "combined" = (Ok r, g2)
    /\ fst (TitleGroup.primary_title g2 "en") = ""%string.
Proof.
  destruct add_title_keeps_cached_primary as (Hgen & _).
  apply (Hgen (TitleGroup.init []) "Genesis" "en" "combined"); reflexivity.
Defined.

(** ** The title dictionary *)

Lemma title_dict_unfold (self : TitledTreeNode.t) (here : TitledTreeNode.node_ref)
    (lang : string) (baselist : list string) :
  TitledTreeNode.title_dict self here lang baselist
  = let titles := TitledTreeNode.node_title_list self lang baselist in
    let '(_, thisnode, title_dict0) :=
      fold_left
        (TitledTreeNode.visit_child
           (fun child there => TitledTreeNode.title_dict child there lang titles) here)
        (TitledTreeNode.children self)
        (O, here, ∅) in
    fold_left (fun d title => <[title := thisnode]> d) titles title_dict0.
Proof. destruct self. reflexivity. Qed.

Lemma fold_insert_other (titles : list string) (v : TitledTreeNode.node_ref)
    (d : gmap string TitledTreeNode.node_ref) (title : string) :
  ~ In title titles ->
  fold_left (fun d title => <[title := v]> d) titles d !! title = d !! title.
Proof.
  revert d. induction titles as [| x xs IH]; intros d Hn; [reflexivity |].
  simpl. rewrite IH by (intros Hin; apply Hn; by right).
  apply lookup_insert_ne. intros ->. apply Hn. by left.
Qed.

Lemma fold_insert_lookup (titles : list string) (v : TitledTreeNode.node_ref)
    (d : gmap string TitledTreeNode.node_ref) (title : string) :
  In title titles ->
  fold_left (fun d title => <[title := v]> d) titles d !! title = Some v.
Proof.
  revert d. induction titles as [| x xs IH]; intros d Hin; [destruct Hin |].
  simpl. destruct (List.in_dec String.string_dec title xs) as [Hxs | Hxs].
  - by apply IH.
  - destruct Hin as [-> | Hin]; [| done].
    rewrite fold_insert_other by exact Hxs. apply lookup_insert_eq.
Qed.

(** Where the loop over the children leaves [thisnode]: untouched when no
    child is default, at a default child otherwise. *)
Lemma loop_thisnode
    (child_dict : TitledTreeNode.t -> TitledTreeNode.node_ref ->
                  gmap string TitledTreeNode.node_ref)
    (here : TitledTreeNode.node_ref) (cs : list TitledTreeNode.t) (k : nat)
    (tn : TitledTreeNode.node_ref) (d : gmap string TitledTreeNode.node_ref) :
  let thisnode := snd (fst (fold_left (TitledTreeNode.visit_child child_dict here) cs
                                      (k, tn, d))) in
  (thisnode = tn /\ Forall (fun c => TitledTreeNode.is_default c = false) cs)
  \/ (exists (j : nat) (c : TitledTreeNode.t),
        cs !! j = Some c /\ TitledTreeNode.is_default c = true
        /\ thisnode = here ++ [(k + j)%nat]).
Proof.
  revert k tn d. induction cs as [| c cs IH]; intros k tn d; simpl.
  - left. split; [reflexivity | constructor].
  - destruct (TitledTreeNode.is_default c) eqn:Hc.
    + destruct (IH (S k) (here ++ [k]) d) as [[Heq Hall] | (j & c' & Hj & Hd & Heq)].
      * right. exists O, c. simpl. rewrite Nat.add_0_r. done.
      * right. exists (S j), c'. simpl. rewrite Nat.add_succ_r. done.
    + destruct (IH (S k) tn (child_dict c (here ++ [k]) ∪ d))
        as [[Heq Hall] | (j & c' & Hj & Hd & Heq)].
      * left. split; [exact Heq | by constructor].
      * right. exists (S j), c'. simpl. rewrite Nat.add_succ_r. done.
Qed.

Lemma loop_same_but_defaults
    (child_dict : TitledTreeNode.t -> TitledTreeNode.node_ref ->
                  gmap string TitledTreeNode.node_ref)
    (here : TitledTreeNode.node_ref) (cs cs' : list TitledTreeNode.t)
    (st : TitledTreeNode.loop_state) :
  same_but_defaults cs cs' ->
  fold_left (TitledTreeNode.visit_child child_dict here) cs st
  = fold_left (TitledTreeNode.visit_child child_dict here) cs' st.
Proof.
  intros Hs. revert st. induction Hs as [| c c' cs cs' Hc _ IH]; intros st;
    [reflexivity |].
  simpl. replace (TitledTreeNode.visit_child child_dict here st c')
    with (TitledTreeNode.visit_child child_dict here st c); [apply IH |].
  destruct Hc as [-> | [Hd Hd']]; [reflexivity |].
  destruct st as [[k tn] d]. unfold TitledTreeNode.visit_child. by rewrite Hd, Hd'.
Qed.

(** The default child the loop leaves [thisnode] at is the last one. *)
Lemma loop_thisnode_last
    (child_dict : TitledTreeNode.t -> TitledTreeNode.node_ref ->
                  gmap string TitledTreeNode.node_ref)
    (here : TitledTreeNode.node_ref) (cs : list TitledTreeNode.t) (k : nat)
    (tn : TitledTreeNode.node_ref) (d : gmap string TitledTreeNode.node_ref) :
  let thisnode := snd (fst (fold_left (TitledTreeNode.visit_child child_dict here) cs
                                      (k, tn, d))) in
  (thisnode = tn /\ Forall (fun c => TitledTreeNode.is_default c = false) cs)
  \/ (exists (j : nat) (c : TitledTreeNode.t),
        cs !! j = Some c /\ TitledTreeNode.is_default c = true
        /\ thisnode = here ++ [(k + j)%nat]
        /\ forall (j' : nat) (c' : TitledTreeNode.t),
             (j < j')%nat -> cs !! j' = Some c' -> TitledTreeNode.is_default c' = false).
Proof.
  revert k tn d. induction cs as [| c cs IH]; intros k tn d; simpl.
  - left. split; [reflexivity | constructor].
  - destruct (TitledTreeNode.is_default c) eqn:Hc.
    + destruct (IH (S k) (here ++ [k]) d)
        as [[Heq Hall] | (j & c' & Hj & Hd & Heq & Hlast)].
      * right. exists O, c. simpl. rewrite Nat.add_0_r.
        split; [reflexivity |]. split; [exact Hc |]. split; [exact Heq |].
        intros j' c' Hlt Hj'. destruct j' as [| j']; [lia |]. simpl in Hj'.
        rewrite Forall_forall in Hall. apply Hall.
        by apply list_elem_of_lookup_2 in Hj'.
      * right. exists (S j), c'. simpl. rewrite Nat.add_succ_r.
        split; [exact Hj |]. split; [exact Hd |]. split; [exact Heq |].
        intros j' c'' Hlt Hj'. destruct j' as [| j']; [lia |]. simpl in Hj'.
        apply (Hlast j' c''); [lia | exact Hj'].
    + destruct (IH (S k) tn (child_dict c (here ++ [k]) ∪ d))
        as [[Heq Hall] | (j & c' & Hj & Hd & Heq & Hlast)].
      * left. split; [exact Heq | by constructor].
      * right. exists (S j), c'. simpl. rewrite Nat.add_succ_r.
        split; [exact Hj |]. split; [exact Hd |]. split; [exact Heq |].
        intros j' c'' Hlt Hj'. destruct j' as [| j']; [lia |]. simpl in Hj'.
        apply (Hlast j' c''); [lia | exact Hj'].
Qed.

(** C2, as the code has it.  For a node with a child marked default,
    [title_dict] maps every title it computes for the node (the combined
    titles and the titles that stand alone) to the last default child of
    the node in the order of the children, not to the node; and it does
    not descend into default children: the dictionary stays the same
    whatever the default children hold, so a default child and what is
    below it add no title and no title segment. *)
Theorem title_dict_default_child :
  (forall (self : TitledTreeNode.t) (here : TitledTreeNode.node_ref)
          (lang : string) (baselist : list string),
      (exists c, In c (TitledTreeNode.children self)
                 /\ TitledTreeNode.is_default c = true) ->
      exists (k : nat) (c : TitledTreeNode.t),
        TitledTreeNode.children self !! k = Some c
        /\ TitledTreeNode.is_default c = true
        /\ (forall (j : nat) (c' : TitledTreeNode.t),
              (k < j)%nat -> TitledTreeNode.children self !! j = Some c' ->
              TitledTreeNode.is_default c' = false)
        /\ forall title : string,
             In title (TitledTreeNode.node_title_list self lang baselist) ->
             TitledTreeNode.title_dict self here lang baselist !! title
             = Some (here ++ [k]))
  /\ (forall (g : TitleGroup.t) (default : bool) (cs cs' : list TitledTreeNode.t)
             (here : TitledTreeNode.node_ref) (lang : string) (baselist : list string),
        same_but_defaults cs cs' ->
        TitledTreeNode.title_dict (TitledTreeNode.Node g default cs) here lang baselist
        = TitledTreeNode.title_dict (TitledTreeNode.Node g default cs') here lang baselist).
Proof.
  split.
  - intros self here lang baselist (c0 & Hin & Hd0).
    rewrite title_dict_unfold. cbv zeta.
    set (titles := TitledTreeNode.node_title_list self lang baselist).
    pose proof (loop_thisnode_last
                  (fun child there => TitledTreeNode.title_dict child there lang titles)
                  here (TitledTreeNode.children self) O here ∅) as Hloop.
    cbv zeta in Hloop.
    match type of Hloop with
    | context [fold_left ?f ?l ?st] =>
        destruct (fold_left f l st) as [[k' tn] d] eqn:Hfold
    end.
    simpl in Hloop.
    destruct Hloop as [[_ Hall] | (j & c & Hj & Hd & Heq & Hlast)].
    + rewrite Forall_forall in Hall. rewrite (Hall c0) in Hd0; [discriminate |].
      by apply list_elem_of_In.
    + exists j, c. split; [exact Hj |]. split; [exact Hd |]. split; [exact Hlast |].
      intros title Ht. subst tn. by apply fold_insert_lookup.
  - intros g default cs cs' here lang baselist Hs.
    rewrite !title_dict_unfold. cbv zeta. simpl TitledTreeNode.children.
    change (TitledTreeNode.node_title_list (TitledTreeNode.Node g default cs') lang baselist)
      with (TitledTreeNode.node_title_list (TitledTreeNode.Node g default cs) lang baselist).
    by rewrite (loop_same_but_defaults _ here cs cs' _ Hs).
Qed.

Lemma title_dict_default_child_witness :
  TitledTreeNode.title_dict two_defaults [] "en" [] !! "Genesis"%string = Some [1%nat].
Proof.
  destruct title_dict_default_child as (Hmap & _).
  destruct (Hmap two_defaults [] "en" []) as (k & c & Hk & _ & Hlast & Htitles).
  - exists (TitledTreeNode.Node (TitleGroup.init []) true []).
    split; [by left | reflexivity].
  - assert (Hk1 : k = 1%nat).
    { destruct k as [| [| k]]; [| reflexivity | discriminate].
      discriminate (Hlast 1%nat (TitledTreeNode.Node (TitleGroup.init []) true [])
                      (Nat.lt_0_succ 0) eq_refl). }
    subst k. apply Htitles. by left.
Defined.

(** The title of the parent leads to the default child at position 0, not
    to the parent (the empty path), and nothing below the default child
    is in the dictionary. *)
Lemma title_dict_points_at_default_child :
  TitledTreeNode.node_title_list genesis_tree "en" [] = ["Genesis"%string]
  /\ TitledTreeNode.title_dict genesis_tree [] "en" [] !! "Genesis"%string = Some [O]
  /\ TitledTreeNode.title_dict genesis_tree [] "en" [] !! "Genesis"%string <> Some []
  /\ TitledTreeNode.title_dict genesis_tree [] "en" [] = {[ "Genesis"%string := [O] ]}.
Proof.
  assert (Hd : TitledTreeNode.title_dict genesis_tree [] "en" []
               = {[ "Genesis"%string := [O] ]}) by (vm_compute; reflexivity).
  split; [reflexivity |]. rewrite Hd. rewrite lookup_singleton_eq.
  repeat split; done.
Qed.

(** ** Text and decimal numerals *)

Lemma code_byte_of (n : Z) : 0 <= n < 256 -> Py.code (Py.byte_of n) = n.
Proof.
  intros Hn. unfold Py.code, Py.byte_of.
  rewrite nat_ascii_embedding by lia. lia.
Qed.

Lemma chars_text (l : list ascii) : Py.chars (Py.text l) = l.
Proof. apply list_ascii_of_string_of_list_ascii. Qed.

Lemma text_chars (s : string) : Py.text (Py.chars s) = s.
Proof. apply string_of_list_ascii_of_string. Qed.

Lemma chars_append (a b : string) : Py.chars (a +:+ b) = Py.chars a ++ Py.chars b.
Proof.
  unfold Py.chars. induction a as [| c a IH]; [reflexivity |].
  simpl. by rewrite IH.
Qed.

Lemma digit_not_continuation (c : ascii) :
  Py.is_digit c = true -> Py.is_continuation c = false.
Proof.
  unfold Py.is_digit, Py.is_continuation. intros Hd.
  apply andb_true_iff in Hd as [H1 H2].
  apply Z.leb_le in H1. apply Z.leb_le in H2.
  apply andb_false_iff. left. apply Z.leb_gt. lia.
Qed.

Lemma digit_not_space (c : ascii) : Py.is_digit c = true -> Py.is_space c = false.
Proof.
  unfold Py.is_digit, Py.is_space. intros Hd.
  apply andb_true_iff in Hd as [H1 H2].
  apply Z.leb_le in H1. apply Z.leb_le in H2.
  apply orb_false_iff. split.
  - apply Z.eqb_neq. lia.
  - apply andb_false_iff. right. apply Z.leb_gt. lia.
Qed.

Lemma digit_not_sign (c : ascii) :
  Py.is_digit c = true -> Ascii.eqb c "-" = false /\ Ascii.eqb c "+" = false.
Proof.
  unfold Py.is_digit. intros Hd.
  apply andb_true_iff in Hd as [H1 H2]. apply Z.leb_le in H1.
  split; apply Ascii.eqb_neq; intros ->; vm_compute in H1; by apply H1.
Qed.

Lemma codepoints_from_concat (cur l : list ascii) :
  List.concat (Py.codepoints_from cur l) = cur ++ l.
Proof.
  revert cur. induction l as [| c l IH]; intros cur; simpl.
  - destruct cur; simpl; by rewrite ?app_nil_r.
  - destruct (Py.is_continuation c).
    + rewrite IH. by rewrite <- app_assoc.
    + destruct cur as [| x cur]; [apply IH |].
      simpl. rewrite IH. reflexivity.
Qed.

(** A byte that opens a code point, at the end of a text, is the last
    code point of the text. *)
Lemma codepoints_from_snoc (cur l : list ascii) (c : ascii) :
  Py.is_continuation c = false ->
  Py.codepoints_from cur (l ++ [c]) = Py.codepoints_from cur l ++ [[c]].
Proof.
  intros Hc. revert cur. induction l as [| x l IH]; intros cur; simpl.
  - rewrite Hc. by destruct cur.
  - destruct (Py.is_continuation x); [apply IH |].
    destruct cur; [apply IH |]. simpl. by rewrite IH.
Qed.

Lemma index_last {A : Type} (l : list A) (x : A) : Py.index (l ++ [x]) (-1) = Ok x.
Proof.
  unfold Py.index. rewrite List.length_app. simpl List.length.
  replace (if -1 <? 0 then -1 + Z.of_nat (List.length l + 1) else -1)
    with (Z.of_nat (List.length l)) by (simpl; lia).
  destruct (Z.leb_spec 0 (Z.of_nat (List.length l))) as [_ | Hneg]; [| lia].
  destruct (Z.ltb_spec (Z.of_nat (List.length l)) (Z.of_nat (List.length l + 1)))
    as [_ | Hge]; [| lia].
  simpl. rewrite Nat2Z.id. rewrite List.nth_error_app2 by lia.
  by rewrite Nat.sub_diag.
Qed.

Lemma str_index_last (t : string) (c : ascii) :
  Py.is_continuation c = false ->
  Py.str_index (t +:+ String c EmptyString) (-1) = Ok (String c EmptyString).
Proof.
  intros Hc. unfold Py.str_index, Py.codepoints.
  rewrite chars_append. simpl Py.chars at 2.
  rewrite codepoints_from_snoc by exact Hc.
  by rewrite index_last.
Qed.

Lemma drop_last_snoc (t : string) (c : ascii) :
  Py.is_continuation c = false ->
  Py.drop_last (t +:+ String c EmptyString) = t.
Proof.
  intros Hc. unfold Py.drop_last, Py.codepoints.
  rewrite chars_append. simpl Py.chars at 2.
  rewrite codepoints_from_snoc by exact Hc.
  rewrite List.removelast_last. rewrite codepoints_from_concat. simpl.
  apply text_chars.
Qed.

Lemma text_snoc (l : list ascii) (c : ascii) :
  Py.text (l ++ [c]) = Py.text l +:+ String c EmptyString.
Proof.
  unfold Py.text. induction l as [| x l IH]; [reflexivity |].
  simpl. by rewrite IH.
Qed.

Lemma lstrip_head (c : ascii) (l : list ascii) :
  Py.is_space c = false -> Py.lstrip (c :: l) = c :: l.
Proof. intros Hc. simpl. by rewrite Hc. Qed.

Lemma strip_digits (ds : list ascii) :
  Forall (fun c => Py.is_digit c = true) ds -> Py.strip ds = ds.
Proof.
  intros Hd. unfold Py.strip.
  destruct ds as [| c ds]; [reflexivity |].
  rewrite lstrip_head by (apply digit_not_space; by inversion Hd).
  destruct (List.rev (c :: ds)) as [| x r] eqn:Hrev.
  - apply (f_equal (@List.length ascii)) in Hrev.
    rewrite List.length_rev in Hrev. discriminate.
  - rewrite lstrip_head.
    + rewrite <- Hrev. apply List.rev_involutive.
    + apply digit_not_space. rewrite Forall_forall in Hd. apply Hd.
      apply list_elem_of_In, List.in_rev. rewrite Hrev. by left.
Qed.

Lemma int_numeral (ds : list ascii) (n : Z) :
  numeral ds n -> Py.int (Py.text ds) = Ok n.
Proof.
  intros (Hne & Hd & Hv). unfold Py.int.
  rewrite chars_text. rewrite strip_digits by exact Hd.
  destruct ds as [| c ds]; [done |].
  destruct (digit_not_sign c) as [Hm Hp]; [by inversion Hd |].
  rewrite Hm, Hp. by rewrite Hv.
Qed.

Lemma digits_value_snoc (acc : Z) (l : list ascii) (c : ascii) :
  Py.digits_value acc (l ++ [c])
  = match Py.digits_value acc l with
    | Some v => if Py.is_digit c then Some (10 * v + (Py.code c - 48)) else None
    | None => None
    end.
Proof.
  revert acc. induction l as [| x l IH]; intros acc; simpl; [reflexivity |].
  destruct (Py.is_digit x); [apply IH | reflexivity].
Qed.

Lemma digit_char_digit (d : Z) :
  0 <= d < 10 ->
  Py.is_digit (Py.digit_char d) = true /\ Py.code (Py.digit_char d) - 48 = d.
Proof.
  intros Hd. unfold Py.is_digit, Py.digit_char.
  rewrite code_byte_of by lia. split; [| lia].
  apply andb_true_iff. split; apply Z.leb_le; lia.
Qed.

(** The digits written for a natural number read back as that number. *)
Lemma digits_of_numeral (n : Z) : 0 <= n -> numeral (Py.digits_of n) n.
Proof.
  intros Hn. revert Hn.
  induction n as [n IH] using (well_founded_induction (Z.lt_wf 0)).
  intros Hn. rewrite Py.digits_of_equation_1. unfold Py.digits_of_unfold_clause_1.
  destruct (Z_lt_dec n 10) as [Hlt | Hge].
  - destruct (digit_char_digit n) as [Hd Hc]; [lia |].
    split; [discriminate |]. split; [by repeat constructor |].
    simpl. rewrite Hd. f_equal. lia.
  - assert (Hq : 0 <= n / 10 < n).
    { split; [apply Z.div_pos; lia | apply Z.div_lt; lia]. }
    destruct (IH (n / 10)) as (Hne & Hds & Hv); [lia | lia |].
    destruct (digit_char_digit (n mod 10)) as [Hd Hc];
      [apply Z.mod_pos_bound; lia |].
    split; [| split].
    + intros Happ. by apply List.app_eq_nil in Happ as [_ ?].
    + apply Forall_app. split; [exact Hds | by repeat constructor].
    + rewrite digits_value_snoc, Hv, Hd, Hc. f_equal.
      pose proof (Z.div_mod n 10). lia.
Qed.

Lemma str_nonneg (n : Z) : 0 <= n -> Py.str n = Py.text (Py.digits_of n).
Proof.
  intros Hn. unfold Py.str.
  destruct (Z.ltb_spec n 0) as [Hneg | _]; [lia | reflexivity].
Qed.

(** ** Talmud addresses in English *)

Lemma within_length_check (self : AddressType.t) (d : Z) :
  within_length self d ->
  match AddressType.length self with
  | Some l => negb (l =? 0) && (l <? d)
  | None => false
  end = false.
Proof.
  unfold within_length. destruct (AddressType.length self) as [m |]; [| done].
  intros [-> | Hle]; [reflexivity |].
  apply andb_false_iff. right. apply Z.ltb_ge. lia.
Qed.

Lemma exceeds_length_check (self : AddressType.t) (d : Z) :
  exceeds_length self d ->
  match AddressType.length self with
  | Some l => negb (l =? 0) && (l <? d)
  | None => false
  end = true.
Proof.
  intros (m & -> & Hm & Hlt). apply andb_true_iff. split.
  - apply negb_true_iff. by apply Z.eqb_neq.
  - by apply Z.ltb_lt.
Qed.

(** The English branch of [toNumber] once the last character is known. *)
Lemma toNumber_en_with_last `{HebrewNumerals} (self : AddressType.t) (s last : string) :
  Py.str_index s (-1) = Ok last ->
  AddressTalmud.toNumber self "en" s
  = let '(amud, daf_text) :=
      if String.eqb last "a" || String.eqb last "b"
      then (last, Py.drop_last s) else ("a"%string, s) in
    match Py.int daf_text with
    | Ok daf =>
        if match AddressType.length self with
           | Some l => negb (l =? 0) && (l <? daf)
           | None => false
           end
        then Raise InputError
        else Ok (PInt (if String.eqb amud "a" then daf * 2 - 1 else daf * 2))
    | Raise ValueError => Raise InputError
    | Raise e => Raise e
    end.
Proof.
  intros Hlast. unfold AddressTalmud.toNumber. simpl String.eqb. cbv iota.
  rewrite Hlast. simpl.
  destruct (String.eqb last "a" || String.eqb last "b");
    destruct (Py.int _) as [daf | []]; reflexivity.
Qed.

(** A text with the amud letter at its end: the text before the letter is
    the daf, the letter is the amud. *)
Lemma toNumber_en_amud `{HebrewNumerals} (self : AddressType.t) (t : string)
    (amud_b : bool) :
  AddressTalmud.toNumber self "en" (t +:+ (if amud_b then "b" else "a"))
  = match Py.int t with
    | Ok daf =>
        if match AddressType.length self with
           | Some l => negb (l =? 0) && (l <? daf)
           | None => false
           end
        then Raise InputError
        else Ok (PInt (if amud_b then daf * 2 else daf * 2 - 1))
    | Raise ValueError => Raise InputError
    | Raise e => Raise e
    end.
Proof.
  destruct amud_b.
  - rewrite (toNumber_en_with_last self _ "b");
      [| by apply (str_index_last t "b")].
    simpl. rewrite (drop_last_snoc t "b") by reflexivity. reflexivity.
  - rewrite (toNumber_en_with_last self _ "a");
      [| by apply (str_index_last t "a")].
    simpl. rewrite (drop_last_snoc t "a") by reflexivity. reflexivity.
Qed.

(** A numeral alone: its last character is a digit, so the amud is a. *)
Lemma toNumber_en_bare `{HebrewNumerals} (self : AddressType.t) (ds : list ascii)
    (n : Z) :
  numeral ds n ->
  AddressTalmud.toNumber self "en" (Py.text ds)
  = if match AddressType.length self with
       | Some l => negb (l =? 0) && (l <? n)
       | None => false
       end
    then Raise InputError
    else Ok (PInt (n * 2 - 1)).
Proof.
  intros Hnum. pose proof (int_numeral ds n Hnum) as Hint.
  destruct Hnum as (Hne & Hd & _).
  destruct (List.exists_last Hne) as (front & c & ->).
  assert (Hc : Py.is_digit c = true).
  { rewrite Forall_forall in Hd. apply Hd, list_elem_of_In, List.in_or_app.
    right. by left. }
  rewrite (toNumber_en_with_last self _ (String c EmptyString)).
  - assert (Hab : String.eqb (String c EmptyString) "a"
                  || String.eqb (String c EmptyString) "b" = false).
    { apply orb_false_iff. split; apply String.eqb_neq; intros Heq;
        injection Heq as ->; vm_compute in Hc; discriminate. }
    rewrite Hab. by rewrite Hint.
  - rewrite text_snoc. apply str_index_last. by apply digit_not_continuation.
Qed.

(** C1: Talmud addresses in English round-trip.  For every daf [d] from 1
    up to the length of the address (when it has one) and either amud,
    [toNumber] of [toStr] of the index gives the index back; "2a" and
    "2b" read as 3 and 4, and 3 and 4 are written "2a" and "2b"; the
    daf written for an index [i] is the ceiling of [i / 2], followed by
    a for an odd [i] and by b for an even one. *)
Theorem talmud_en_round_trip `{HebrewNumerals} :
  (forall (self : AddressType.t) (d : Z) (amud_b : bool),
      1 <= d ->
      within_length self d ->
      let i := if amud_b then 2 * d else 2 * d - 1 in
      exists s : string,
        AddressTalmud.toStr "en" i = PStr s
        /\ AddressTalmud.toNumber self "en" s = Ok (PInt i))
  /\ (forall self : AddressType.t,
        within_length self 2 ->
        AddressTalmud.toNumber self "en" "2a" = Ok (PInt 3)
        /\ AddressTalmud.toNumber self "en" "2b" = Ok (PInt 4))
  /\ AddressTalmud.toStr "en" 3 = PStr "2a"
  /\ AddressTalmud.toStr "en" 4 = PStr "2b"
  /\ (forall i : Z,
        exists daf : Z,
          2 * daf - 2 < i <= 2 * daf
          /\ AddressTalmud.toStr "en" i
             = PStr (Py.str daf +:+ (if Z.odd i then "a" else "b"))).
Proof.
  split; [| split; [| split; [| split]]].
  - intros self d amud_b Hd Hlen i.
    exists (Py.str d +:+ (if amud_b then "b" else "a")). split.
    + unfold AddressTalmud.toStr. simpl String.eqb. cbv iota. subst i.
      destruct amud_b.
      * replace ((2 * d + 1) / 2) with d by (apply Z.div_unique with 1; lia).
        destruct (Z.ltb_spec (d * 2) (2 * d + 1)) as [_ | Hge]; [reflexivity | lia].
      * replace ((2 * d - 1 + 1) / 2) with d by (apply Z.div_unique with 0; lia).
        destruct (Z.ltb_spec (d * 2) (2 * d - 1 + 1)) as [Hlt | _]; [lia | reflexivity].
    + rewrite toNumber_en_amud. rewrite str_nonneg by lia.
      rewrite (int_numeral _ d) by (apply digits_of_numeral; lia).
      rewrite within_length_check by exact Hlen.
      subst i. destruct amud_b; do 2 f_equal; lia.
  - intros self Hlen.
    assert (Hint : Py.int "2" = Ok 2) by (vm_compute; reflexivity).
    pose proof (toNumber_en_amud self "2" true) as Hb.
    pose proof (toNumber_en_amud self "2" false) as Ha.
    rewrite Hint in Ha, Hb. rewrite (within_length_check self 2 Hlen) in Ha, Hb.
    split; [exact Ha | exact Hb].
  - vm_compute. reflexivity.
  - vm_compute. reflexivity.
  - intros i. exists ((i + 1) / 2).
    pose proof (Z.div_mod (i + 1) 2) as Hdm.
    pose proof (Z.mod_pos_bound (i + 1) 2) as Hb.
    split; [lia |].
    unfold AddressTalmud.toStr. simpl String.eqb. cbv iota.
    rewrite (Zodd_mod i).
    pose proof (Z.div_mod i 2) as Hdi. pose proof (Z.mod_pos_bound i 2) as Hbi.
    destruct (Z.ltb_spec ((i + 1) / 2 * 2) (i + 1)) as [Hlt | Hge];
      destruct (Z.eqb_spec (i mod 2) 1) as [Hodd | Heven]; try reflexivity; lia.
Qed.

Lemma talmud_en_round_trip_witness :
  (exists s : string,
      @AddressTalmud.toStr no_hebrew "en" 3 = PStr s
      /\ @AddressTalmud.toNumber no_hebrew
           (AddressType.init_ AddressType.Talmud 0 (Some 64)) "en" s = Ok (PInt 3))
  /\ @AddressTalmud.toNumber no_hebrew
       (AddressType.init_ AddressType.Talmud 0 (Some 64)) "en" "2b" = Ok (PInt 4).
Proof.
  destruct (@talmud_en_round_trip no_hebrew) as (Hround & Hconcrete & _).
  split.
  - apply (Hround (AddressType.init_ AddressType.Talmud 0 (Some 64)) 2 false).
    + lia.
    + right. lia.
  - apply (Hconcrete (AddressType.init_ AddressType.Talmud 0 (Some 64))).
    right. lia.
Defined.

(** C8, as the code has it.  In English [toNumber] reads a numeral
    followed by a or b as that daf and amud, and a numeral alone as amud
    a.  It raises InputError when the daf exceeds the length the address
    was built with, for a length other than 0, and when [int] rejects the
    text of the daf, for a text that is not empty. *)
Theorem talmud_toNumber_en `{HebrewNumerals} (self : AddressType.t) :
  (forall (ds : list ascii) (n : Z),
      numeral ds n ->
      within_length self n ->
      AddressTalmud.toNumber self "en" (Py.text ds +:+ "a") = Ok (PInt (2 * n - 1))
      /\ AddressTalmud.toNumber self "en" (Py.text ds +:+ "b") = Ok (PInt (2 * n))
      /\ AddressTalmud.toNumber self "en" (Py.text ds) = Ok (PInt (2 * n - 1)))
  /\ (forall (ds : list ascii) (n : Z),
        numeral ds n ->
        exceeds_length self n ->
        AddressTalmud.toNumber self "en" (Py.text ds +:+ "a") = Raise InputError
        /\ AddressTalmud.toNumber self "en" (Py.text ds +:+ "b") = Raise InputError
        /\ AddressTalmud.toNumber self "en" (Py.text ds) = Raise InputError)
  /\ (forall t : string,
        Py.int t = Raise ValueError ->
        AddressTalmud.toNumber self "en" (t +:+ "a") = Raise InputError
        /\ AddressTalmud.toNumber self "en" (t +:+ "b") = Raise InputError)
  /\ (forall s last : string,
        Py.str_index s (-1) = Ok last ->
        last <> "a"%string -> last <> "b"%string ->
        Py.int s = Raise ValueError ->
        AddressTalmud.toNumber self "en" s = Raise InputError).
Proof.
  split; [| split; [| split]].
  - intros ds n Hnum Hlen.
    pose proof (toNumber_en_amud self (Py.text ds) false) as Ha.
    pose proof (toNumber_en_amud self (Py.text ds) true) as Hb.
    pose proof (toNumber_en_bare self ds n Hnum) as Hbare.
    rewrite (int_numeral ds n Hnum) in Ha, Hb.
    rewrite (within_length_check self n Hlen) in Ha, Hb, Hbare.
    rewrite Ha, Hb, Hbare. repeat split; do 2 f_equal; lia.
  - intros ds n Hnum Hlen.
    pose proof (toNumber_en_amud self (Py.text ds) false) as Ha.
    pose proof (toNumber_en_amud self (Py.text ds) true) as Hb.
    pose proof (toNumber_en_bare self ds n Hnum) as Hbare.
    rewrite (int_numeral ds n Hnum) in Ha, Hb.
    rewrite (exceeds_length_check self n Hlen) in Ha, Hb, Hbare.
    by rewrite Ha, Hb, Hbare.
  - intros t Hint.
    pose proof (toNumber_en_amud self t false) as Ha.
    pose proof (toNumber_en_amud self t true) as Hb.
    rewrite Hint in Ha, Hb. by split.
  - intros s last Hlast Ha Hb Hint.
    rewrite (toNumber_en_with_last self s last Hlast).
    apply String.eqb_neq in Ha. apply String.eqb_neq in Hb.
    rewrite Ha, Hb. simpl. by rewrite Hint.
Qed.

Lemma talmud_toNumber_en_witness :
  @AddressTalmud.toNumber no_hebrew
    (AddressType.init_ AddressType.Talmud 0 (Some 64)) "en" "12b" = Ok (PInt 24)
  /\ @AddressTalmud.toNumber no_hebrew
       (AddressType.init_ AddressType.Talmud 0 (Some 64)) "en" "65a" = Raise InputError
  /\ @AddressTalmud.toNumber no_hebrew
       (AddressType.init_ AddressType.Talmud 0 (Some 64)) "en" "xiia" = Raise InputError
  /\ @AddressTalmud.toNumber no_hebrew
       (AddressType.init_ AddressType.Talmud 0 (Some 64)) "en" "12c" = Raise InputError.
Proof.
  destruct (@talmud_toNumber_en no_hebrew
              (AddressType.init_ AddressType.Talmud 0 (Some 64)))
    as (Hread & Hlong & Hamud & Hbare).
  split; [| split; [| split]].
  - destruct (Hread ["1"; "2"]%char 12) as (_ & Hb & _).
    + split; [discriminate |]. split; [by repeat constructor | reflexivity].
    + right. lia.
    + exact Hb.
  - destruct (Hlong ["6"; "5"]%char 65) as (Ha & _).
    + split; [discriminate |]. split; [by repeat constructor | reflexivity].
    + exists 64. split; [reflexivity |]. split; [discriminate | lia].
    + exact Ha.
  - destruct (Hamud "xii"%string) as (Ha & _); [reflexivity | exact Ha].
  - apply (Hbare "12c"%string "c"%string); [reflexivity | discriminate.. | reflexivity].
Defined.

(** A length of 0 is no bound: daf 1 exceeds it and is read all the same.
    The empty text raises IndexError, not InputError. *)
Lemma talmud_toNumber_en_length_zero :
  numeral ["1"%char] 1
  /\ 0 < 1
  /\ @AddressTalmud.toNumber no_hebrew
       (AddressType.init_ AddressType.Talmud 0 (Some 0)) "en" "1a" = Ok (PInt 1)
  /\ @AddressTalmud.toNumber no_hebrew
       (AddressType.init_ AddressType.Talmud 0 (Some 0)) "en" "" = Raise IndexError.
Proof.
  split; [| split; [lia | split; reflexivity]].
  split; [discriminate |]. split; [by repeat constructor | reflexivity].
Qed.

(** * Further properties of the title groups *)

Lemma in_all_titles (g : TitleGroup.t) (t : Title.t) :
  In t (TitleGroup.titles g) ->
  In (Title.text t) (TitleGroup.all_titles g (Some (Title.lang t)))
  /\ In (Title.text t) (TitleGroup.all_titles g None).
Proof.
  intros Hin. unfold TitleGroup.all_titles. split.
  - apply List.in_map. apply List.filter_In. split; [exact Hin |].
    apply String.eqb_refl.
  - by apply List.in_map.
Qed.

(** X1: whenever [add_title] returns, the text is among the titles of the
    language, and so among all titles: it was there already, or it has
    been appended. *)
Theorem add_title_lists_text (g g' : TitleGroup.t) (text lang : string)
    (primary replace_primary : bool) (presentation : string)
    (r : TitleGroup.returned) :
  TitleGroup.add_title g text lang primary replace_primary presentation = (Ok r, g') ->
  In text (TitleGroup.all_titles g' (Some lang))
  /\ In text (TitleGroup.all_titles g' None).
Proof.
  unfold TitleGroup.add_title.
  destruct (List.existsb _ (TitleGroup.titles g)) eqn:Hthere.
  - destruct replace_primary; cbn [andb negb].
    + set (g1 := TitleGroup.remove_title g text lang). clearbody g1.
      destruct (List.existsb _ (TitleGroup.titles g1) && primary).
      * cbn [negb]. destruct (TitleGroup.primary_title g1 lang) as [old g2].
        intros Heq. injection Heq as _ <-.
        set (d := Title.mk text lang primary _).
        apply (in_all_titles _ d). simpl. apply List.in_or_app. right. by left.
      * intros Heq. injection Heq as _ <-.
        set (d := Title.mk text lang primary _).
        apply (in_all_titles _ d). simpl. apply List.in_or_app. right. by left.
    + intros Heq. injection Heq as _ <-.
      apply List.existsb_exists in Hthere as (t & Hin & Ht).
      apply andb_true_iff in Ht as [Ht Hl].
      apply String.eqb_eq in Ht. apply String.eqb_eq in Hl. subst text lang.
      by apply in_all_titles.
  - cbn [andb].
    destruct (List.existsb _ (TitleGroup.titles g) && primary).
    + destruct replace_primary; cbn [negb].
      * destruct (TitleGroup.primary_title g lang) as [old g2].
        intros Heq. injection Heq as _ <-.
        set (d := Title.mk text lang primary _).
        apply (in_all_titles _ d). simpl. apply List.in_or_app. right. by left.
      * destruct (TitleGroup.primary_title g "en") as [old g2]. discriminate.
    + intros Heq. injection Heq as _ <-.
      set (d := Title.mk text lang primary _).
      apply (in_all_titles _ d). simpl. apply List.in_or_app. right. by left.
Qed.

Lemma add_title_lists_text_witness :
  In "Bereshit"%string
     (TitleGroup.all_titles
        (snd (TitleGroup.add_title genesis_group "Bereshit" "en" false false "combined"))
        (Some "en"%string)).
Proof.
  apply (add_title_lists_text genesis_group _ "Bereshit" "en" false false "combined"
           TitleGroup.RSelf).
  reflexivity.
Defined.

Lemma filter_idempotent {A : Type} (f : A -> bool) (l : list A) :
  List.filter f (List.filter f l) = List.filter f l.
Proof.
  induction l as [| x l IH]; [reflexivity |].
  simpl. destruct (f x) eqn:Hf; [| exact IH].
  simpl. by rewrite Hf, IH.
Qed.

Lemma filter_filter_same {A : Type} (f g : A -> bool) (l : list A) :
  (forall x, f x = true -> g x = true) ->
  List.filter f (List.filter g l) = List.filter f l.
Proof.
  intros Hfg. induction l as [| x l IH]; [reflexivity |].
  simpl. destruct (g x) eqn:Hg; simpl.
  - destruct (f x); by rewrite IH.
  - destruct (f x) eqn:Hf; [| exact IH].
    rewrite (Hfg x Hf) in Hg. discriminate.
Qed.

(** X2: [remove_title] takes the text out of the titles of its language,
    leaves the titles of every other language as they are, and removing
    a second time changes nothing. *)
Theorem remove_title_removes (g : TitleGroup.t) (text lang : string) :
  ~ In text (TitleGroup.all_titles (TitleGroup.remove_title g text lang) (Some lang))
  /\ (forall l : string,
        l <> lang ->
        TitleGroup.all_titles (TitleGroup.remove_title g text lang) (Some l)
        = TitleGroup.all_titles g (Some l))
  /\ TitleGroup.remove_title (TitleGroup.remove_title g text lang) text lang
     = TitleGroup.remove_title g text lang.
Proof.
  split; [| split].
  - unfold TitleGroup.all_titles, TitleGroup.remove_title. simpl.
    intros Hin. apply List.in_map_iff in Hin as (t & Ht & Hin).
    apply List.filter_In in Hin as [Hin Hl].
    apply List.filter_In in Hin as [_ Hkeep].
    rewrite Hl in Hkeep. simpl in Hkeep.
    apply negb_true_iff, String.eqb_neq in Hkeep. by apply Hkeep.
  - intros l Hl. unfold TitleGroup.all_titles, TitleGroup.remove_title. simpl.
    f_equal. apply filter_filter_same. intros x Hx.
    apply String.eqb_eq in Hx. rewrite Hx.
    apply negb_true_iff, andb_false_iff. left. by apply String.eqb_neq.
  - unfold TitleGroup.remove_title. simpl. f_equal. apply filter_idempotent.
Qed.

(** X3: [primary_title] is memoized.  On a group with no cached value for
    the language it answers the text of the first title that is primary
    in the language, the empty text when there is none; a second call
    gives the same answer and leaves the group as the first call left
    it. *)
Theorem primary_title_memoized (g : TitleGroup.t) (lang : string) :
  (TitleGroup._primary_title g !! lang = None ->
   fst (TitleGroup.primary_title g lang)
   = match List.find (is_primary_in lang) (TitleGroup.titles g) with
     | Some p => Title.text p
     | None => ""%string
     end)
  /\ TitleGroup.primary_title (snd (TitleGroup.primary_title g lang)) lang
     = TitleGroup.primary_title g lang.
Proof.
  split.
  - intros Hc. destruct (List.find _ _) as [p |] eqn:Hp.
    + by apply primary_title_scans.
    + unfold TitleGroup.primary_title. simpl. rewrite Hc.
      change (fun t : Title.t => String.eqb (Title.lang t) lang && Title.primary t)
        with (is_primary_in lang).
      rewrite Hp. rewrite Hc. by rewrite lookup_insert_eq.
  - pose proof (primary_title_spec g lang) as [Ht Hc].
    destruct (TitleGroup.primary_title g lang) as [p g1] eqn:Hpt.
    simpl in Ht, Hc. simpl.
    assert (Hg1 : g1 = snd (TitleGroup.primary_title g lang)) by by rewrite Hpt.
    unfold TitleGroup.primary_title at 1. rewrite Hc. rewrite Hc.
    destruct (String.eqb p "") eqn:He.
    + apply String.eqb_eq in He. subst p.
      rewrite lookup_insert_eq. f_equal.
      rewrite insert_id by exact Hc. by destruct g1.
    + rewrite Hc. f_equal. by destruct g1.
Qed.

Lemma primary_title_memoized_witness :
  fst (TitleGroup.primary_title genesis_group "en") = "Genesis"%string.
Proof.
  destruct (primary_title_memoized genesis_group "en") as [Hfresh _].
  rewrite Hfresh; reflexivity.
Defined.

(** X4: [remove_title] leaves the cache alone.  Once [primary_title] has
    answered a non-empty text, removing that very title takes it out of
    the list and [primary_title] still answers it. *)
Theorem remove_title_keeps_cached_primary (g : TitleGroup.t) (lang : string) :
  let p := fst (TitleGroup.primary_title g lang) in
  let g2 := TitleGroup.remove_title (snd (TitleGroup.primary_title g lang)) p lang in
  p <> ""%string ->
  ~ In p (TitleGroup.all_titles g2 (Some lang))
  /\ fst (TitleGroup.primary_title g2 lang) = p.
Proof.
  intros p g2 Hp. split.
  - apply remove_title_removes.
  - apply primary_title_cached. subst g2. unfold TitleGroup.remove_title. simpl.
    apply primary_title_spec.
Qed.

Lemma remove_title_keeps_cached_primary_witness :
  fst (TitleGroup.primary_title
         (TitleGroup.remove_title (snd (TitleGroup.primary_title genesis_group "en"))
            "Genesis" "en") "en") = "Genesis"%string.
Proof.
  destruct (remove_title_keeps_cached_primary genesis_group "en") as [_ Hstale].
  - discriminate.
  - exact Hstale.
Defined.

(** X5: whatever its arguments and its outcome, [add_title] leaves the
    titles of every other language as they are, in their order. *)
Theorem add_title_other_languages (g : TitleGroup.t) (text lang : string)
    (primary replace_primary : bool) (presentation : string) (l : string) :
  l <> lang ->
  List.filter (fun t => String.eqb (Title.lang t) l)
    (TitleGroup.titles
       (snd (TitleGroup.add_title g text lang primary replace_primary presentation)))
  = List.filter (fun t => String.eqb (Title.lang t) l) (TitleGroup.titles g).
Proof.
  intros Hl. unfold TitleGroup.add_title.
  destruct (List.existsb _ (TitleGroup.titles g) && negb replace_primary);
    [reflexivity |].
  set (g1 := if List.existsb _ (TitleGroup.titles g)
             then TitleGroup.remove_title g text lang else g).
  assert (Hg1 : List.filter (fun t => String.eqb (Title.lang t) l) (TitleGroup.titles g1)
                = List.filter (fun t => String.eqb (Title.lang t) l) (TitleGroup.titles g)).
  { subst g1. destruct (List.existsb _ (TitleGroup.titles g)); [| reflexivity].
    unfold TitleGroup.remove_title. simpl. apply filter_filter_same.
    intros x Hx. apply String.eqb_eq in Hx. rewrite Hx.
    apply negb_true_iff, andb_false_iff. left. by apply String.eqb_neq. }
  clearbody g1. rewrite <- Hg1.
  assert (Hne : String.eqb lang l = false) by (apply String.eqb_neq; congruence).
  destruct (List.existsb _ (TitleGroup.titles g1) && primary).
  - destruct replace_primary; cbn [negb].
    + pose proof (primary_title_spec g1 lang) as [Ht _].
      destruct (TitleGroup.primary_title g1 lang) as [old g2]. simpl in Ht. simpl.
      rewrite !List.filter_app. simpl. rewrite Hne. simpl. rewrite !app_nil_r.
      rewrite Ht. apply filter_filter_same.
      intros x Hx. apply String.eqb_eq in Hx. rewrite Hx.
      apply orb_true_iff. left. apply negb_true_iff, String.eqb_neq. congruence.
    + pose proof (primary_title_spec g1 "en") as [Ht _].
      destruct (TitleGroup.primary_title g1 "en") as [old g2]. simpl in Ht. simpl.
      by rewrite Ht.
  - simpl. rewrite List.filter_app. simpl. rewrite Hne. by rewrite app_nil_r.
Qed.

Lemma add_title_other_languages_witness :
  List.filter (fun t => String.eqb (Title.lang t) "en")
    (TitleGroup.titles
       (snd (TitleGroup.add_title genesis_group (uni 0x05d0) "he" true true "combined")))
  = [Title.mk "Genesis" "en" true None].
Proof.
  rewrite (add_title_other_languages genesis_group (uni 0x05d0) "he" true true
             "combined" "en"); [reflexivity | discriminate].
Defined.

(** * Further properties of the address types *)

Lemma strip_clean_ends (c : ascii) (l : list ascii) (z : ascii) :
  Py.is_space c = false -> Py.is_space z = false ->
  Py.strip (c :: l ++ [z]) = c :: l ++ [z].
Proof.
  intros Hc Hz. unfold Py.strip. rewrite lstrip_head by exact Hc.
  assert (Hrev : List.rev (c :: l ++ [z]) = z :: List.rev (c :: l)).
  { rewrite app_comm_cons, List.rev_app_distr. reflexivity. }
  rewrite Hrev. rewrite lstrip_head by exact Hz.
  rewrite <- Hrev. apply List.rev_involutive.
Qed.

(** [int] reads back what [str] writes, for every integer. *)
Lemma int_str (n : Z) : Py.int (Py.str n) = Ok n.
Proof.
  destruct (Z.ltb_spec n 0) as [Hneg | Hpos].
  - unfold Py.str. destruct (Z.ltb_spec n 0) as [_ | ?]; [| lia].
    destruct (digits_of_numeral (- n)) as (Hne & Hd & Hv); [lia |].
    unfold Py.int. rewrite chars_text.
    destruct (List.exists_last Hne) as (front & z & Hds).
    rewrite Hds. rewrite strip_clean_ends.
    + change (Ascii.eqb "-" "-") with true. cbv iota.
      rewrite <- Hds. destruct (Py.digits_of (- n)) as [| x xs]; [done |].
      rewrite Hv. f_equal. lia.
    + reflexivity.
    + apply digit_not_space. rewrite Forall_forall in Hd. apply Hd.
      rewrite Hds. apply list_elem_of_In, List.in_or_app. right. by left.
  - rewrite str_nonneg by exact Hpos. apply int_numeral. by apply digits_of_numeral.
Qed.

(** X6: Integer addresses in English round-trip for every integer, the
    negative ones included: [toNumber] reads back the text [toStr]
    writes. *)
Theorem integer_en_round_trip `{HebrewNumerals} (i : Z) :
  exists s : string,
    AddressInteger.toStr "en" i = PStr s
    /\ AddressInteger.toNumber "en" s = Ok (PInt i).
Proof.
  exists (Py.str i). split; [reflexivity |].
  unfold AddressInteger.toNumber. simpl String.eqb. cbv iota.
  by rewrite int_str.
Qed.

(** X7: reading an English Talmud address and writing it back gives its
    canonical text: the daf without leading zeros, followed by the amud
    letter, with an a supplied when the text had none. *)
Theorem talmud_en_canonical `{HebrewNumerals} (self : AddressType.t)
    (ds : list ascii) (n : Z) :
  numeral ds n ->
  within_length self n ->
  (exists i : Z,
      AddressTalmud.toNumber self "en" (Py.text ds) = Ok (PInt i)
      /\ AddressTalmud.toStr "en" i = PStr (Py.str n +:+ "a"))
  /\ (exists i : Z,
        AddressTalmud.toNumber self "en" (Py.text ds +:+ "a") = Ok (PInt i)
        /\ AddressTalmud.toStr "en" i = PStr (Py.str n +:+ "a"))
  /\ (exists i : Z,
        AddressTalmud.toNumber self "en" (Py.text ds +:+ "b") = Ok (PInt i)
        /\ AddressTalmud.toStr "en" i = PStr (Py.str n +:+ "b")).
Proof.
  intros Hnum Hlen.
  pose proof (toNumber_en_amud self (Py.text ds) false) as Ha.
  pose proof (toNumber_en_amud self (Py.text ds) true) as Hb.
  pose proof (toNumber_en_bare self ds n Hnum) as Hbare.
  rewrite (int_numeral ds n Hnum) in Ha, Hb.
  rewrite (within_length_check self n Hlen) in Ha, Hb, Hbare.
  assert (Hwa : AddressTalmud.toStr "en" (n * 2 - 1) = PStr (Py.str n +:+ "a")).
  { unfold AddressTalmud.toStr. simpl String.eqb. cbv iota.
    replace ((n * 2 - 1 + 1) / 2) with n by (apply Z.div_unique with 0; lia).
    destruct (Z.ltb_spec (n * 2) (n * 2 - 1 + 1)) as [Hlt | _]; [lia | reflexivity]. }
  assert (Hwb : AddressTalmud.toStr "en" (n * 2) = PStr (Py.str n +:+ "b")).
  { unfold AddressTalmud.toStr. simpl String.eqb. cbv iota.
    replace ((n * 2 + 1) / 2) with n by (apply Z.div_unique with 1; lia).
    destruct (Z.ltb_spec (n * 2) (n * 2 + 1)) as [_ | Hge]; [reflexivity | lia]. }
  split; [| split].
  - exists (n * 2 - 1). by split.
  - exists (n * 2 - 1). by split.
  - exists (n * 2). by split.
Qed.

Lemma talmud_en_canonical_witness :
  exists i : Z,
    @AddressTalmud.toNumber no_hebrew
      (AddressType.init_ AddressType.Talmud 0 None) "en" "007" = Ok (PInt i)
    /\ @AddressTalmud.toStr no_hebrew "en" i = PStr "7a".
Proof.
  destruct (@talmud_en_canonical no_hebrew
              (AddressType.init_ AddressType.Talmud 0 None)
              ["0"; "0"; "7"]%char 7) as (Hbare & _).
  - split; [discriminate |]. split; [by repeat constructor | reflexivity].
  - exact I.
  - exact Hbare.
Defined.

(** X8: the inputs of [AddressAliyah.toStr], in English and in Hebrew.
    It raises IndexError exactly for the inputs above 7 and below -6; an
    input from -6 to 0 gives the word of the input plus 7. *)
Theorem aliyah_toStr_range (i : Z) :
  ((AddressAliyah.toStr "en" i = Raise IndexError <-> (7 < i \/ i < -6))
   /\ (AddressAliyah.toStr "he" i = Raise IndexError <-> (7 < i \/ i < -6)))
  /\ (-6 <= i <= 0 ->
      AddressAliyah.toStr "en" i = AddressAliyah.toStr "en" (i + 7)
      /\ AddressAliyah.toStr "he" i = AddressAliyah.toStr "he" (i + 7)).
Proof.
  assert (Hrange : forall (table : list string),
             List.length table = 7%nat ->
             (Py.index table (i - 1) = Raise IndexError <-> (7 < i \/ i < -6))).
  { intros table Hlen. split.
    - intros Hraise.
      destruct (Z_lt_dec 7 i) as [? | Hle]; [by left |].
      destruct (Z_lt_dec i (-6)) as [? | Hge]; [by right |].
      exfalso.
      destruct (Z_lt_dec (i - 1) 0) as [Hneg | Hpos].
      + rewrite index_negative in Hraise by (rewrite Hlen; lia).
        destruct (index_in_range table (i - 1 + Z.of_nat (List.length table)))
          as (x & _ & Hx); [rewrite Hlen; lia |].
        rewrite Hx in Hraise. discriminate.
      + destruct (index_in_range table (i - 1)) as (x & _ & Hx); [rewrite Hlen; lia |].
        rewrite Hx in Hraise. discriminate.
    - intros [Hhigh | Hlow].
      + apply index_ge. rewrite Hlen. lia.
      + apply index_below. rewrite Hlen. lia. }
  split; [split |].
  - unfold AddressAliyah.toStr. simpl String.eqb. cbv iota.
    rewrite <- (Hrange AddressAliyah.en_map eq_refl).
    destruct (Py.index AddressAliyah.en_map (i - 1)) as [w | e]; simpl.
    + split; discriminate.
    + split; [intros Heq; by injection Heq as -> | intros Heq; by injection Heq as ->].
  - unfold AddressAliyah.toStr. simpl String.eqb. cbv iota.
    rewrite <- (Hrange AddressAliyah.he_map eq_refl).
    destruct (Py.index AddressAliyah.he_map (i - 1)) as [w | e]; simpl.
    + split; discriminate.
    + split; [intros Heq; by injection Heq as -> | intros Heq; by injection Heq as ->].
  - intros Hi. unfold AddressAliyah.toStr. simpl String.eqb. cbv iota.
    rewrite (index_negative AddressAliyah.en_map (i - 1)) by (simpl; lia).
    rewrite (index_negative AddressAliyah.he_map (i - 1)) by (simpl; lia).
    simpl List.length. replace (i - 1 + Z.of_nat 7) with (i + 7 - 1) by lia.
    by split.
Qed.

Lemma aliyah_toStr_range_witness :
  AddressAliyah.toStr "en" (-6) = AddressAliyah.toStr "en" 1
  /\ AddressAliyah.toStr "en" (-7) = Raise IndexError.
Proof.
  destruct (aliyah_toStr_range (-6)) as (_ & Hwrap).
  destruct (aliyah_toStr_range (-7)) as ((Hen & _) & _).
  split.
  - apply Hwrap. lia.
  - apply Hen. right. lia.
Defined.

(** * Further properties of the array maps *)

(** X9: a first coordinate from [1 - n] to 0, on [n] references, is not an
    error: the lookup answers as for the coordinate plus [n]. *)
Theorem get_ref_from_sections_wraps (self : ArrayMapNode.t) (l : list pyval)
    (s : Z) (rest : list Z) :
  ArrayMapNode.refs self = PList l ->
  1 - Z.of_nat (List.length l) <= s <= 0 ->
  ArrayMapNode.get_ref_from_sections self (s :: rest)
  = ArrayMapNode.get_ref_from_sections self ((s + Z.of_nat (List.length l)) :: rest).
Proof.
  intros Hrefs Hs. unfold ArrayMapNode.get_ref_from_sections.
  simpl List.map. rewrite !reduce_cons. rewrite Hrefs. simpl ArrayMapNode.getitem.
  rewrite (index_negative l (s - 1)) by lia.
  by replace (s + Z.of_nat (List.length l) - 1) with (s - 1 + Z.of_nat (List.length l))
    by lia.
Qed.

Lemma get_ref_from_sections_wraps_witness :
  ArrayMapNode.get_ref_from_sections five_refs [-4]
  = ArrayMapNode.get_ref_from_sections five_refs [1].
Proof.
  apply (get_ref_from_sections_wraps five_refs _ (-4) [] eq_refl). simpl. lia.
Defined.

(** X10: a coordinate past the depth of the references is not an error
    either: once the coordinates have reached a reference, one more
    coordinate within its length picks a character of its text. *)
Theorem get_ref_from_sections_into_text (self : ArrayMapNode.t)
    (sections : list Z) (r : string) (t : Z) :
  sections <> [] ->
  designated (ArrayMapNode.refs self) sections = Some (PStr r) ->
  1 <= t <= Py.len r ->
  exists c : string,
    Py.str_index r (t - 1) = Ok c
    /\ ArrayMapNode.get_ref_from_sections self (sections ++ [t]) = Ok (PStr c).
Proof.
  intros Hne Hd Ht.
  destruct (index_in_range (Py.codepoints r) (t - 1)) as (c & _ & Hc);
    [unfold Py.len in Ht; lia |].
  exists (Py.text c). split.
  - unfold Py.str_index. by rewrite Hc.
  - unfold ArrayMapNode.get_ref_from_sections.
    destruct (sections ++ [t]) as [| x xs] eqn:Happ; [by destruct sections |].
    rewrite <- Happ. rewrite List.map_app. rewrite reduce_app.
    rewrite (reduce_designated _ _ _ Hd). simpl List.map. rewrite reduce_cons.
    simpl. unfold Py.str_index. by rewrite Hc.
Qed.

Lemma get_ref_from_sections_into_text_witness :
  ArrayMapNode.get_ref_from_sections five_refs [2; 1] = Ok (PStr "G").
Proof.
  destruct (get_ref_from_sections_into_text five_refs [2] "Genesis 2:4-2:19" 1)
    as (c & Hc & Hget).
  - discriminate.
  - reflexivity.
  - vm_compute. split; discriminate.
  - vm_compute in Hc. injection Hc as <-. exact Hget.
Defined.

(** * Further properties of the numbered nodes *)

Lemma init_address_classes_from_shape (atypes : list string)
    (lengths : option (list Z)) (i0 : Z) (ats : list AddressType.t) :
  NumberedTitledTreeNode._init_address_classes_from i0 atypes lengths = Ok ats ->
  List.length ats = List.length atypes
  /\ forall (j : nat) (a : AddressType.t),
       ats !! j = Some a ->
       AddressType.order a = i0 + Z.of_nat j
       /\ (exists atype : string,
             atypes !! j = Some atype
             /\ NumberedTitledTreeNode.address_klass atype = Ok (AddressType.cls a))
       /\ AddressType.length a
          = match lengths with
            | Some (l :: _) => if i0 + Z.of_nat j =? 0 then Some l else None
            | _ => None
            end.
Proof.
  revert i0 ats. induction atypes as [| atype rest IH]; intros i0 ats Hinit.
  - simpl in Hinit. injection Hinit as <-. split; [reflexivity |].
    intros j a Hj. destruct j; discriminate.
  - simpl in Hinit.
    destruct (NumberedTitledTreeNode.address_klass atype) as [klass | e] eqn:Hk;
      [| discriminate].
    simpl in Hinit.
    set (first :=
           match lengths with
           | Some (l :: ls) =>
               if i0 =? 0
               then len_i ← Py.index (l :: ls) i0;
                    Ok (AddressType.init_ klass i0 (Some len_i))
               else Ok (AddressType.init_ klass i0 None)
           | _ => Ok (AddressType.init_ klass i0 None)
           end) in Hinit.
    assert (Hfirst : first
                     = Ok (AddressType.init_ klass i0
                             match lengths with
                             | Some (l :: _) => if i0 =? 0 then Some l else None
                             | _ => None
                             end)).
    { subst first. destruct lengths as [[| l ls] |]; try reflexivity.
      destruct (Z.eqb_spec i0 0) as [-> | Hne]; reflexivity. }
    rewrite Hfirst in Hinit. simpl in Hinit.
    destruct (NumberedTitledTreeNode._init_address_classes_from (i0 + 1) rest lengths)
      as [more | e] eqn:Hmore; [| discriminate].
    simpl in Hinit. injection Hinit as <-.
    destruct (IH (i0 + 1) more Hmore) as [Hlen Hrest].
    split; [simpl; by rewrite Hlen |].
    intros j a Hj. destruct j as [| j].
    + simpl in Hj. injection Hj as <-. simpl. rewrite Z.add_0_r.
      split; [reflexivity |]. split; [by exists atype |]. reflexivity.
    + simpl in Hj. destruct (Hrest j a Hj) as (Ho & Ht & Hl).
      replace (i0 + Z.of_nat (S j)) with (i0 + 1 + Z.of_nat j) by lia.
      by repeat split.
Qed.

Lemma init_address_classes_from_unknown (atypes : list string)
    (lengths : option (list Z)) (i0 : Z) :
  (exists atype : string,
      In atype atypes
      /\ NumberedTitledTreeNode.address_klass atype = Raise IndexSchemaError) ->
  NumberedTitledTreeNode._init_address_classes_from i0 atypes lengths
  = Raise IndexSchemaError.
Proof.
  revert i0. induction atypes as [| atype rest IH]; intros i0 (bad & Hin & Hbad).
  - destruct Hin.
  - simpl.
    destruct (NumberedTitledTreeNode.address_klass atype) as [klass | e] eqn:Hk.
    + destruct Hin as [-> | Hin]; [rewrite Hbad in Hk; discriminate |].
      simpl. rewrite (IH (i0 + 1)) by eauto.
      destruct lengths as [[| l ls] |]; try reflexivity.
      destruct (Z.eqb_spec i0 0) as [-> | Hne]; reflexivity.
    + unfold NumberedTitledTreeNode.address_klass in Hk.
      repeat match type of Hk with
             | (if ?b then _ else _) = _ => destruct b; try discriminate
             end.
      by injection Hk as <-.
Qed.

Lemma address_klass_known (atype : string) :
  In atype known_address_types ->
  exists klass : AddressType.klass, NumberedTitledTreeNode.address_klass atype = Ok klass.
Proof.
  unfold known_address_types. simpl.
  intros [<- | [<- | [<- | [<- | [<- | [<- | []]]]]]]; by eexists.
Qed.

Lemma address_klass_unknown (atype : string) :
  ~ In atype known_address_types ->
  NumberedTitledTreeNode.address_klass atype = Raise IndexSchemaError.
Proof.
  unfold known_address_types, NumberedTitledTreeNode.address_klass. simpl. intros Hout.
  repeat match goal with
         | |- context [String.eqb ?a ?b] =>
             destruct (String.eqb_spec a b) as [-> | ?]; [exfalso; apply Hout; tauto |]
         end.
  reflexivity.
Qed.

Lemma init_address_classes_from_known (atypes : list string)
    (lengths : option (list Z)) (i0 : Z) :
  Forall (fun atype => In atype known_address_types) atypes ->
  exists ats : list AddressType.t,
    NumberedTitledTreeNode._init_address_classes_from i0 atypes lengths = Ok ats.
Proof.
  revert i0. induction atypes as [| atype rest IH]; intros i0 Hall; [by eexists |].
  inversion Hall as [| ? ? Hknown Hrest]; subst.
  destruct (address_klass_known atype Hknown) as (klass & Hk).
  destruct (IH (i0 + 1) Hrest) as (more & Hmore).
  simpl. rewrite Hk. simpl.
  destruct lengths as [[| l ls] |]; simpl; try (rewrite Hmore; by eexists).
  destruct (Z.eqb_spec i0 0) as [-> | Hne]; simpl; rewrite Hmore; by eexists.
Qed.

(** X11: what [_init_address_classes] builds.  An address type other than
    [Type], [Integer], [Talmud], [Perek], [Mishnah] and [Aliyah] names no
    class of the file and raises IndexSchemaError.  When every type is
    one of the six the call succeeds, whatever the lengths are: there is
    one address per declared type, of the class the type names ([Type]
    names the base class), whose order is its position; the address of
    level 0 gets the first of the given lengths, and every deeper address
    gets no length, whatever further lengths were given. *)
Theorem init_address_classes_shape (atypes : list string) (lengths : option (list Z)) :
  ((exists atype : string, In atype atypes /\ ~ In atype known_address_types) ->
   NumberedTitledTreeNode._init_address_classes atypes lengths = Raise IndexSchemaError)
  /\ (Forall (fun atype => In atype known_address_types) atypes ->
      exists ats : list AddressType.t,
        NumberedTitledTreeNode._init_address_classes atypes lengths = Ok ats
        /\ List.length ats = List.length atypes
        /\ forall (j : nat) (a : AddressType.t),
             ats !! j = Some a ->
             AddressType.order a = Z.of_nat j
             /\ (exists atype : string,
                   atypes !! j = Some atype
                   /\ class_named atype = Some (AddressType.cls a))
             /\ AddressType.length a
                = match j, lengths with
                  | O, Some (l :: _) => Some l
                  | _, _ => None
                  end).
Proof.
  split.
  - intros (atype & Hin & Hout). apply init_address_classes_from_unknown.
    exists atype. split; [exact Hin | by apply address_klass_unknown].
  - intros Hknown.
    destruct (init_address_classes_from_known atypes lengths 0 Hknown) as (ats & Hinit).
    exists ats. split; [exact Hinit |].
    destruct (init_address_classes_from_shape atypes lengths 0 ats Hinit) as [Hlen Hall].
    split; [exact Hlen |].
    intros j a Hj. destruct (Hall j a Hj) as (Ho & (atype & Hat & Hk) & Hl).
    split; [exact Ho |]. split.
    + exists atype. split; [exact Hat |].
      rewrite Forall_forall in Hknown.
      assert (Hin : In atype known_address_types).
      { apply Hknown. by apply list_elem_of_lookup_2 in Hat. }
      revert Hk. unfold known_address_types in Hin. simpl in Hin.
      destruct Hin as [<- | [<- | [<- | [<- | [<- | [<- | []]]]]]];
        intros Hk; cbn in Hk; injection Hk as <-; reflexivity.
    + rewrite Hl. destruct lengths as [[| l ls] |]; destruct j; try reflexivity.
Qed.

Lemma init_address_classes_shape_witness :
  NumberedTitledTreeNode._init_address_classes ["Talmud"; "Verse"]%string (Some [64; 10])
  = Raise IndexSchemaError
  /\ exists ats : list AddressType.t,
       NumberedTitledTreeNode._init_address_classes ["Talmud"; "Type"]%string
         (Some [64; 10]) = Ok ats
       /\ forall (j : nat) (a : AddressType.t),
            ats !! j = Some a -> AddressType.order a = Z.of_nat j.
Proof.
  split.
  - destruct (init_address_classes_shape ["Talmud"; "Verse"]%string (Some [64; 10]))
      as [Hbad _].
    apply Hbad. exists "Verse"%string. split; [right; by left |].
    unfold known_address_types. simpl.
    intros [H | [H | [H | [H | [H | [H | []]]]]]]; discriminate.
  - destruct (init_address_classes_shape ["Talmud"; "Type"]%string (Some [64; 10]))
      as [_ Hshape].
    destruct Hshape as (ats & Hinit & _ & Hall).
    + repeat constructor; unfold known_address_types; simpl; tauto.
    + exists ats. split; [exact Hinit |].
      intros j a Hj. by destruct (Hall j a Hj) as (Ho & _).
Defined.

Lemma regex_known_language (a : AddressType.t) (lang : string)
    (group_id : option string) (kw : kwargs) :
  AddressType.cls a <> AddressType.Base ->
  lang = "en"%string \/ lang = "he"%string ->
  exists r : string, Address.regex a lang group_id kw = Ok (Some r).
Proof.
  intros Hbase [-> | ->];
    unfold Address.regex, Address.section_patterns, Address._core_regex;
    destruct (AddressType.cls a); try done; simpl mbind;
    unfold AddressType.section_patterns, AddressTalmud.section_patterns,
      AddressPerek.section_patterns, AddressMishnah.section_patterns;
    simpl String.eqb; cbv iota; simpl mbind;
    repeat match goal with
           | |- context [if ?b then _ else _] => destruct b
           end; eauto.
Qed.

Lemma regex_unknown_language (a : AddressType.t) (lang : string)
    (group_id : option string) (kw : kwargs) :
  lang <> "en"%string -> lang <> "he"%string ->
  Address.regex a lang group_id kw = Raise Exception.
Proof.
  intros Hen Hhe. apply String.eqb_neq in Hen. apply String.eqb_neq in Hhe.
  unfold Address.regex, Address.section_patterns,
    AddressType.section_patterns, AddressTalmud.section_patterns,
    AddressPerek.section_patterns, AddressMishnah.section_patterns.
  destruct (AddressType.cls a); rewrite Hen, Hhe; reflexivity.
Qed.

Lemma append_level_raise (self : NumberedTitledTreeNode.t) (lang : string)
    (kw : kwargs) (levels : list Z) (e : exn) :
  fold_left (NumberedTitledTreeNode.append_level self lang kw) levels (Raise e)
  = Raise e.
Proof. induction levels as [| i levels IH]; [reflexivity | exact IH]. Qed.

Lemma append_level_ok (self : NumberedTitledTreeNode.t) (lang : string)
    (kw : kwargs) (a : nat) (reg : string) :
  Forall (fun x => AddressType.cls x <> AddressType.Base)
         (NumberedTitledTreeNode._addressTypes self) ->
  lang = "en"%string \/ lang = "he"%string ->
  (a < List.length (NumberedTitledTreeNode._addressTypes self))%nat ->
  exists reg' : string,
    NumberedTitledTreeNode.append_level self lang kw (Ok (Some reg)) (Z.of_nat a)
    = Ok (Some reg').
Proof.
  intros Hbase Hlang Hlen.
  destruct (index_in_range (NumberedTitledTreeNode._addressTypes self) (Z.of_nat a))
    as (x & Hnth & Hx); [lia |].
  assert (Hxb : AddressType.cls x <> AddressType.Base).
  { rewrite Forall_forall in Hbase. apply Hbase. apply list_elem_of_In.
    by apply nth_error_In in Hnth. }
  destruct (regex_known_language x lang
              (NumberedTitledTreeNode.group_name kw (Z.of_nat a)) kw Hxb Hlang)
    as (r & Hr).
  unfold NumberedTitledTreeNode.append_level. simpl. rewrite Hx. simpl.
  rewrite Hr. simpl. eauto.
Qed.

Lemma append_levels_ok (self : NumberedTitledTreeNode.t) (lang : string)
    (kw : kwargs) (n a : nat) (reg : string) :
  Forall (fun x => AddressType.cls x <> AddressType.Base)
         (NumberedTitledTreeNode._addressTypes self) ->
  lang = "en"%string \/ lang = "he"%string ->
  (a + n <= List.length (NumberedTitledTreeNode._addressTypes self))%nat ->
  exists reg' : string,
    fold_left (NumberedTitledTreeNode.append_level self lang kw)
      (List.map Z.of_nat (List.seq a n)) (Ok (Some reg)) = Ok (Some reg').
Proof.
  intros Hbase Hlang. revert a reg. induction n as [| n IH]; intros a reg Hlen.
  - by exists reg.
  - destruct (append_level_ok self lang kw a reg Hbase Hlang) as (reg1 & Hstep); [lia |].
    change (List.map Z.of_nat (List.seq a (S n)))
      with (Z.of_nat a :: List.map Z.of_nat (List.seq (S a) n)).
    cbn [fold_left]. rewrite Hstep. apply IH. lia.
Qed.

Lemma append_levels_out (self : NumberedTitledTreeNode.t) (lang : string)
    (kw : kwargs) (n a : nat) (reg : string) :
  Forall (fun x => AddressType.cls x <> AddressType.Base)
         (NumberedTitledTreeNode._addressTypes self) ->
  lang = "en"%string \/ lang = "he"%string ->
  (a <= List.length (NumberedTitledTreeNode._addressTypes self) < a + n)%nat ->
  fold_left (NumberedTitledTreeNode.append_level self lang kw)
    (List.map Z.of_nat (List.seq a n)) (Ok (Some reg)) = Raise IndexError.
Proof.
  intros Hbase Hlang. revert a reg. induction n as [| n IH]; intros a reg Hlen; [lia |].
  change (List.map Z.of_nat (List.seq a (S n)))
    with (Z.of_nat a :: List.map Z.of_nat (List.seq (S a) n)).
  destruct (Nat.eq_dec a (List.length (NumberedTitledTreeNode._addressTypes self)))
    as [Heq | Hne].
  - cbn [fold_left].
    replace (NumberedTitledTreeNode.append_level self lang kw (Ok (Some reg)) (Z.of_nat a))
      with (@Raise (option string) IndexError).
    + apply append_level_raise.
    + unfold NumberedTitledTreeNode.append_level. simpl.
      rewrite index_ge by lia. reflexivity.
  - destruct (append_level_ok self lang kw a reg Hbase Hlang) as (reg1 & Hstep); [lia |].
    cbn [fold_left]. rewrite Hstep. apply IH. lia.
Qed.

(** X12: the errors of [address_regex].  On a node without address types
    (depth 0, a string node) it raises IndexError, and so does
    [full_regex]; for a language other than "en" and "he" it raises
    Exception; and when the depth exceeds the number of address types,
    none of them is of the base class and level 0 does not stop the
    parsing, it raises IndexError. *)
Theorem address_regex_errors (self : NumberedTitledTreeNode.t) (lang : string)
    (kw : kwargs) :
  (NumberedTitledTreeNode._addressTypes self = [] ->
   NumberedTitledTreeNode.address_regex self lang kw = Raise IndexError
   /\ forall (title : string) (anchored : bool),
        NumberedTitledTreeNode.full_regex self title lang anchored kw
        = Raise IndexError)
  /\ (NumberedTitledTreeNode._addressTypes self <> [] ->
      lang <> "en"%string -> lang <> "he"%string ->
      NumberedTitledTreeNode.address_regex self lang kw = Raise Exception)
  /\ (forall a0 : AddressType.t,
        Py.index (NumberedTitledTreeNode._addressTypes self) 0 = Ok a0 ->
        Forall (fun x => AddressType.cls x <> AddressType.Base)
               (NumberedTitledTreeNode._addressTypes self) ->
        lang = "en"%string \/ lang = "he"%string ->
        Address.stop_parsing a0 lang = false ->
        Z.of_nat (List.length (NumberedTitledTreeNode._addressTypes self))
        < NumberedTitledTreeNode.depth self ->
        NumberedTitledTreeNode.address_regex self lang kw = Raise IndexError).
Proof.
  split; [| split].
  - intros Hnil.
    assert (Ha : NumberedTitledTreeNode.address_regex self lang kw = Raise IndexError).
    { unfold NumberedTitledTreeNode.address_regex. by rewrite Hnil. }
    split; [exact Ha |]. intros title anchored.
    unfold NumberedTitledTreeNode.full_regex, NumberedTitledTreeNode.full_regex_source.
    by rewrite Ha.
  - intros Hne Hen Hhe. unfold NumberedTitledTreeNode.address_regex.
    destruct (NumberedTitledTreeNode._addressTypes self) as [| a0 rest]; [done |].
    change (Py.index (a0 :: rest) 0) with (@Ok AddressType.t a0). simpl.
    by rewrite regex_unknown_language.
  - intros a0 Ha0 Hbase Hlang Hstop Hdepth.
    unfold NumberedTitledTreeNode.address_regex. rewrite Ha0. simpl.
    assert (Hlen : (1 <= List.length (NumberedTitledTreeNode._addressTypes self))%nat).
    { destruct (NumberedTitledTreeNode._addressTypes self); [discriminate | simpl; lia]. }
    assert (Ha0b : AddressType.cls a0 <> AddressType.Base).
    { destruct (NumberedTitledTreeNode._addressTypes self) as [| x rest]; [discriminate |].
      injection Ha0 as <-. by inversion Hbase. }
    destruct (regex_known_language a0 lang (NumberedTitledTreeNode.group_name kw 0)
                kw Ha0b Hlang) as (r0 & Hr0).
    rewrite Hr0. simpl. rewrite Hstop. simpl.
    unfold NumberedTitledTreeNode.range1.
    apply append_levels_out; [exact Hbase | exact Hlang | lia].
Qed.

Lemma address_regex_errors_witness :
  NumberedTitledTreeNode.address_regex
    (NumberedTitledTreeNode.mk 0 [] [] None []) "en" no_kwargs = Raise IndexError
  /\ NumberedTitledTreeNode.address_regex chapter_verse "fr" no_kwargs = Raise Exception
  /\ NumberedTitledTreeNode.address_regex
       (NumberedTitledTreeNode.mk 2 ["Integer"%string] ["Chapter"; "Verse"]%string None
          [AddressType.init_ AddressType.Integer 0 None]) "en" no_kwargs
     = Raise IndexError.
Proof.
  split; [| split].
  - destruct (address_regex_errors (NumberedTitledTreeNode.mk 0 [] [] None [])
                "en" no_kwargs) as (Hnil & _).
    by destruct (Hnil eq_refl).
  - destruct (address_regex_errors chapter_verse "fr" no_kwargs) as (_ & Hlang & _).
    apply Hlang; discriminate.
  - destruct (address_regex_errors
                (NumberedTitledTreeNode.mk 2 ["Integer"%string]
                   ["Chapter"; "Verse"]%string None
                   [AddressType.init_ AddressType.Integer 0 None]) "en" no_kwargs)
      as (_ & _ & Hdepth).
    apply (Hdepth (AddressType.init_ AddressType.Integer 0 None)).
    + reflexivity.
    + repeat constructor. discriminate.
    + by left.
    + reflexivity.
    + simpl. lia.
Defined.

(** * Further properties of the title dictionary *)

Lemma tree_ind (P : TitledTreeNode.t -> Prop) :
  (forall (g : TitleGroup.t) (d : bool) (cs : list TitledTreeNode.t),
      Forall P cs -> P (TitledTreeNode.Node g d cs)) ->
  forall n : TitledTreeNode.t, P n.
Proof.
  intros H. fix IH 1. intros [g d cs]. apply H.
  induction cs as [| c cs IHcs]; constructor; [apply IH | exact IHcs].
Qed.

Lemma fold_insert_cases (titles : list string) (v w : TitledTreeNode.node_ref)
    (d : gmap string TitledTreeNode.node_ref) (title : string) :
  fold_left (fun d title => <[title := v]> d) titles d !! title = Some w ->
  (In title titles /\ w = v) \/ (~ In title titles /\ d !! title = Some w).
Proof.
  intros Hw. destruct (List.in_dec String.string_dec title titles) as [Hin | Hout].
  - left. split; [exact Hin |].
    rewrite fold_insert_lookup in Hw by exact Hin. by injection Hw.
  - right. split; [exact Hout |]. by rewrite fold_insert_other in Hw.
Qed.

(** The titles a node computes for itself are keys of its dictionary. *)
Lemma title_dict_own_key (self : TitledTreeNode.t) (here : TitledTreeNode.node_ref)
    (lang : string) (baselist : list string) (title : string) :
  In title (TitledTreeNode.node_title_list self lang baselist) ->
  is_Some (TitledTreeNode.title_dict self here lang baselist !! title).
Proof.
  intros Hin. rewrite title_dict_unfold. cbv zeta.
  match goal with
  | |- context [fold_left ?f (TitledTreeNode.children self) ?st] =>
      destruct (fold_left f (TitledTreeNode.children self) st) as [[k tn] d]
  end.
  rewrite fold_insert_lookup by exact Hin. eauto.
Qed.

(** X13: the titles of a node without a default child lead to the node
    itself; and the dictionary of a node without children holds these
    titles and nothing else. *)
Theorem title_dict_own_titles (self : TitledTreeNode.t)
    (here : TitledTreeNode.node_ref) (lang : string) (baselist : list string) :
  (Forall (fun c => TitledTreeNode.is_default c = false) (TitledTreeNode.children self) ->
   forall title : string,
     In title (TitledTreeNode.node_title_list self lang baselist) ->
     TitledTreeNode.title_dict self here lang baselist !! title = Some here)
  /\ (TitledTreeNode.children self = [] ->
      forall title : string,
        ~ In title (TitledTreeNode.node_title_list self lang baselist) ->
        TitledTreeNode.title_dict self here lang baselist !! title = None).
Proof.
  split.
  - intros Hnone title Hin. rewrite title_dict_unfold. cbv zeta.
    set (titles := TitledTreeNode.node_title_list self lang baselist) in *.
    pose proof (loop_thisnode
                  (fun child there => TitledTreeNode.title_dict child there lang titles)
                  here (TitledTreeNode.children self) O here ∅) as Hloop.
    cbv zeta in Hloop.
    match type of Hloop with
    | context [fold_left ?f ?l ?st] =>
        destruct (fold_left f l st) as [[k' tn] d] eqn:Hfold
    end.
    simpl in Hloop. destruct Hloop as [[-> _] | (j & c & Hj & Hd & _)].
    + by apply fold_insert_lookup.
    + rewrite Forall_forall in Hnone. rewrite (Hnone c) in Hd; [discriminate |].
      by apply list_elem_of_lookup_2 in Hj.
  - intros Hleaf title Hout. rewrite title_dict_unfold. cbv zeta.
    rewrite Hleaf. simpl. rewrite fold_insert_other by exact Hout.
    apply lookup_empty.
Qed.

Lemma title_dict_own_titles_witness :
  TitledTreeNode.title_dict genesis_with_child [] "en" [] !! "Genesis"%string = Some [].
Proof.
  destruct (title_dict_own_titles genesis_with_child [] "en" []) as [Hown _].
  apply Hown.
  - repeat constructor.
  - by left.
Defined.

(** X14: a title whose presentation is "both" is a key of the dictionary
    in every language, whatever the language of the title: the language
    test of [title_dict] binds to the presentation "alone" only. *)
Theorem title_dict_both_any_language (self : TitledTreeNode.t)
    (here : TitledTreeNode.node_ref) (lang : string) (baselist : list string)
    (title : Title.t) :
  In title (TitledTreeNode.get_titles self) ->
  Title.presentation title = Some "both"%string ->
  In (Title.text title) (TitledTreeNode.node_title_list self lang baselist)
  /\ is_Some (TitledTreeNode.title_dict self here lang baselist !! Title.text title).
Proof.
  intros Hin Hboth.
  assert (Hlist : In (Title.text title)
                    (TitledTreeNode.node_title_list self lang baselist)).
  { unfold TitledTreeNode.node_title_list. apply List.in_or_app. right.
    unfold TitledTreeNode.alone_node_titles. apply List.in_map.
    apply List.filter_In. split; [exact Hin |].
    rewrite Hboth. simpl. apply orb_true_r. }
  split; [exact Hlist | by apply title_dict_own_key].
Qed.

Lemma title_dict_both_any_language_witness :
  is_Some (TitledTreeNode.title_dict genesis_with_child [] "en" [] !! uni 0x05d0).
Proof.
  apply (title_dict_both_any_language genesis_with_child [] "en" []
           (Title.mk (uni 0x05d0) "he" true (Some "both"%string))).
  - right. by left.
  - reflexivity.
Defined.

Lemma points_into_child (self c : TitledTreeNode.t) (here v : TitledTreeNode.node_ref)
    (k : nat) :
  TitledTreeNode.children self !! k = Some c ->
  points_into c (here ++ [k]) v -> points_into self here v.
Proof.
  intros Hk (path & n & -> & Hn). exists (k :: path), n. split.
  - by rewrite <- app_assoc.
  - simpl. by rewrite Hk.
Qed.

(** The loop over the children keeps every value inside the tree. *)
Lemma loop_points_into (self : TitledTreeNode.t) (here : TitledTreeNode.node_ref)
    (child_dict : TitledTreeNode.t -> TitledTreeNode.node_ref ->
                  gmap string TitledTreeNode.node_ref)
    (pre cs : list TitledTreeNode.t) (tn : TitledTreeNode.node_ref)
    (d : gmap string TitledTreeNode.node_ref) :
  TitledTreeNode.children self = pre ++ cs ->
  Forall (fun c => forall there title v,
              child_dict c there !! title = Some v -> points_into c there v) cs ->
  points_into self here tn ->
  (forall title v, d !! title = Some v -> points_into self here v) ->
  let st := fold_left (TitledTreeNode.visit_child child_dict here) cs
              (List.length pre, tn, d) in
  points_into self here (snd (fst st))
  /\ forall title v, snd st !! title = Some v -> points_into self here v.
Proof.
  revert pre tn d. induction cs as [| c cs IH]; intros pre tn d Hsplit Hall Htn Hd.
  - simpl. by split.
  - assert (Hk : TitledTreeNode.children self !! List.length pre = Some c).
    { rewrite Hsplit. rewrite lookup_app_r by lia. by rewrite Nat.sub_diag. }
    inversion Hall as [| ? ? Hc Hrest]; subst.
    assert (Hsplit' : TitledTreeNode.children self = (pre ++ [c]) ++ cs)
      by by rewrite <- app_assoc.
    assert (Hlen : List.length (pre ++ [c]) = S (List.length pre))
      by (rewrite List.length_app; simpl; lia).
    cbv zeta. cbn [fold_left].
    destruct (TitledTreeNode.is_default c) eqn:Hdef.
    + replace (TitledTreeNode.visit_child child_dict here (List.length pre, tn, d) c)
        with (List.length (pre ++ [c]), here ++ [List.length pre], d)
        by (unfold TitledTreeNode.visit_child; by rewrite Hdef, Hlen).
      apply (IH (pre ++ [c])); [exact Hsplit' | exact Hrest | | exact Hd].
      exists [List.length pre], c. split; [reflexivity |]. simpl. by rewrite Hk.
    + replace (TitledTreeNode.visit_child child_dict here (List.length pre, tn, d) c)
        with (List.length (pre ++ [c]), tn,
              child_dict c (here ++ [List.length pre]) ∪ d)
        by (unfold TitledTreeNode.visit_child; by rewrite Hdef, Hlen).
      apply (IH (pre ++ [c])); [exact Hsplit' | exact Hrest | exact Htn |].
      intros title v Hv. apply lookup_union_Some_raw in Hv as [Hv | [_ Hv]].
      * apply (points_into_child self c here v (List.length pre) Hk).
        by apply (Hc _ title).
      * by apply (Hd title).
Qed.

(** X15: every value of the dictionary names a node of the tree the
    dictionary was built from. *)
Theorem title_dict_points_into (self : TitledTreeNode.t)
    (here : TitledTreeNode.node_ref) (lang : string) (baselist : list string)
    (title : string) (v : TitledTreeNode.node_ref) :
  TitledTreeNode.title_dict self here lang baselist !! title = Some v ->
  points_into self here v.
Proof.
  revert here baselist title v.
  induction self as [g dflt cs IH] using tree_ind.
  intros here baselist title v. rewrite title_dict_unfold. cbv zeta.
  set (self := TitledTreeNode.Node g dflt cs).
  set (titles := TitledTreeNode.node_title_list self lang baselist).
  pose proof (loop_points_into self here
                (fun child there => TitledTreeNode.title_dict child there lang titles)
                [] cs here ∅ eq_refl) as Hloop.
  cbv zeta in Hloop. simpl TitledTreeNode.children.
  simpl List.length in Hloop.
  match type of Hloop with
  | context [fold_left ?f ?l ?st] =>
      destruct (fold_left f l st) as [[k' tn] d] eqn:Hfold
  end.
  simpl in Hloop. destruct Hloop as [Htn Hd].
  - rewrite Forall_forall in IH. apply Forall_forall.
    intros c Hc there title' v' Hv'. by apply (IH c Hc there titles title').
  - exists [], self. split; [by rewrite app_nil_r | reflexivity].
  - intros title' v' Hv'. by rewrite lookup_empty in Hv'.
  - intros Hv. apply fold_insert_cases in Hv as [[_ ->] | [_ Hv]]; [exact Htn |].
    by apply (Hd title).
Qed.

Lemma title_dict_points_into_witness :
  points_into genesis_tree [] [O].
Proof.
  apply (title_dict_points_into genesis_tree [] "en" [] "Genesis").
  vm_compute. reflexivity.
Defined.

Lemma fold_insert_keeps (titles : list string) (v : TitledTreeNode.node_ref)
    (d : gmap string TitledTreeNode.node_ref) (title : string) :
  is_Some (d !! title) ->
  is_Some (fold_left (fun d title => <[title := v]> d) titles d !! title).
Proof.
  intros Hd. destruct (List.in_dec String.string_dec title titles) as [Hin | Hout].
  - rewrite fold_insert_lookup by exact Hin. eauto.
  - by rewrite fold_insert_other.
Qed.

Lemma loop_keeps_keys
    (child_dict : TitledTreeNode.t -> TitledTreeNode.node_ref ->
                  gmap string TitledTreeNode.node_ref)
    (here : TitledTreeNode.node_ref) (cs : list TitledTreeNode.t)
    (st : TitledTreeNode.loop_state) (title : string) :
  is_Some (snd st !! title) ->
  is_Some (snd (fold_left (TitledTreeNode.visit_child child_dict here) cs st) !! title).
Proof.
  revert st. induction cs as [| c cs IH]; intros st Hst; [exact Hst |].
  cbn [fold_left]. apply IH. destruct st as [[k tn] d].
  unfold TitledTreeNode.visit_child. destruct (TitledTreeNode.is_default c); [exact Hst |].
  simpl in *. destruct Hst as [v Hv].
  destruct (child_dict c (here ++ [k]) !! title) as [w |] eqn:Hw.
  - exists w. by apply lookup_union_Some_l.
  - exists v. rewrite lookup_union_r by exact Hw. exact Hv.
Qed.

Lemma loop_child_keys
    (child_dict : TitledTreeNode.t -> TitledTreeNode.node_ref ->
                  gmap string TitledTreeNode.node_ref)
    (here : TitledTreeNode.node_ref) (cs : list TitledTreeNode.t)
    (k0 j : nat) (tn : TitledTreeNode.node_ref)
    (d : gmap string TitledTreeNode.node_ref) (c : TitledTreeNode.t) (title : string) :
  cs !! j = Some c ->
  TitledTreeNode.is_default c = false ->
  is_Some (child_dict c (here ++ [(k0 + j)%nat]) !! title) ->
  is_Some (snd (fold_left (TitledTreeNode.visit_child child_dict here) cs (k0, tn, d))
           !! title).
Proof.
  revert k0 j tn d. induction cs as [| x cs IH]; intros k0 j tn d Hj Hc Hkey;
    [discriminate |].
  cbn [fold_left]. destruct j as [| j].
  - simpl in Hj. injection Hj as ->. rewrite Nat.add_0_r in Hkey.
    apply loop_keeps_keys. unfold TitledTreeNode.visit_child. rewrite Hc. simpl.
    destruct Hkey as [w Hw]. exists w. by apply lookup_union_Some_l.
  - simpl in Hj. unfold TitledTreeNode.visit_child at 2.
    destruct (TitledTreeNode.is_default x).
    + apply (IH (S k0) j); [exact Hj | exact Hc |].
      by replace (S k0 + j)%nat with (k0 + S j)%nat by lia.
    + apply (IH (S k0) j); [exact Hj | exact Hc |].
      by replace (S k0 + j)%nat with (k0 + S j)%nat by lia.
Qed.

(** X16: how titles combine.  For a child that is not default, every text
    made of a title of the parent, a separator (a space, or a comma and
    a space) and a title of the child that may be combined is a key of
    the parent's dictionary. *)
Theorem title_dict_combines (self : TitledTreeNode.t)
    (here : TitledTreeNode.node_ref) (lang : string) (baselist : list string)
    (k : nat) (c : TitledTreeNode.t) (p sep t : string) :
  TitledTreeNode.children self !! k = Some c ->
  TitledTreeNode.is_default c = false ->
  In p (TitledTreeNode.node_title_list self lang baselist) ->
  In sep TitledTreeNode.title_separators ->
  In t (TitledTreeNode.this_node_titles c lang) ->
  is_Some (TitledTreeNode.title_dict self here lang baselist !! ((p +:+ sep) +:+ t)).
Proof.
  intros Hk Hc Hp Hsep Ht. rewrite title_dict_unfold. cbv zeta.
  set (titles := TitledTreeNode.node_title_list self lang baselist) in *.
  assert (Hkey : is_Some (TitledTreeNode.title_dict c (here ++ [(0 + k)%nat]) lang titles
                          !! ((p +:+ sep) +:+ t))).
  { apply title_dict_own_key. unfold TitledTreeNode.node_title_list.
    apply List.in_or_app. left.
    destruct titles as [| x xs] eqn:Htitles; [destruct Hp |].
    rewrite <- Htitles in *.
    apply List.in_flat_map. exists p. split; [exact Hp |].
    apply List.in_flat_map. exists sep. split; [exact Hsep |].
    by apply (List.in_map (fun title => (p +:+ sep) +:+ title)). }
  pose proof (loop_child_keys
                (fun child there => TitledTreeNode.title_dict child there lang titles)
                here (TitledTreeNode.children self) O k here ∅ c _ Hk Hc Hkey) as Hloop.
  match type of Hloop with
  | context [fold_left ?f ?l ?st] =>
      destruct (fold_left f l st) as [[k' tn] d] eqn:Hfold
  end.
  simpl in Hloop. by apply fold_insert_keeps.
Qed.

Lemma title_dict_combines_witness :
  is_Some (TitledTreeNode.title_dict genesis_with_child [] "en" []
           !! "Genesis, Prologue"%string).
Proof.
  apply (title_dict_combines genesis_with_child [] "en" [] O
           (TitledTreeNode.Node
              (TitleGroup.init [Title.mk "Prologue" "en" true None]) false [])
           "Genesis" ", " "Prologue").
  - reflexivity.
  - reflexivity.
  - by left.
  - right. by left.
  - by left.
Defined.

(** * Properties of the walks over the tree *)

Lemma get_leaf_nodes_unfold (g : TitleGroup.t) (d : bool) (cs : list TitledTreeNode.t)
    (here : TitledTreeNode.node_ref) :
  TreeNode.get_leaf_nodes (TitledTreeNode.Node g d cs) here
  = match cs with
    | [] => [here]
    | _ =>
        snd (fold_left
               (fun (st : nat * list TitledTreeNode.node_ref) node =>
                  (S (fst st), snd st ++ TreeNode.get_leaf_nodes node (here ++ [fst st])))
               cs (O, []))
    end.
Proof. destruct cs; reflexivity. Qed.

Lemma last_leaf_unfold (g : TitleGroup.t) (d : bool) (cs : list TitledTreeNode.t)
    (here : TitledTreeNode.node_ref) :
  TreeNode.last_leaf (TitledTreeNode.Node g d cs) here
  = snd (fold_left
           (fun (st : nat * TitledTreeNode.node_ref) child =>
              (S (fst st), TreeNode.last_leaf child (here ++ [fst st])))
           cs (O, here)).
Proof. reflexivity. Qed.

(** The references gathered by the loop of [get_leaf_nodes]. *)
Lemma fold_leaves_in
    (leaves : TitledTreeNode.t -> TitledTreeNode.node_ref -> list TitledTreeNode.node_ref)
    (here : TitledTreeNode.node_ref) (cs : list TitledTreeNode.t) (k : nat)
    (acc : list TitledTreeNode.node_ref) (v : TitledTreeNode.node_ref) :
  In v (snd (fold_left
               (fun (st : nat * list TitledTreeNode.node_ref) node =>
                  (S (fst st), snd st ++ leaves node (here ++ [fst st])))
               cs (k, acc)))
  <-> In v acc
      \/ exists (j : nat) (c : TitledTreeNode.t),
           cs !! j = Some c /\ In v (leaves c (here ++ [(k + j)%nat])).
Proof.
  revert k acc. induction cs as [| c cs IH]; intros k acc.
  - simpl. split; [by left |]. intros [Hacc | (j & c & Hj & _)]; [done | discriminate].
  - cbn [fold_left]. simpl fst. simpl snd. rewrite IH. split.
    + intros [Hin | (j & c' & Hj & Hin)].
      * apply List.in_app_or in Hin as [Hin | Hin]; [by left |].
        right. exists O, c. rewrite Nat.add_0_r. by split.
      * right. exists (S j), c'. split; [exact Hj |].
        by replace (k + S j)%nat with (S k + j)%nat by lia.
    + intros [Hin | (j & c' & Hj & Hin)].
      * left. apply List.in_or_app. by left.
      * destruct j as [| j].
        -- simpl in Hj. injection Hj as <-. rewrite Nat.add_0_r in Hin.
           left. apply List.in_or_app. by right.
        -- right. exists j, c'. split; [exact Hj |].
           by replace (S k + j)%nat with (k + S j)%nat by lia.
Qed.

Lemma fold_leaves_acc
    (leaves : TitledTreeNode.t -> TitledTreeNode.node_ref -> list TitledTreeNode.node_ref)
    (here : TitledTreeNode.node_ref) (cs : list TitledTreeNode.t) (k : nat)
    (acc : list TitledTreeNode.node_ref) :
  snd (fold_left
         (fun (st : nat * list TitledTreeNode.node_ref) node =>
            (S (fst st), snd st ++ leaves node (here ++ [fst st])))
         cs (k, acc))
  = acc ++ snd (fold_left
                  (fun (st : nat * list TitledTreeNode.node_ref) node =>
                     (S (fst st), snd st ++ leaves node (here ++ [fst st])))
                  cs (k, [])).
Proof.
  revert k acc. induction cs as [| c cs IH]; intros k acc.
  - simpl. by rewrite app_nil_r.
  - cbn [fold_left]. simpl fst. simpl snd.
    rewrite IH. rewrite (IH (S k) (leaves c (here ++ [k]))).
    by rewrite <- app_assoc.
Qed.

Lemma leaf_of_get_leaf_nodes (self : TitledTreeNode.t) :
  forall (here v : TitledTreeNode.node_ref),
    In v (TreeNode.get_leaf_nodes self here)
    <-> exists (path : TitledTreeNode.node_ref) (n : TitledTreeNode.t),
          v = here ++ path /\ node_at self path = Some n /\ TreeNode.is_leaf n = true.
Proof.
  induction self as [g d cs IH] using tree_ind. intros here v.
  rewrite get_leaf_nodes_unfold. destruct cs as [| c0 cs0] eqn:Hcs.
  - simpl. split.
    + intros [<- | []]. exists [], (TitledTreeNode.Node g d []).
      split; [by rewrite app_nil_r | by split].
    + intros (path & n & -> & Hn & Hleaf). left.
      destruct path as [| k path]; [by rewrite app_nil_r | discriminate].
  - rewrite <- Hcs in *.
    rewrite fold_leaves_in. rewrite Forall_forall in IH. split.
    + intros [[] | (j & c & Hj & Hin)].
      apply IH in Hin as (path & n & -> & Hn & Hleaf);
        [| by apply list_elem_of_lookup_2 in Hj].
      exists (j :: path), n. split; [by rewrite <- app_assoc |].
      split; [simpl; by rewrite Hj | exact Hleaf].
    + intros (path & n & -> & Hn & Hleaf). right.
      destruct path as [| j path].
      * simpl in Hn. injection Hn as <-. rewrite Hcs in Hleaf. discriminate.
      * simpl in Hn.
        destruct (cs !! j) as [c |] eqn:Hj; [| discriminate].
        exists j, c. split; [exact Hj |]. simpl.
        apply IH; [by apply list_elem_of_lookup_2 in Hj |].
        exists path, n. split; [by rewrite <- app_assoc |]. by split.
Qed.

Lemma fold_leaves_nodup
    (leaves : TitledTreeNode.t -> TitledTreeNode.node_ref -> list TitledTreeNode.node_ref)
    (here : TitledTreeNode.node_ref) (cs : list TitledTreeNode.t) (k : nat)
    (acc : list TitledTreeNode.node_ref) :
  (forall (j : nat) (c : TitledTreeNode.t),
      cs !! j = Some c ->
      NoDup (leaves c (here ++ [(k + j)%nat]))
      /\ forall v, In v (leaves c (here ++ [(k + j)%nat])) ->
                   exists path, v = here ++ (k + j)%nat :: path) ->
  NoDup acc ->
  (forall v, In v acc -> exists i path, (i < k)%nat /\ v = here ++ i :: path) ->
  NoDup (snd (fold_left
                (fun (st : nat * list TitledTreeNode.node_ref) node =>
                   (S (fst st), snd st ++ leaves node (here ++ [fst st])))
                cs (k, acc))).
Proof.
  revert k acc. induction cs as [| c cs IH]; intros k acc Hcs Hacc Hunder.
  - exact Hacc.
  - cbn [fold_left]. simpl fst. simpl snd.
    destruct (Hcs O c eq_refl) as [Hnd Hpaths]. rewrite Nat.add_0_r in Hnd, Hpaths.
    apply IH.
    + intros j c' Hj. replace (S k + j)%nat with (k + S j)%nat by lia.
      by apply Hcs.
    + apply NoDup_app. split; [exact Hacc |]. split; [| exact Hnd].
      intros v Hv Hv'. apply list_elem_of_In in Hv. apply list_elem_of_In in Hv'.
      destruct (Hunder v Hv) as (i & path & Hi & ->).
      destruct (Hpaths _ Hv') as (path' & Heq).
      apply app_inv_head in Heq. injection Heq as Heq _. lia.
    + intros v Hv. apply List.in_app_or in Hv as [Hv | Hv].
      * destruct (Hunder v Hv) as (i & path & Hi & ->). exists i, path. split; [lia | done].
      * destruct (Hpaths v Hv) as (path & ->). exists k, path. split; [lia | done].
Qed.

Lemma get_leaf_nodes_nodup (self : TitledTreeNode.t) :
  forall here : TitledTreeNode.node_ref, NoDup (TreeNode.get_leaf_nodes self here).
Proof.
  induction self as [g d cs IH] using tree_ind. intros here.
  rewrite get_leaf_nodes_unfold. destruct cs as [| c0 cs0] eqn:Hcs.
  - repeat constructor. by intros ?%elem_of_nil.
  - rewrite <- Hcs in *. apply fold_leaves_nodup.
    + intros j c Hj. rewrite Forall_forall in IH. split.
      * apply IH. by apply list_elem_of_lookup_2 in Hj.
      * intros v Hv. apply leaf_of_get_leaf_nodes in Hv as (path & n & -> & _).
        exists path. by rewrite <- app_assoc.
    + constructor.
    + intros v [].
Qed.

(** X17: [get_leaf_nodes] lists the leaves of the tree, each of them once:
    a reference is listed exactly when it leads to a node without
    children. *)
Theorem get_leaf_nodes_lists_leaves (self : TitledTreeNode.t)
    (here : TitledTreeNode.node_ref) :
  (forall v : TitledTreeNode.node_ref,
      In v (TreeNode.get_leaf_nodes self here)
      <-> exists (path : TitledTreeNode.node_ref) (n : TitledTreeNode.t),
            v = here ++ path /\ node_at self path = Some n
            /\ TreeNode.is_leaf n = true)
  /\ NoDup (TreeNode.get_leaf_nodes self here).
Proof.
  split; [apply leaf_of_get_leaf_nodes | apply get_leaf_nodes_nodup].
Qed.

Lemma get_leaf_nodes_not_nil (self : TitledTreeNode.t) (here : TitledTreeNode.node_ref) :
  TreeNode.get_leaf_nodes self here <> [].
Proof.
  revert here. induction self as [g d cs IH] using tree_ind. intros here.
  rewrite get_leaf_nodes_unfold. destruct cs as [| c cs]; [discriminate |].
  cbn [fold_left]. simpl fst. simpl snd. rewrite fold_leaves_acc.
  inversion IH as [| ? ? Hc _]; subst.
  intros Hnil. apply List.app_eq_nil in Hnil as [Hnil _]. by apply (Hc (here ++ [O])).
Qed.

Lemma last_app_not_nil {A : Type} (l1 l2 : list A) :
  l2 <> [] -> last (l1 ++ l2) = last l2.
Proof.
  intros Hne. destruct (List.exists_last Hne) as (front & x & ->).
  by rewrite app_assoc, !last_snoc.
Qed.

Lemma fold_last_leaf (here : TitledTreeNode.node_ref) (cs : list TitledTreeNode.t)
    (k : nat) (acc : list TitledTreeNode.node_ref) (r : TitledTreeNode.node_ref) :
  Forall (fun c => forall there,
              last (TreeNode.get_leaf_nodes c there) = Some (TreeNode.last_leaf c there))
         cs ->
  last acc = Some r ->
  last (snd (fold_left
               (fun (st : nat * list TitledTreeNode.node_ref) node =>
                  (S (fst st), snd st ++ TreeNode.get_leaf_nodes node (here ++ [fst st])))
               cs (k, acc)))
  = Some (snd (fold_left
                 (fun (st : nat * TitledTreeNode.node_ref) child =>
                    (S (fst st), TreeNode.last_leaf child (here ++ [fst st])))
                 cs (k, r))).
Proof.
  revert k acc r. induction cs as [| c cs IH]; intros k acc r Hall Hacc; [exact Hacc |].
  inversion Hall as [| ? ? Hc Hrest]; subst.
  cbn [fold_left]. simpl fst. simpl snd. apply IH; [exact Hrest |].
  rewrite last_app_not_nil by apply get_leaf_nodes_not_nil. apply Hc.
Qed.

(** X18: [first_leaf] is the first of the leaves that [get_leaf_nodes]
    lists and [last_leaf] the last of them. *)
Theorem first_and_last_leaf (self : TitledTreeNode.t) (here : TitledTreeNode.node_ref) :
  hd_error (TreeNode.get_leaf_nodes self here) = Some (TreeNode.first_leaf self here)
  /\ last (TreeNode.get_leaf_nodes self here) = Some (TreeNode.last_leaf self here).
Proof.
  revert here. induction self as [g d cs IH] using tree_ind. intros here.
  rewrite get_leaf_nodes_unfold, last_leaf_unfold.
  destruct cs as [| c cs]; [by split |].
  inversion IH as [| ? ? Hc Hrest]; subst. split.
  - cbn [fold_left]. simpl fst. simpl snd. rewrite fold_leaves_acc.
    destruct (Hc (here ++ [O])) as [Hhd _].
    change (TreeNode.first_leaf (TitledTreeNode.Node g d (c :: cs)) here)
      with (TreeNode.first_leaf c (here ++ [O])).
    destruct (TreeNode.get_leaf_nodes c (here ++ [O])) as [| x xs]; [discriminate |].
    exact Hhd.
  - cbn [fold_left]. simpl fst. simpl snd. apply fold_last_leaf.
    + apply Forall_forall. intros x Hx there. rewrite Forall_forall in Hrest.
      by destruct (Hrest x Hx there).
    + simpl. by destruct (Hc (here ++ [O])).
Qed.

Lemma next_in_list_in (x y : TitledTreeNode.node_ref) (l : list TitledTreeNode.node_ref) :
  TreeNode._next_in_list x l = Some y -> In x l /\ In y l.
Proof.
  induction l as [| a l IH]; [discriminate |].
  simpl. destruct (decide (a = x)) as [-> | Hne].
  - destruct l as [| b l]; [discriminate |].
    intros Heq. injection Heq as ->. split; [by left | right; by left].
  - intros Hn. destruct (IH Hn). split; by right.
Qed.

Lemma next_then_prev (x y : TitledTreeNode.node_ref) (l : list TitledTreeNode.node_ref)
    (prev : option TitledTreeNode.node_ref) :
  NoDup l ->
  TreeNode._next_in_list x l = Some y ->
  TreeNode.prev_scan y prev l = Some x.
Proof.
  revert prev. induction l as [| a l IH]; intros prev Hnd Hn; [discriminate |].
  apply NoDup_cons in Hnd as [Ha Hnd]. simpl in Hn. simpl.
  destruct (decide (a = x)) as [-> | Hne].
  - destruct l as [| b l]; [discriminate |]. injection Hn as ->.
    destruct (decide (x = y)) as [-> | _].
    + exfalso. apply Ha. by left.
    + simpl. by destruct (decide (y = y)).
  - destruct (decide (a = y)) as [-> | _].
    + exfalso. apply Ha. apply list_elem_of_In. by apply (next_in_list_in x y l).
    + by apply IH.
Qed.

Lemma prev_then_next (x y : TitledTreeNode.node_ref) (l : list TitledTreeNode.node_ref)
    (prev : option TitledTreeNode.node_ref) :
  NoDup l ->
  (forall p, prev = Some p -> ~ In p l) ->
  TreeNode.prev_scan y prev l = Some x ->
  (prev = Some x /\ hd_error l = Some y) \/ TreeNode._next_in_list x l = Some y.
Proof.
  revert prev. induction l as [| a l IH]; intros prev Hnd Hprev Hp; [discriminate |].
  apply NoDup_cons in Hnd as [Ha Hnd]. simpl in Hp.
  destruct (decide (a = y)) as [-> | Hne]; [left; by split |].
  right. simpl.
  destruct (IH (Some a) Hnd) as [[Heq Hhd] | Hnext].
  - intros p Heq Hin. injection Heq as <-. apply Ha. by apply list_elem_of_In.
  - exact Hp.
  - injection Heq as ->. destruct (decide (x = x)); [| done].
    destruct l; [discriminate | exact Hhd].
  - destruct (decide (a = x)) as [-> | _]; [| exact Hnext].
    exfalso. apply Ha. apply list_elem_of_In. by apply (next_in_list_in x y l).
Qed.

(** X19: on the leaves of a tree [next_leaf] and [prev_leaf] undo each
    other: the leaf after [x] is [y] exactly when the leaf before [y] is
    [x]. *)
Theorem next_and_prev_leaf (root : TitledTreeNode.t) (x y : TitledTreeNode.node_ref) :
  TreeNode.next_leaf root x = Some y <-> TreeNode.prev_leaf root y = Some x.
Proof.
  unfold TreeNode.next_leaf, TreeNode.prev_leaf, TreeNode._prev_in_list.
  pose proof (get_leaf_nodes_nodup root []) as Hnd. split.
  - intros Hn.
    assert (Hy : TreeNode.is_root y = false).
    { destruct (next_in_list_in x y _ Hn) as [Hx Hy].
      destruct y as [| k y]; [| reflexivity].
      apply leaf_of_get_leaf_nodes in Hy as (path & n & Hpath & Hnode & Hleaf).
      destruct path; [| discriminate]. simpl in Hnode. injection Hnode as <-.
      destruct root as [g d cs]. rewrite get_leaf_nodes_unfold in Hn.
      destruct cs; [| discriminate].
      simpl in Hn. case_match; discriminate. }
    rewrite Hy. by apply next_then_prev.
  - destruct (TreeNode.is_root y); [discriminate |]. intros Hp.
    destruct (prev_then_next x y _ None Hnd) as [[Heq _] | Hnext];
      [discriminate | exact Hp | discriminate | exact Hnext].
Qed.


(** * Properties of the full titles *)

Lemma full_title_unfold (self : TitledNode.t) (ancestors : list TitledNode.t)
    (lang : string) :
  TitledNode.full_title self ancestors lang
  = match TitledNode._full_title self !! lang with
    | Some (String c s) => (String c s, (self, ancestors))
    | _ =>
        match ancestors with
        | parent :: rest =>
            let '(above, (parent, rest)) := TitledNode.full_title parent rest lang in
            let '(own, self) := TitledNode.primary_title self lang in
            let v := (above +:+ ", ") +:+ own in
            (v, (TitledNode.mk (TitledNode.title_group self)
                   (<[lang := v]> (TitledNode._full_title self))
                   (TitledNode._full_titles self),
                 parent :: rest))
        | [] =>
            let '(own, self) := TitledNode.primary_title self lang in
            (own, (TitledNode.mk (TitledNode.title_group self)
                     (<[lang := own]> (TitledNode._full_title self))
                     (TitledNode._full_titles self),
                   []))
        end
    end.
Proof. destruct ancestors; reflexivity. Qed.

Lemma full_titles_unfold (self : TitledNode.t) (ancestors : list TitledNode.t)
    (lang : string) :
  TitledNode.full_titles self ancestors lang
  = match TitledNode._full_titles self !! lang with
    | Some (x :: xs) => (x :: xs, (self, ancestors))
    | _ =>
        match ancestors with
        | parent :: rest =>
            let '(above, (parent, rest)) := TitledNode.full_titles parent rest lang in
            let v :=
              List.flat_map
                (fun parent_title =>
                   List.flat_map
                     (fun sep =>
                        List.map (fun local => (parent_title +:+ sep) +:+ local)
                                 (TitledNode.all_node_titles self lang))
                     TitledTreeNode.title_separators)
                above in
            (v, (TitledNode.mk (TitledNode.title_group self)
                   (TitledNode._full_title self)
                   (<[lang := v]> (TitledNode._full_titles self)),
                 parent :: rest))
        | [] =>
            let v := TitledNode.all_node_titles self lang in
            (v, (TitledNode.mk (TitledNode.title_group self)
                   (TitledNode._full_title self)
                   (<[lang := v]> (TitledNode._full_titles self)),
                 []))
        end
    end.
Proof. destruct ancestors; reflexivity. Qed.

Lemma primary_title_uncached (g : TitleGroup.t) (lang : string) :
  TitleGroup._primary_title g !! lang = None ->
  fst (TitleGroup.primary_title g lang)
  = match List.find (is_primary_in lang) (TitleGroup.titles g) with
    | Some p => Title.text p
    | None => ""%string
    end.
Proof.
  intros Hc. destruct (List.find (is_primary_in lang) (TitleGroup.titles g)) as [p |] eqn:Hp.
  - by apply primary_title_scans.
  - unfold TitleGroup.primary_title. simpl. rewrite Hc.
    unfold is_primary_in in Hp. rewrite Hp. rewrite Hc.
    by rewrite lookup_insert_eq.
Qed.

Lemma primary_title_again (g : TitleGroup.t) (lang : string) :
  TitleGroup.primary_title (snd (TitleGroup.primary_title g lang)) lang
  = (fst (TitleGroup.primary_title g lang), snd (TitleGroup.primary_title g lang)).
Proof.
  pose proof (primary_title_spec g lang) as [Ht Hc].
  destruct (TitleGroup.primary_title g lang) as [p g1] eqn:Hpt.
  simpl in *.
  unfold TitleGroup.primary_title. rewrite Hc. rewrite Hc.
  destruct (String.eqb p "") eqn:Hp.
  - apply String.eqb_eq in Hp. subst p. rewrite lookup_insert_eq.
    f_equal. destruct g1 as [ts cache]. simpl in *. f_equal.
    by apply insert_id.
  - rewrite Hc. by destruct g1.
Qed.

Lemma joined_not_empty (a b : string) :
  exists (c : ascii) (s : string), (a +:+ ", ") +:+ b = String c s.
Proof. destruct a as [| x a]; simpl; eauto. Qed.

(** X20: with nothing cached on the node and on its ancestors,
    [full_title] is the primary titles from the root down to the node,
    joined by a comma and a space; a node without a primary title in the
    language gives the empty text at its place. *)
Theorem full_title_joins (self : TitledNode.t) (ancestors : list TitledNode.t)
    (lang : string) :
  Forall (uncached lang) (self :: ancestors) ->
  fst (TitledNode.full_title self ancestors lang) = joined_titles self ancestors lang.
Proof.
  revert self. induction ancestors as [| parent rest IH]; intros self Hall.
  - inversion Hall as [| ? ? (Hft & _ & Hpc) _]; subst.
    rewrite full_title_unfold, Hft. unfold TitledNode.primary_title.
    pose proof (primary_title_uncached _ lang Hpc) as Hown.
    destruct (TitleGroup.primary_title (TitledNode.title_group self) lang) as [own g].
    exact Hown.
  - inversion Hall as [| ? ? (Hft & _ & Hpc) Hrest]; subst.
    rewrite full_title_unfold, Hft. specialize (IH parent Hrest).
    destruct (TitledNode.full_title parent rest lang) as [above [parent' rest']].
    unfold TitledNode.primary_title.
    pose proof (primary_title_uncached _ lang Hpc) as Hown.
    destruct (TitleGroup.primary_title (TitledNode.title_group self) lang) as [own g].
    simpl in *. unfold primary_text. by rewrite IH, Hown.
Qed.

Lemma full_title_joins_witness :
  fst (TitledNode.full_title
         (titled [Title.mk "Prologue" "en" true None])
         [titled [Title.mk "Genesis" "en" true None]] "en")
  = "Genesis, Prologue"%string.
Proof.
  rewrite (full_title_joins (titled [Title.mk "Prologue" "en" true None])
             [titled [Title.mk "Genesis" "en" true None]] "en").
  - vm_compute. reflexivity.
  - repeat constructor.
Defined.

(** X21: [full_title] and [full_titles] are memoized: asked again on the
    nodes as the first call left them, each gives the same answer and
    leaves every node as it is. *)
Theorem full_title_memoized (self : TitledNode.t) (ancestors : list TitledNode.t)
    (lang : string) :
  (let r := TitledNode.full_title self ancestors lang in
   TitledNode.full_title (fst (snd r)) (snd (snd r)) lang = r)
  /\ (let r := TitledNode.full_titles self ancestors lang in
      TitledNode.full_titles (fst (snd r)) (snd (snd r)) lang = r).
Proof.
  split.
  - cbv zeta. rewrite (full_title_unfold self).
    destruct (TitledNode._full_title self !! lang) as [[| c s] |] eqn:Hft.
    2: { node_simpl. rewrite full_title_unfold. by rewrite Hft. }
    all: destruct ancestors as [| parent rest].
    all: try (destruct (TitledNode.full_title parent rest lang) as [above [parent' rest']]).
    all: unfold TitledNode.primary_title;
      pose proof (primary_title_again (TitledNode.title_group self) lang) as Hagain;
      destruct (TitleGroup.primary_title (TitledNode.title_group self) lang) as [own g];
      cbn [fst snd] in Hagain; cbv zeta; node_simpl.
    all: rewrite full_title_unfold; node_simpl; rewrite lookup_insert_eq.
    all: try (destruct (joined_not_empty above own) as (c & s & ->); reflexivity).
    all: destruct own as [| c s]; [| reflexivity].
    all: unfold TitledNode.primary_title; node_simpl; rewrite Hagain; node_simpl.
    all: by rewrite insert_insert_eq.
  - cbv zeta. revert self. induction ancestors as [| parent rest IH]; intros self.
    + rewrite (full_titles_unfold self).
      destruct (TitledNode._full_titles self !! lang) as [[| x xs] |] eqn:Hft.
      2: { node_simpl. rewrite full_titles_unfold. by rewrite Hft. }
      all: cbv zeta; node_simpl; rewrite full_titles_unfold; node_simpl;
        rewrite lookup_insert_eq.
      all: unfold TitledNode.all_node_titles; node_simpl.
      all: destruct (TitleGroup.all_titles (TitledNode.title_group self) (Some lang));
        [by rewrite insert_insert_eq | reflexivity].
    + rewrite (full_titles_unfold self).
      destruct (TitledNode._full_titles self !! lang) as [[| x xs] |] eqn:Hft.
      2: { node_simpl. rewrite full_titles_unfold. by rewrite Hft. }
      all: specialize (IH parent);
        destruct (TitledNode.full_titles parent rest lang) as [above [parent' rest']];
        cbn [fst snd] in IH; cbv zeta; node_simpl.
      all: rewrite full_titles_unfold; node_simpl; rewrite lookup_insert_eq.
      all: unfold TitledNode.all_node_titles; node_simpl.
      all: match goal with
           | |- context [List.flat_map ?f ?l] =>
               destruct (List.flat_map f l) as [| y ys] eqn:Hv
           end; [| reflexivity].
      all: rewrite IH; node_simpl; rewrite Hv.
      all: by rewrite insert_insert_eq.
Qed.

(** X22: once [full_title] has given a text that is not empty, the node
    keeps giving that text: a later change of its title group or of its
    ancestors is not seen. *)
Theorem full_title_stale (self : TitledNode.t) (ancestors : list TitledNode.t)
    (lang : string) (changed : TitleGroup.t) (moved : list TitledNode.t) :
  let r := TitledNode.full_title self ancestors lang in
  fst r <> ""%string ->
  fst (TitledNode.full_title
         (TitledNode.mk changed (TitledNode._full_title (fst (snd r)))
            (TitledNode._full_titles (fst (snd r))))
         moved lang)
  = fst r.
Proof.
  cbv zeta. intros Hne.
  assert (Hmemo : TitledNode._full_title
                    (fst (snd (TitledNode.full_title self ancestors lang))) !! lang
                  = Some (fst (TitledNode.full_title self ancestors lang))).
  { rewrite (full_title_unfold self).
    destruct (TitledNode._full_title self !! lang) as [[| c s] |] eqn:Hft.
    2: { exact Hft. }
    all: destruct ancestors as [| parent rest].
    all: try (destruct (TitledNode.full_title parent rest lang) as [above [parent' rest']]).
    all: unfold TitledNode.primary_title;
      destruct (TitleGroup.primary_title (TitledNode.title_group self) lang) as [own g].
    all: simpl; by rewrite lookup_insert_eq. }
  rewrite (full_title_unfold (TitledNode.mk _ _ _)). simpl TitledNode._full_title.
  rewrite Hmemo.
  destruct (fst (TitledNode.full_title self ancestors lang)) as [| c s]; [done |].
  reflexivity.
Qed.

Lemma full_title_stale_witness :
  fst (TitledNode.full_title
         (TitledNode.mk
            (TitleGroup.init [Title.mk "Bereshit" "en" true None])
            (TitledNode._full_title
               (fst (snd (TitledNode.full_title
                            (titled [Title.mk "Genesis" "en" true None]) [] "en"))))
            (TitledNode._full_titles
               (fst (snd (TitledNode.full_title
                            (titled [Title.mk "Genesis" "en" true None]) [] "en")))))
         [] "en")
  = fst (TitledNode.full_title (titled [Title.mk "Genesis" "en" true None]) [] "en").
Proof.
  apply (full_title_stale (titled [Title.mk "Genesis" "en" true None]) [] "en"
           (TitleGroup.init [Title.mk "Bereshit" "en" true None]) []).
  vm_compute. discriminate.
Defined.

Lemma full_titles_uncached (self : TitledNode.t) (ancestors : list TitledNode.t)
    (lang : string) :
  Forall (uncached lang) (self :: ancestors) ->
  fst (TitledNode.full_titles self ancestors lang)
  = match ancestors with
    | [] => TitledNode.all_node_titles self lang
    | parent :: rest =>
        List.flat_map
          (fun parent_title =>
             List.flat_map
               (fun sep =>
                  List.map (fun local => (parent_title +:+ sep) +:+ local)
                           (TitledNode.all_node_titles self lang))
               TitledTreeNode.title_separators)
          (fst (TitledNode.full_titles parent rest lang))
    end.
Proof.
  intros Hall. inversion Hall as [| ? ? (_ & Hfts & _) _]; subst.
  rewrite full_titles_unfold, Hfts. destruct ancestors as [| parent rest]; [reflexivity |].
  by destruct (TitledNode.full_titles parent rest lang) as [above [parent' rest']].
Qed.

(** X23: with nothing cached, and a primary title of the language on the
    node and on each of its ancestors, the full title is one of the full
    titles. *)
Theorem full_title_in_full_titles (self : TitledNode.t)
    (ancestors : list TitledNode.t) (lang : string) :
  Forall (uncached lang) (self :: ancestors) ->
  Forall (fun n => List.find (is_primary_in lang)
                     (TitleGroup.titles (TitledNode.title_group n)) <> None)
         (self :: ancestors) ->
  In (fst (TitledNode.full_title self ancestors lang))
     (fst (TitledNode.full_titles self ancestors lang)).
Proof.
  intros Hall Hprim. rewrite (full_title_joins _ _ _ Hall).
  revert self Hall Hprim. induction ancestors as [| parent rest IH]; intros self Hall Hprim.
  all: rewrite (full_titles_uncached _ _ _ Hall).
  all: inversion Hprim as [| ? ? Hp Hprest]; subst.
  all: assert (Hown : In (primary_text self lang) (TitledNode.all_node_titles self lang)).
  1, 3: unfold primary_text;
    destruct (List.find (is_primary_in lang)
                (TitleGroup.titles (TitledNode.title_group self))) as [p |] eqn:Hfind;
      [| done];
    apply List.find_some in Hfind as [Hin Hlang];
    unfold is_primary_in in Hlang; apply andb_prop in Hlang as [Hlang _];
    apply String.eqb_eq in Hlang; subst lang;
    by apply in_all_titles.
  - exact Hown.
  - inversion Hall as [| ? ? _ Hrest]; subst. cbn [joined_titles].
    apply List.in_flat_map. exists (joined_titles parent rest lang). split.
    + by apply IH.
    + apply List.in_flat_map. exists ", "%string. split; [right; by left |].
      apply List.in_map_iff. exists (primary_text self lang). by split.
Qed.

Lemma full_title_in_full_titles_witness :
  In (fst (TitledNode.full_title
             (titled [Title.mk "Intro" "en" false None; Title.mk "Prologue" "en" true None])
             [titled [Title.mk "Genesis" "en" true None]] "en"))
     (fst (TitledNode.full_titles
             (titled [Title.mk "Intro" "en" false None; Title.mk "Prologue" "en" true None])
             [titled [Title.mk "Genesis" "en" true None]] "en")).
Proof.
  apply (full_title_in_full_titles
           (titled [Title.mk "Intro" "en" false None; Title.mk "Prologue" "en" true None])
           [titled [Title.mk "Genesis" "en" true None]] "en").
  - repeat constructor.
  - repeat constructor; vm_compute; discriminate.
Defined.


(** * Properties of the content trees *)

Lemma schema_ind (P : SchemaNode.t -> Prop) :
  (forall (k : string) (cs : list SchemaNode.t), Forall P cs -> P (SchemaNode.Node k cs)) ->
  forall n : SchemaNode.t, P n.
Proof.
  intros Hnode. fix IH 1. intros [k cs]. apply Hnode.
  induction cs as [| c cs IHcs]; constructor; [apply IH | exact IHcs].
Qed.

Lemma create_content_unfold (cb : option SchemaNode.callback)
    (args : list SchemaNode.content) (k : string) (cs : list SchemaNode.t) :
  SchemaNode.create_content cb args (SchemaNode.Node k cs)
  = match cs with
    | [] =>
        match cb with
        | None => SchemaNode.Done (SchemaNode.Value PNone)
        | Some f => f (SchemaNode.Node k cs) args
        end
    | _ =>
        d ← fill (SchemaNode.create_content cb args) cs (SchemaNode.Done ∅);
        SchemaNode.Done (SchemaNode.Dict d)
    end.
Proof. destruct cs; reflexivity. Qed.

Lemma visit_content_unfold (cb : option SchemaNode.callback)
    (contents : list SchemaNode.content) (k : string) (cs : list SchemaNode.t) :
  SchemaNode.visit_content cb contents (SchemaNode.Node k cs)
  = match cs with
    | [] => SchemaNode.create_content cb contents (SchemaNode.Node k cs)
    | _ =>
        d ← fill (fun node =>
                    c ← mapM (SchemaNode.getitem (SchemaNode.key node)) contents;
                    SchemaNode.visit_content cb c node)
                 cs (SchemaNode.Done ∅);
        SchemaNode.Done (SchemaNode.Dict d)
    end.
Proof. destruct cs; reflexivity. Qed.

Lemma fill_fails (G : SchemaNode.t -> SchemaNode.outcome SchemaNode.content)
    (cs : list SchemaNode.t) (e : SchemaNode.error) :
  fill G cs (SchemaNode.Fails e) = SchemaNode.Fails e.
Proof. induction cs as [| c cs IH]; [reflexivity | exact IH]. Qed.

Lemma fill_cons (G : SchemaNode.t -> SchemaNode.outcome SchemaNode.content)
    (c : SchemaNode.t) (cs : list SchemaNode.t) (d : gmap string SchemaNode.content) :
  fill G (c :: cs) (SchemaNode.Done d)
  = match G c with
    | SchemaNode.Done v => fill G cs (SchemaNode.Done (<[SchemaNode.key c := v]> d))
    | SchemaNode.Fails e => SchemaNode.Fails e
    end.
Proof.
  unfold fill at 1. cbn [fold_left]. fold (fill G cs).
  destruct (G c) as [v | e]; [reflexivity | apply fill_fails].
Qed.

Lemma fill_done (G : SchemaNode.t -> SchemaNode.outcome SchemaNode.content)
    (cs : list SchemaNode.t) (d0 d : gmap string SchemaNode.content) :
  fill G cs (SchemaNode.Done d0) = SchemaNode.Done d ->
  forall k : string,
    d !! k = match last_with_key k cs with
             | Some n => made (G n)
             | None => d0 !! k
             end.
Proof.
  revert d0. induction cs as [| c cs IH]; intros d0 Hfill k.
  - injection Hfill as <-. reflexivity.
  - rewrite fill_cons in Hfill. destruct (G c) as [v | e] eqn:Hc; [| discriminate].
    rewrite (IH _ Hfill k). simpl.
    destruct (last_with_key k cs) as [m |]; [reflexivity |].
    destruct (decide (SchemaNode.key c = k)) as [<- | Hne].
    + by rewrite lookup_insert_eq, Hc.
    + by rewrite lookup_insert_ne.
Qed.

Lemma fill_same (G G' : SchemaNode.t -> SchemaNode.outcome SchemaNode.content)
    (cs : list SchemaNode.t)
    (start : SchemaNode.outcome (gmap string SchemaNode.content)) :
  Forall (fun c => G c = G' c) cs -> fill G cs start = fill G' cs start.
Proof.
  revert start. induction cs as [| c cs IH]; intros start Hall; [reflexivity |].
  inversion Hall as [| ? ? Hc Hrest]; subst.
  unfold fill. cbn [fold_left]. rewrite Hc. apply IH, Hrest.
Qed.

Lemma fill_all_made (G : SchemaNode.t -> SchemaNode.outcome SchemaNode.content)
    (cs : list SchemaNode.t) (d0 d : gmap string SchemaNode.content) :
  fill G cs (SchemaNode.Done d0) = SchemaNode.Done d ->
  Forall (fun c => exists v, G c = SchemaNode.Done v) cs.
Proof.
  revert d0. induction cs as [| c cs IH]; intros d0 Hfill; [constructor |].
  rewrite fill_cons in Hfill. destruct (G c) as [v | e] eqn:Hc; [| discriminate].
  constructor; [by exists v | by apply (IH _ Hfill)].
Qed.

Lemma last_with_key_in (k : string) (cs : list SchemaNode.t) (n : SchemaNode.t) :
  last_with_key k cs = Some n -> In n cs /\ SchemaNode.key n = k.
Proof.
  induction cs as [| c cs IH]; [discriminate |]. simpl.
  destruct (last_with_key k cs) as [m |].
  - intros Heq. injection Heq as ->. destruct (IH eq_refl). split; [by right | done].
  - destruct (decide (SchemaNode.key c = k)); [| discriminate].
    intros Heq. injection Heq as <-. split; [by left | done].
Qed.

Lemma last_with_key_unique (cs : list SchemaNode.t) (c : SchemaNode.t) :
  NoDup (List.map SchemaNode.key cs) -> In c cs ->
  last_with_key (SchemaNode.key c) cs = Some c.
Proof.
  induction cs as [| c0 cs IH]; [intros _ [] |].
  simpl. intros Hnd Hin. apply NoDup_cons in Hnd as [Hc0 Hnd].
  destruct Hin as [-> | Hin].
  - destruct (last_with_key (SchemaNode.key c) cs) as [m |] eqn:Hm.
    + exfalso. apply Hc0. apply last_with_key_in in Hm as [Hm <-].
      apply list_elem_of_In. by apply List.in_map.
    + by destruct (decide (SchemaNode.key c = SchemaNode.key c)).
  - by rewrite (IH Hnd Hin).
Qed.

(** X24: on a node with children [create_content] gives a dict that holds
    the keys of the children and nothing else; under a key stands what
    was made of the last child with that key, so that of two children
    with one key the first is lost. *)
Theorem create_content_last_wins (cb : option SchemaNode.callback)
    (args : list SchemaNode.content) (k : string) (cs : list SchemaNode.t)
    (tree : SchemaNode.content) :
  cs <> [] ->
  SchemaNode.create_content cb args (SchemaNode.Node k cs) = SchemaNode.Done tree ->
  exists d : gmap string SchemaNode.content,
    tree = SchemaNode.Dict d
    /\ forall key : string,
         d !! key = match last_with_key key cs with
                    | Some n => made (SchemaNode.create_content cb args n)
                    | None => None
                    end.
Proof.
  intros Hcs Hmade. rewrite create_content_unfold in Hmade.
  destruct cs as [| c cs]; [done |].
  destruct (fill (SchemaNode.create_content cb args) (c :: cs) (SchemaNode.Done ∅))
    as [d | e] eqn:Hfill; [| discriminate].
  injection Hmade as <-. exists d. split; [reflexivity |].
  intros key. by rewrite (fill_done _ _ _ _ Hfill key).
Qed.

Lemma create_content_last_wins_witness :
  exists d : gmap string SchemaNode.content,
    SchemaNode.Dict (<["Text" := SchemaNode.Value (PInt 0)]>
                       (<["Introduction" := SchemaNode.Value (PInt 0)]> ∅))
    = SchemaNode.Dict d
    /\ forall key : string,
         d !! key = match last_with_key key (SchemaNode.children two_parts) with
                    | Some n => made (SchemaNode.create_content (Some zero_count) [] n)
                    | None => None
                    end.
Proof.
  apply (create_content_last_wins (Some zero_count) [] "Book"
           (SchemaNode.children two_parts)).
  - discriminate.
  - reflexivity.
Defined.

(** X25: on a schema where no two children of a node share a key,
    visiting with [g] the tree that [create_content] has made with [f] is
    making the tree with the callback that hands the result of [f] to
    [g]: the same tree, or the same exception. *)
Theorem visit_created_content (f g : SchemaNode.callback)
    (args : list SchemaNode.content) (self : SchemaNode.t) (tree : SchemaNode.content) :
  unique_keys self = true ->
  SchemaNode.create_content (Some f) args self = SchemaNode.Done tree ->
  SchemaNode.visit_content (Some g) [tree] self
  = SchemaNode.create_content (Some (then_visit f args g)) [] self.
Proof.
  revert tree. induction self as [k cs IH] using schema_ind. intros tree Huniq Hmade.
  simpl in Huniq. apply andb_prop in Huniq as [Hnd Hsub].
  apply bool_decide_eq_true in Hnd. rewrite forallb_forall in Hsub.
  rewrite visit_content_unfold, (create_content_unfold (Some (then_visit f args g))).
  rewrite create_content_unfold in Hmade.
  destruct cs as [| c0 cs0] eqn:Hcs.
  - rewrite create_content_unfold. unfold then_visit. by rewrite Hmade.
  - cbv beta iota in Hmade. cbv beta iota.
    rewrite <- Hcs in *. clear Hcs c0 cs0.
    destruct (fill (SchemaNode.create_content (Some f) args) cs (SchemaNode.Done ∅))
      as [d | e] eqn:Hfill; [| discriminate].
    injection Hmade as <-.
    pose proof (fill_all_made _ _ _ _ Hfill) as Hall.
    rewrite (fill_same _ (SchemaNode.create_content (Some (then_visit f args g)) []));
      [reflexivity |].
    rewrite Forall_forall in IH, Hall. apply Forall_forall. intros c Hc.
    destruct (Hall c Hc) as (v & Hv).
    assert (Hd : d !! SchemaNode.key c = Some v).
    { rewrite (fill_done _ _ _ _ Hfill).
      rewrite last_with_key_unique; [by rewrite Hv | exact Hnd | by apply list_elem_of_In]. }
    simpl. rewrite Hd. simpl.
    apply IH; [exact Hc | apply Hsub; by apply list_elem_of_In | exact Hv].
Qed.

Lemma visit_created_content_witness :
  SchemaNode.visit_content (Some first_given)
    [SchemaNode.Dict (<["Text" := SchemaNode.Value (PInt 0)]>
                        (<["Introduction" := SchemaNode.Value (PInt 0)]> ∅))]
    two_parts
  = SchemaNode.create_content (Some (then_visit zero_count [] first_given)) [] two_parts.
Proof.
  apply (visit_created_content zero_count first_given [] two_parts).
  - vm_compute. reflexivity.
  - reflexivity.
Defined.

(** X26: [visit_content] on a node with children looks up the key of the
    first child in the first tree before anything else: a dict without
    that key raises KeyError for it and a value that is not a dict raises
    TypeError, whatever the callback and the other trees are. *)
Theorem visit_content_missing_key (cb : option SchemaNode.callback)
    (k : string) (c : SchemaNode.t) (cs : list SchemaNode.t)
    (others : list SchemaNode.content) :
  (forall d : gmap string SchemaNode.content,
      d !! SchemaNode.key c = None ->
      SchemaNode.visit_content cb (SchemaNode.Dict d :: others) (SchemaNode.Node k (c :: cs))
      = SchemaNode.Fails (SchemaNode.KeyError (SchemaNode.key c)))
  /\ (forall v : pyval,
         SchemaNode.visit_content cb (SchemaNode.Value v :: others)
           (SchemaNode.Node k (c :: cs))
         = SchemaNode.Fails (SchemaNode.Raised TypeError)).
Proof.
  split.
  - intros d Hd. rewrite visit_content_unfold, fill_cons. simpl. by rewrite Hd.
  - intros v. by rewrite visit_content_unfold, fill_cons.
Qed.

(** X27: [create_skeleton] never raises, and every content node of the
    skeleton holds the empty list: the skeleton of a node without
    children is the empty list, and under each key of a node with
    children stands the skeleton of the last child with that key. *)
Theorem create_skeleton_shape (self : SchemaNode.t) :
  exists tree : SchemaNode.content,
    SchemaNode.create_skeleton self = SchemaNode.Done tree
    /\ match SchemaNode.children self with
       | [] => tree = SchemaNode.Value (PList [])
       | cs =>
           exists d : gmap string SchemaNode.content,
             tree = SchemaNode.Dict d
             /\ forall key : string,
                  d !! key = match last_with_key key cs with
                             | Some n => made (SchemaNode.create_skeleton n)
                             | None => None
                             end
       end.
Proof.
  assert (Hdone : forall n, exists tree, SchemaNode.create_skeleton n = SchemaNode.Done tree).
  { unfold SchemaNode.create_skeleton.
    induction n as [k cs IH] using schema_ind. rewrite create_content_unfold.
    destruct cs as [| c0 cs0] eqn:Hcs; [by eexists |]. rewrite <- Hcs in *.
    clear Hcs c0 cs0.
    assert (Hfill : forall d0, exists d,
               fill (SchemaNode.create_content
                       (Some (fun _ _ => SchemaNode.Done (SchemaNode.Value (PList [])))) [])
                    cs (SchemaNode.Done d0) = SchemaNode.Done d).
    { induction cs as [| c cs IHcs]; intros d0; [by eexists |].
      inversion IH as [| ? ? (v & Hv) Hrest]; subst.
      rewrite fill_cons, Hv. by apply IHcs. }
    destruct (Hfill ∅) as (d & ->). by eexists. }
  destruct (Hdone self) as (tree & Htree). exists tree. split; [exact Htree |].
  unfold SchemaNode.create_skeleton in *.
  destruct self as [k cs]. cbn [SchemaNode.children]. destruct cs as [| c cs].
  - simpl in Htree. by injection Htree as <-.
  - rewrite create_content_unfold in Htree. cbv beta iota in Htree.
    match type of Htree with
    | context [fill ?G ?l ?st] => destruct (fill G l st) as [d | e] eqn:Hfill
    end; [| discriminate].
    injection Htree as <-. exists d. split; [reflexivity |].
    intros key. by rewrite (fill_done _ _ _ _ Hfill key).
Qed.


(** * The base class among the address classes *)

Lemma regex_total_known_language (a : AddressType.t) (lang : string)
    (group_id : option string) (kw : kwargs) :
  lang = "en"%string \/ lang = "he"%string ->
  exists r : option string, Address.regex a lang group_id kw = Ok r.
Proof.
  intros Hlang. destruct (AddressType.cls a) eqn:Hc.
  2-6: destruct (regex_known_language a lang group_id kw) as (r & Hr);
    [by rewrite Hc | exact Hlang | by exists (Some r)].
  exists None. unfold Address.regex, Address.section_patterns, Address._core_regex.
  rewrite Hc. by destruct Hlang as [-> | ->].
Qed.

(** X28: an address of the base class, which the address type [Type]
    names, gives no pattern.  With such an address at level 0 and a
    language the classes know, [address_regex] returns [None] on a node
    of depth at most 1, on which [full_regex] raises TypeError; and on a
    node of depth 2 or more that has a second address, [address_regex]
    raises TypeError. *)
Theorem address_regex_base_class (self : NumberedTitledTreeNode.t) (lang : string)
    (kw : kwargs) (a0 : AddressType.t) :
  Py.index (NumberedTitledTreeNode._addressTypes self) 0 = Ok a0 ->
  AddressType.cls a0 = AddressType.Base ->
  lang = "en"%string \/ lang = "he"%string ->
  (NumberedTitledTreeNode.depth self <= 1 ->
   NumberedTitledTreeNode.address_regex self lang kw = Ok None
   /\ forall (title : string) (anchored : bool),
        NumberedTitledTreeNode.full_regex self title lang anchored kw = Raise TypeError)
  /\ (forall a1 : AddressType.t,
        Py.index (NumberedTitledTreeNode._addressTypes self) 1 = Ok a1 ->
        2 <= NumberedTitledTreeNode.depth self ->
        NumberedTitledTreeNode.address_regex self lang kw = Raise TypeError).
Proof.
  intros Ha0 Hc Hlang.
  assert (Hr0 : Address.regex a0 lang (NumberedTitledTreeNode.group_name kw 0) kw
                = Ok None).
  { unfold Address.regex, Address.section_patterns, Address._core_regex.
    rewrite Hc. by destruct Hlang as [-> | ->]. }
  assert (Hstop : Address.stop_parsing a0 lang = false).
  { unfold Address.stop_parsing. by rewrite Hc. }
  split.
  - intros Hdepth.
    assert (Ha : NumberedTitledTreeNode.address_regex self lang kw = Ok None).
    { unfold NumberedTitledTreeNode.address_regex. rewrite Ha0. simpl.
      rewrite Hr0. simpl. rewrite Hstop. simpl.
      unfold NumberedTitledTreeNode.range1.
      by replace (Z.to_nat (NumberedTitledTreeNode.depth self) - 1)%nat with O by lia. }
    split; [exact Ha |]. intros title anchored.
    unfold NumberedTitledTreeNode.full_regex, NumberedTitledTreeNode.full_regex_source.
    by rewrite Ha.
  - intros a1 Ha1 Hdepth.
    unfold NumberedTitledTreeNode.address_regex. rewrite Ha0. simpl.
    rewrite Hr0. simpl. rewrite Hstop. simpl.
    unfold NumberedTitledTreeNode.range1.
    destruct (Z.to_nat (NumberedTitledTreeNode.depth self) - 1)%nat as [| m] eqn:Hm;
      [lia |].
    change (List.map Z.of_nat (List.seq 1 (S m)))
      with (1 :: List.map Z.of_nat (List.seq 2 m)).
    cbn [fold_left].
    replace (NumberedTitledTreeNode.append_level self lang kw (Ok None) 1)
      with (@Raise (option string) TypeError); [apply append_level_raise |].
    unfold NumberedTitledTreeNode.append_level. simpl. rewrite Ha1. simpl.
    destruct (regex_total_known_language a1 lang
                (NumberedTitledTreeNode.group_name kw 1) kw Hlang) as (r & Hr).
    rewrite Hr. simpl. by destruct r.
Qed.

Lemma address_regex_base_class_witness :
  NumberedTitledTreeNode.init 1 ["Type"%string] ["Chapter"%string] None
  = Ok (NumberedTitledTreeNode.mk 1 ["Type"%string] ["Chapter"%string] None
          [AddressType.init_ AddressType.Base 0 None])
  /\ NumberedTitledTreeNode.address_regex
       (NumberedTitledTreeNode.mk 1 ["Type"%string] ["Chapter"%string] None
          [AddressType.init_ AddressType.Base 0 None]) "en" no_kwargs = Ok None
  /\ NumberedTitledTreeNode.address_regex
       (NumberedTitledTreeNode.mk 2 ["Type"; "Integer"]%string
          ["Chapter"; "Verse"]%string None
          [AddressType.init_ AddressType.Base 0 None;
           AddressType.init_ AddressType.Integer 1 None]) "en" no_kwargs
     = Raise TypeError.
Proof.
  split; [reflexivity |]. split.
  - destruct (address_regex_base_class
                (NumberedTitledTreeNode.mk 1 ["Type"%string] ["Chapter"%string] None
                   [AddressType.init_ AddressType.Base 0 None]) "en" no_kwargs
                (AddressType.init_ AddressType.Base 0 None) eq_refl eq_refl)
      as (Hflat & _); [by left |].
    apply Hflat. simpl. lia.
  - destruct (address_regex_base_class
                (NumberedTitledTreeNode.mk 2 ["Type"; "Integer"]%string
                   ["Chapter"; "Verse"]%string None
                   [AddressType.init_ AddressType.Base 0 None;
                    AddressType.init_ AddressType.Integer 1 None]) "en" no_kwargs
                (AddressType.init_ AddressType.Base 0 None) eq_refl eq_refl)
      as (_ & Hdeep); [by left |].
    apply (Hdeep (AddressType.init_ AddressType.Integer 1 None)); [reflexivity |].
    simpl. lia.
Defined.
